(** * A shallow embedding of the arpc client spine

    The development follows the layers of the C++ sources:

    - [FlatMap]: the sorted keyed array behind [arpc::flat_map];
    - [Awaitable]: the timeout/deadline constructors of [arpc/awaitable.h];
    - [Context]: the keyed data, [save] and [load] of [arpc/context.h];
    - [Client]: the request multiplexer [client_connection] of
      [arpc/client.h], as a state-and-exception monad over the engine's
      fields;
    - [Mpt] and [Serializable]: the compile-time sequences of [arpc/mpt.h]
      and what [arpc/serializable_base.h] computes with them;
    - [Address]: the lists of resolved addresses of [arpc/address.cc], as
      chains of objects in a store.

    Integers are [Z]; the 32-bit request counter wraps explicitly.  Byte
    strings ([std::string] used as a buffer) are [list byte]. *)

From Stdlib Require Import ZArith Lia Sorted.
From Stdlib Require OrderedTypeEx.
From Equations Require Import Equations.
From stdpp Require Import base tactics option list numbers sorting strings gmap.

Open Scope Z_scope.

(** ** Orderings on keys

    [flat_map<Key, T, Compare = std::less<Key>>] is parameterised by a
    comparison object; [less] is that comparison. *)

Class Less (K : Type) := less : K → K → bool.

Class StrictTotalLess (K : Type) `{Less K} : Prop := {
  less_irrefl (a : K) : less a a = false;
  less_trans (a b c : K) : less a b = true → less b c = true → less a c = true;
  less_connected (a b : K) : less a b = false → less b a = false → a = b
}.

#[global] Instance Z_less : Less Z := Z.ltb.
#[global] Instance string_less : Less string := String.ltb.

(** ** The sorted keyed map *)

Module FlatMap.

(** Modelled from the spec: [arpc/container/flat_map.h] is not part of the
  sources at hand (only its test is).  The spec describes "a contiguous
  array of pairs sorted by key; find/lower_bound/upper_bound use binary
  search; insert preserves uniqueness; operator[] returns mapped value or
  default. Iterators are indices into the array".  The array is a list of
  pairs, an iterator is an index in [0, size], and [size] is [end()]. *)
Abbreviation flat_map K V := (list (K * V)).

Section ops.
Context {K V : Type} `{Less K}.

Definition size (m : flat_map K V) : nat := length m.
Definition begin_ (m : flat_map K V) : nat := 0%nat.
Definition end_ (m : flat_map K V) : nat := length m.
Definition empty (m : flat_map K V) : bool := bool_decide (length m = 0%nat).
Definition clear (m : flat_map K V) : flat_map K V := [].

(** Modelled from the spec: the binary search shared by [lower_bound] and
    [upper_bound], written as the halving loop of the standard library's
    algorithms: [first] and [count] delimit the range still to search,
    [p] tells whether the wanted position lies after an element.  The
    loop runs at most [fuel] times; [count] shrinks at every turn, so
    [fuel = count] is enough. *)
Fixpoint search_loop {A : Type} (p : A → bool) (a : list A)
    (fuel first count : nat) : nat :=
  match fuel with
  | O => first
  | S fuel' =>
      if (count =? 0)%nat then first
      else
        let step := (count / 2)%nat in
        let it := (first + step)%nat in
        match a !! it with
        | Some x =>
            if p x
            then search_loop p a fuel' (S it) (count - S step)%nat
            else search_loop p a fuel' first step
        | None => first
        end
  end.

Definition lower_bound (k : K) (m : flat_map K V) : nat :=
  search_loop (λ kv, less kv.1 k) m (length m) 0%nat (length m).

Definition upper_bound (k : K) (m : flat_map K V) : nat :=
  search_loop (λ kv, negb (less k kv.1)) m (length m) 0%nat (length m).

Definition equal_range (k : K) (m : flat_map K V) : nat * nat :=
  (lower_bound k m, upper_bound k m).

(** [find]: the lower bound when it holds an equivalent key, else
    [end()]. *)
Definition find (k : K) (m : flat_map K V) : nat :=
  let it := lower_bound k m in
  match m !! it with
  | Some kv => if less k kv.1 then end_ m else it
  | None => end_ m
  end.

Definition count (k : K) (m : flat_map K V) : nat :=
  if bool_decide (find k m = end_ m) then 0%nat else 1%nat.

(** [vector::insert(pos, x)] and [vector::erase(pos)] on the array. *)
Definition insert_at (it : nat) (x : K * V) (m : flat_map K V)
    : flat_map K V :=
  take it m ++ x :: drop it m.

(** [erase(it)] returns the iterator following the erased element,
    which is the same index. *)
Definition erase (it : nat) (m : flat_map K V) : nat * flat_map K V :=
  (it, delete it m).

(** [insert(value)]: the position and whether the insertion took
    place. *)
Definition insert (x : K * V) (m : flat_map K V)
    : (nat * bool) * flat_map K V :=
  let it := lower_bound x.1 m in
  match m !! it with
  | Some kv =>
      if less x.1 kv.1 then ((it, true), insert_at it x m)
      else ((it, false), m)
  | None => ((it, true), insert_at it x m)
  end.

(** [erase(key)]: the number of elements removed. *)
Definition erase_key (k : K) (m : flat_map K V) : nat * flat_map K V :=
  let it := find k m in
  if bool_decide (it = end_ m) then (0%nat, m) else (1%nat, delete it m).

(** [operator[](key)]: the position of the (possibly just
    default-inserted) element; the caller reads or writes the mapped
    value through it. *)
Definition subscript (dflt : V) (k : K) (m : flat_map K V)
    : nat * flat_map K V :=
  let '((it, _), m') := insert (k, dflt) m in (it, m').

Definition mapped (dflt : V) (it : nat) (m : flat_map K V) : V :=
  match m !! it with Some kv => kv.2 | None => dflt end.

(** The constructor from an initializer list and [insert(first, last)]
    insert the elements one by one. *)
Definition insert_range (xs : list (K * V)) (m : flat_map K V)
    : flat_map K V :=
  foldl (λ acc x, (insert x acc).2) m xs.

Definition of_list (xs : list (K * V)) : flat_map K V :=
  insert_range xs [].

(** *** Reference sorted-array specification

    The specification side of the comparison: positions found by a
    left-to-right scan of the array. *)
Fixpoint scan {A : Type} (p : A → bool) (a : list A) : nat :=
  match a with
  | [] => 0%nat
  | x :: a' => if p x then S (scan p a') else 0%nat
  end.

(** [split_at p a n]: [p] holds strictly before position [n] of [a] and
    fails from [n] on. *)
Definition split_at {A : Type} (p : A → bool) (a : list A) (n : nat) : Prop :=
  (n ≤ length a)%nat
  ∧ (∀ i x, (i < n)%nat → a !! i = Some x → p x = true)
  ∧ (∀ i x, (n ≤ i)%nat → a !! i = Some x → p x = false).

(** First position whose key is not less than [k]. *)
Definition ref_lower_bound (k : K) (m : flat_map K V) : nat :=
  scan (λ kv, less kv.1 k) m.

(** First position whose key is greater than [k]. *)
Definition ref_upper_bound (k : K) (m : flat_map K V) : nat :=
  scan (λ kv, negb (less k kv.1)) m.

Definition ref_equal_range (k : K) (m : flat_map K V) : nat * nat :=
  (ref_lower_bound k m, ref_upper_bound k m).

(** The invariant of the container: keys strictly increasing. *)
Definition key_lt (x y : K * V) : Prop := less x.1 y.1 = true.
Definition sorted (m : flat_map K V) : Prop := StronglySorted key_lt m.

Definition keys (m : flat_map K V) : list K := m.*1.

(** The mapped value stored under [k], if any. *)
Definition lookup_key (k : K) (m : flat_map K V) : option V :=
  snd <$> (m !! find k m).
End ops.

End FlatMap.

(** ** The system clock

    [std::chrono::system_clock] counts ticks of an implementation-defined
    period; [ticks_per_ms] of them make one millisecond. *)

Class SystemClock := ticks_per_ms : Z.

(** The counts of [std::chrono] durations are signed 64-bit integers.
    [wrap64 z] is the count that holds the integer [z]: the arithmetic
    of the compiled code wraps around. *)
Definition wrap64 (z : Z) : Z := (z + 2 ^ 63) mod 2 ^ 64 - 2 ^ 63.

(** A count of milliseconds converted to the system clock's duration, as
    the comparison and the subtraction of a millisecond time point and a
    clock reading do: the count is multiplied by [ticks_per_ms] in 64
    bits. *)
Definition to_ticks `{SystemClock} (ms : Z) : Z := wrap64 (ms * ticks_per_ms).

(** The millisecond counts whose conversion to ticks does not wrap. *)
Definition fits_ticks `{SystemClock} (ms : Z) : Prop :=
  - 2 ^ 63 ≤ ms * ticks_per_ms < 2 ^ 63.

(** ** Awaitables ([arpc/awaitable.h]) *)

Module Awaitable.

(** The wait condition of an [awaitable<R>]: its four data members.  The
    reaction function [react_fn_] does not take part in what is waited
    for and is left out.  Durations are counts of milliseconds. *)
Record awaitable := {
  fd_ : Z;
  for_write_ : bool;
  timeout_ : Z;
  for_polling_ : bool
}.

(** [awaitable(int fd, bool for_write = false)]: the timeout members keep
    their default member initialisers. *)
Definition of_fd (fd : Z) (for_write : bool) : awaitable :=
  {| fd_ := fd; for_write_ := for_write;
     timeout_ := -1; for_polling_ := false |}.

(** [awaitable(milliseconds timeout, bool for_polling = false)]. *)
Definition of_timeout (timeout : Z) (for_polling : bool) : awaitable :=
  {| fd_ := -1; for_write_ := false;
     timeout_ := timeout; for_polling_ := for_polling |}.

(** [std::chrono::duration_cast<milliseconds>] from a duration counted in
    ticks of which [ticks_per_ms] make one millisecond: integer division
    truncating toward zero. *)
Definition duration_cast_ms (ticks_per_ms : Z) (d : Z) : Z :=
  Z.quot d ticks_per_ms.

(** [timeout(duration)] and [polling(duration)]. *)
Definition timeout (ticks_per_ms : Z) (duration : Z) : awaitable :=
  of_timeout (duration_cast_ms ticks_per_ms duration) false.

Definition polling (ticks_per_ms : Z) (duration : Z) : awaitable :=
  of_timeout (duration_cast_ms ticks_per_ms duration) true.

(** [std::ratio<num, den>], the period of a duration: a fraction of a
    second, in lowest terms. *)
Record ratio := {
  num : Z;
  den : Z
}.

Definition milli : ratio := {| num := 1; den := 1000 |}.

(** The period of [system_clock::duration]. *)
Definition system_clock_period `{SystemClock} : ratio :=
  {| num := 1; den := 1000 * ticks_per_ms |}.

(** [std::ratio_divide<R1, R2>], in lowest terms. *)
Definition ratio_divide (r1 r2 : ratio) : ratio :=
  let n := num r1 * den r2 in
  let d := den r1 * num r2 in
  {| num := n / Z.gcd n d; den := d / Z.gcd n d |}.

(** The period of [std::common_type] of two durations: the greatest
    common divisor of the two periods. *)
Definition common_period (r1 r2 : ratio) : ratio :=
  {| num := Z.gcd (num r1) (num r2); den := Z.lcm (den r1) (den r2) |}.

(** [std::chrono::duration_cast] from the period [from] to the period
    [to_], on 64-bit counts: the four cases of the conversion factor
    [from / to_]. *)
Definition duration_cast (from to_ : ratio) (count : Z) : Z :=
  let cf := ratio_divide from to_ in
  if bool_decide (num cf = 1) then
    if bool_decide (den cf = 1) then count
    else Z.quot count (den cf)
  else
    if bool_decide (den cf = 1) then wrap64 (count * num cf)
    else Z.quot (wrap64 (count * num cf)) (den cf).

(** [when - system_clock::now()] for a time point [when] whose duration
    has the period [period], and the reading [now] of the system clock:
    both counts are converted to the common type of the two durations
    and subtracted there. *)
Definition time_until `{SystemClock} (period : ratio) (when now : Z) : Z :=
  let cd := common_period period system_clock_period in
  wrap64 (duration_cast period cd when
          - duration_cast system_clock_period cd now).

(** [deadline(when)]. *)
Definition deadline `{SystemClock} (period : ratio) (when now : Z)
    : awaitable :=
  let cd := common_period period system_clock_period in
  let delta := duration_cast cd milli (time_until period when now) in
  of_timeout (Z.max 0 delta) false.

End Awaitable.

(** ** Error kinds

    [arpc/errors.h] is not among the sources; the kinds are the exception
    classes the client names ([errors::cancelled], [errors::try_again],
    [errors::deadline_exceeded], [errors::data_mismatch]) and those listed
    in the spec. *)

Module Errors.

Inductive error_kind :=
| io_error
| data_mismatch
| deadline_exceeded
| cancelled
| try_again
| not_connected
| internal_error.

#[global] Instance error_kind_eq_dec : EqDecision error_kind.
Proof. solve_decision. Defined.

Record exception := { kind : error_kind; what : string }.

#[global] Instance exception_eq_dec : EqDecision exception.
Proof. solve_decision. Defined.

Definition make (k : error_kind) (msg : string) : exception :=
  {| kind := k; what := msg |}.

End Errors.

(** ** Execution contexts ([arpc/context.h]) *)

Module Context.
Import FlatMap.

(** The polymorphic base of context values: [portable_class_name_of] is the
    virtual [portable_class_name()] of [dynamic_base_class]. *)
Class DynamicBase (D : Type) := portable_class_name_of : D → string.

(** A dynamic class [T] deriving from the base: [portable_class_name<T>()],
    a default-constructed [T], the conversion of a [T] to its base and the
    [static_cast] back. *)
Class DynamicClass (D T : Type) `{DynamicBase D} := {
  portable_class_name : string;
  default_constructed : T;
  upcast : T → D;
  static_cast : D → T
}.
Arguments portable_class_name {D} T {_ _}.
Arguments default_constructed {D} T {_ _}.

Section context.
Context {D : Type} `{DynamicBase D}.

(** One context node.  [parent_] is the link along which cancellation
    and deadlines are inherited: [None] for the root and for a shielded
    context.  The children set, the thread-local stack links and the
    mutexes play no part in the operations below and are left out.  Time
    points, durations and the clock readings [now] passed to the
    operations count milliseconds ([context::duration]). *)
#[warnings="-register-all"]
Inductive context := Build_context {
  parent_ : option context;
  cancelled_ : bool;
  deadline_ : option Z;
  data_ : flat_map string D
}.

Definition with_cancelled (b : bool) (c : context) : context :=
  Build_context (parent_ c) b (deadline_ c) (data_ c).
Definition with_deadline (d : option Z) (c : context) : context :=
  Build_context (parent_ c) (cancelled_ c) d (data_ c).
Definition with_data (m : flat_map string D) (c : context) : context :=
  Build_context (parent_ c) (cancelled_ c) (deadline_ c) m.

(** Modelled from the spec: [context(root)], the root of a thread's
    context tree (the constructors are defined in [context.cc], which is
    not among the sources): nothing set, no parent. *)
Definition root : context := Build_context None false None [].

(** Modelled from the spec: "A context is created as a child of the current
    thread-local context (or an explicit parent) ... If shield=true,
    cancellation and deadline propagation from ancestors are severed". *)
Definition new_context (parent : context) (shield : bool) : context :=
  Build_context (if shield then None else Some parent) false None [].

Definition opt_min (a b : option Z) : option Z :=
  match a, b with
  | Some x, Some y => Some (Z.min x y)
  | Some x, None => Some x
  | None, b => b
  end.

(** Modelled from the spec: [deadline()], [context.cc] being absent: "a
    node's effective deadline is the earliest of its own and any
    ancestor's (unless shielded)". *)
Fixpoint deadline (c : context) : option Z :=
  match c with
  | Build_context p _ d _ =>
      opt_min d (match p with Some p' => deadline p' | None => None end)
  end.

(** Modelled from the spec: [deadline_left()], the "remaining duration
    until deadline if any", at clock reading [now]. *)
Definition deadline_left (c : context) (now : Z) : option Z :=
  (λ t, t - now) <$> deadline c.

(** Modelled from the spec: [is_cancelled()] "returns the flag OR (unless
    shielded) any ancestor's flag OR deadline-in-the-past". *)
Fixpoint any_cancelled (c : context) : bool :=
  match c with
  | Build_context p f _ _ =>
      f || (match p with Some p' => any_cancelled p' | None => false end)
  end.

Definition deadline_passed (c : context) (now : Z) : bool :=
  match deadline c with Some t => t <? now | None => false end.

Definition is_cancelled (c : context) (now : Z) : bool :=
  any_cancelled c || deadline_passed c now.

(** Modelled from the spec: [cancel()] "idempotently sets the cancelled
    flag" (the recursion into the children acts on other nodes). *)
Definition cancel (c : context) : context := with_cancelled true c.

(** Modelled from the spec: [set_deadline(t)] / [set_timeout(d)] "records
    an absolute time", the timeout being counted from [now]. *)
Definition set_deadline (when : Z) (c : context) : context :=
  with_deadline (Some when) c.

Definition set_timeout (timeout now : Z) (c : context) : context :=
  set_deadline (now + timeout) c.

(** Modelled from the spec: [data()], the "list-of-values" of the keyed
    data mapping, in the order of the array. *)
Definition data (c : context) : list D := (data_ c).*2.

(** [set_one(t)]: [data_[t.portable_class_name()] = make_shared(t)].  The
    subscript default-inserts an entry for a new key and the assignment
    overwrites its mapped pointer at once. *)
Definition assign (name : string) (v : D) (m : flat_map string D)
    : flat_map string D :=
  let '(it, m') := subscript v name m in
  alter (λ kv, (kv.1, v)) it m'.

Definition set_one (v : D) (c : context) : context :=
  with_data (assign (portable_class_name_of v) v (data_ c)) c.

(** Modelled from the spec: [set_data(new_data)] installs every value of
    the list under its portable type name, as [set_one] does. *)
Definition set_data (new_data : list D) (c : context) : context :=
  foldl (λ acc v, set_one v acc) c new_data.

(** [reset_one<T>()]: [data_.erase(portable_class_name<T>())]. *)
Definition reset_one (T : Type) `{!DynamicClass D T} (c : context) : context :=
  with_data (erase_key (portable_class_name T) (data_ c)).2 c.

(** [get<T>()], a [const] member: it returns the value and the context it
    was called on. *)
Definition get (T : Type) `{!DynamicClass D T} (c : context) : T * context :=
  let it := find (portable_class_name T) (data_ c) in
  if bool_decide (it ≠ end_ (data_ c)) then
    match data_ c !! it with
    | Some kv => (static_cast kv.2, c)
    | None => (default_constructed T, c)
    end
  else (default_constructed T, c).

(** [set(v...)]: [(..., set_one(v))], the values from left to right. *)
Definition set (vs : list D) (c : context) : context :=
  foldl (λ acc v, set_one v acc) c vs.

(** [reset<V...>()]: [(..., reset_one<V>())], the classes from left to
    right; a class of the pack is a type with its [DynamicClass]. *)
Record dynamic_class : Type := {
  class_carrier : Type;
  class_instance : DynamicClass D class_carrier
}.

Definition class_name (V : dynamic_class) : string :=
  @portable_class_name D (class_carrier V) _ (class_instance V).

Definition reset (Vs : list dynamic_class) (c : context) : context :=
  foldl (λ acc V, @reset_one (class_carrier V) (class_instance V) acc) c Vs.

(** The items an encoder receives from [save], one per call [e(...)]. *)
Inductive item :=
| item_duration (d : option Z)
| item_values (vs : list D)
| item_bool (b : bool).

(** [save(e)]: the three clock-dependent reads happen in sequence;
    [now1] is the reading used by [deadline_left()], [now2] the one used by
    [is_cancelled()]. *)
Definition save (c : context) (now1 now2 : Z) : list item :=
  [ item_duration (deadline_left c now1);
    item_values (data c);
    item_bool (is_cancelled c now2) ].

(** [load(d)]: three reads from the decoder, then the three updates.  A
    stream that does not hold the three items in this order makes the
    decoder fail ([None]). *)
Definition load (stream : list item) (now : Z) (c : context)
    : option (context * list item) :=
  match stream with
  | item_duration deadline_remaining :: item_values new_data
      :: item_bool cancelled :: rest =>
      let c1 := match deadline_remaining with
                | Some d => set_timeout d now c
                | None => c
                end in
      let c2 := set_data new_data c1 in
      let c3 := if cancelled then cancel c2 else c2 in
      Some (c3, rest)
  | _ => None
  end.

(** A context on which nothing has been set and which inherits nothing:
    no deadline of its own or of an ancestor, no cancellation, no data. *)
Definition fresh (c : context) : Prop :=
  deadline c = None ∧ any_cancelled c = false ∧ data_ c = [].

(** Every value of the data map is stored under its own portable class
    name, as [set_one] stores it. *)
Definition keyed (m : flat_map string D) : Prop :=
  Forall (λ kv, kv.1 = portable_class_name_of kv.2) m.

End context.
Arguments context D : clear implicits.

End Context.

(** ** The client engine ([arpc/client.h]) *)

Module Client.
Import FlatMap Errors.

Abbreviation bytes := (list Byte.byte).

(** [rpc_defs::message_type] ([arpc/message_defs.h] is absent): the three
    kinds of frame, and any other value the one-byte tag may carry. *)
Inductive message_type :=
| REQUEST
| RESPONSE
| CANCEL_REQUEST
| other_message_type (tag : Z).

(** The [Encoder] and [Decoder] template parameters, as far as the engine
    uses them on frame headers.  A decoder is given the unread part of
    the input stream and returns the value with the number of bytes it
    has read, by which the stream's position advances. *)
Class Codec := {
  encode_message_type : message_type → bytes;
  encode_request_id : Z → bytes;
  decode_message_type : bytes → exception + message_type * nat;
  decode_request_id : bytes → exception + Z * nat
}.

(** The connection stack [packet_connection_impl<reconnectable_connection<
    Connection>, PacketProtocol>]: each call may fail with an exception and
    leaves the connection in a new state. *)
Class Connection (C : Type) := {
  conn_connect : C → option exception * C;
  conn_send : bytes → C → option exception * C;
  conn_disconnect : C → C
}.

(** The template parameter [max_queued_events], the capacity of both
    queues. *)
Class QueueCapacity := max_queued_events : nat.

(** A [promise<std::string>] is a handle on the state it shares with its
    future.  [future.h] is absent, so what a resolution does to that state
    is not described here; the engine's calls on promises and on the
    connection are recorded, in order, in a trace. *)
Definition promise := nat.

Inductive event :=
| set_value (p : promise) (v : bytes)
| set_exception (p : promise) (e : exception)
| sent (data : bytes).

Record pending_request := {
  deadline : option Z;
  result : promise
}.

Section client_connection.
Context {C : Type} `{Connection C} `{Codec} `{QueueCapacity} `{SystemClock}.

(** The data members of [client_connection].  The two mutexes and the two
    threads are not state of this sequential model: every member function
    below runs as one step, as its [scoped_lock] makes it.  [next_promise]
    numbers the promises created so far and [trace] is the record of
    calls described above. *)
Record client_connection := {
  sequence_ : Z;
  ready_ : bool;
  connection_ : C;
  pending_ : flat_map Z pending_request;
  new_deadline_ : nat;
  cancelled_requests_ : list Z;
  next_promise : promise;
  trace : list event
}.

Definition with_sequence (n : Z) (st : client_connection) :=
  {| sequence_ := n; ready_ := ready_ st; connection_ := connection_ st;
     pending_ := pending_ st; new_deadline_ := new_deadline_ st;
     cancelled_requests_ := cancelled_requests_ st;
     next_promise := next_promise st; trace := trace st |}.
Definition with_ready (b : bool) (st : client_connection) :=
  {| sequence_ := sequence_ st; ready_ := b; connection_ := connection_ st;
     pending_ := pending_ st; new_deadline_ := new_deadline_ st;
     cancelled_requests_ := cancelled_requests_ st;
     next_promise := next_promise st; trace := trace st |}.
Definition with_connection (c : C) (st : client_connection) :=
  {| sequence_ := sequence_ st; ready_ := ready_ st; connection_ := c;
     pending_ := pending_ st; new_deadline_ := new_deadline_ st;
     cancelled_requests_ := cancelled_requests_ st;
     next_promise := next_promise st; trace := trace st |}.
Definition with_pending (m : flat_map Z pending_request)
    (st : client_connection) :=
  {| sequence_ := sequence_ st; ready_ := ready_ st;
     connection_ := connection_ st;
     pending_ := m; new_deadline_ := new_deadline_ st;
     cancelled_requests_ := cancelled_requests_ st;
     next_promise := next_promise st; trace := trace st |}.
Definition with_new_deadline (n : nat) (st : client_connection) :=
  {| sequence_ := sequence_ st; ready_ := ready_ st;
     connection_ := connection_ st;
     pending_ := pending_ st; new_deadline_ := n;
     cancelled_requests_ := cancelled_requests_ st;
     next_promise := next_promise st; trace := trace st |}.
Definition with_cancelled_requests (q : list Z) (st : client_connection) :=
  {| sequence_ := sequence_ st; ready_ := ready_ st;
     connection_ := connection_ st;
     pending_ := pending_ st; new_deadline_ := new_deadline_ st;
     cancelled_requests_ := q;
     next_promise := next_promise st; trace := trace st |}.
Definition with_next_promise (p : promise) (st : client_connection) :=
  {| sequence_ := sequence_ st; ready_ := ready_ st;
     connection_ := connection_ st;
     pending_ := pending_ st; new_deadline_ := new_deadline_ st;
     cancelled_requests_ := cancelled_requests_ st;
     next_promise := p; trace := trace st |}.
Definition with_trace (tr : list event) (st : client_connection) :=
  {| sequence_ := sequence_ st; ready_ := ready_ st;
     connection_ := connection_ st;
     pending_ := pending_ st; new_deadline_ := new_deadline_ st;
     cancelled_requests_ := cancelled_requests_ st;
     next_promise := next_promise st; trace := tr |}.

(** *** The monad of member functions: state and exceptions *)

Definition M (A : Type) : Type :=
  client_connection → (exception + A) * client_connection.

Definition ret {A} (a : A) : M A := λ st, (inr a, st).
Definition throw {A} (e : exception) : M A := λ st, (inl e, st).
Definition bind {A B} (m : M A) (k : A → M B) : M B :=
  λ st, match m st with
        | (inr a, st') => k a st'
        | (inl e, st') => (inl e, st')
        end.
(** [try { body } catch (...) { handler }]. *)
Definition try_catch {A} (body : M A) (handler : exception → M A) : M A :=
  λ st, match body st with
        | (inr a, st') => (inr a, st')
        | (inl e, st') => handler e st'
        end.
(** [try { body } catch (const E&) { handler }] for the class of kind
    [k]. *)
Definition try_catch_kind {A} (k : error_kind) (body : M A)
    (handler : exception → M A) : M A :=
  try_catch body (λ e, if decide (kind e = k) then handler e else throw e).
Definition gets {A} (f : client_connection → A) : M A := λ st, (inr (f st), st).
Definition modify (f : client_connection → client_connection) : M unit :=
  λ st, (inr tt, f st).
Definition emit (ev : event) : M unit :=
  modify (λ st, with_trace (trace st ++ [ev]) st).

#[local] Instance M_ret : MRet M := @ret.
#[local] Instance M_bind : MBind M := λ A B k m, bind m k.

(** *** Calls on the connection *)

Definition connect : M unit :=
  λ st, let '(r, c) := conn_connect (connection_ st) in
        (match r with Some e => inl e | None => inr tt end,
         with_connection c st).

Definition connection_send (data : bytes) : M unit :=
  λ st, let '(r, c) := conn_send data (connection_ st) in
        (match r with Some e => inl e | None => inr tt end,
         with_trace (trace st ++ [sent data]) (with_connection c st)).

Definition disconnect : M unit :=
  modify (λ st, with_connection (conn_disconnect (connection_ st)) st).

(** *** The queues

    Modelled from the spec: [arpc/queue.h] is absent; "[maybe_put] fails
    with [try_again] when full". *)
Definition cancelled_requests_maybe_put (req_id : Z) : M unit :=
  q ← gets cancelled_requests_;
  if bool_decide (length q < max_queued_events)%nat
  then modify (with_cancelled_requests (q ++ [req_id]))
  else throw (make try_again "Queue is full").

Definition new_deadline_maybe_put : M unit :=
  n ← gets new_deadline_;
  if bool_decide (n < max_queued_events)%nat
  then modify (with_new_deadline (S n))
  else throw (make try_again "Queue is full").

(** *** Member functions *)

(** [new_request_id()]: [return sequence_++] on a 32-bit unsigned
    counter. *)
Definition new_request_id : M Z :=
  id ← gets sequence_;
  modify (with_sequence ((id + 1) mod 2 ^ 32)) ;;
  ret id.

(** [*(it->second.deadline) < now]: a time point in milliseconds against a
    reading of the system clock, compared in the clock's duration, to
    which the millisecond count is converted in 64 bits. *)
Definition deadline_before (p : pending_request) (now : Z) : bool :=
  match deadline p with
  | Some t => to_ticks t <? now
  | None => false
  end.

(** An entry whose deadline is strictly earlier than [now], and the call
    that fails its promise. *)
Definition timed_out (now : Z) (kv : Z * pending_request) : Prop :=
  deadline_before kv.2 now.

#[global] Instance timed_out_dec now kv : Decision (timed_out now kv).
Proof. unfold timed_out. apply _. Defined.

Definition fail_timed_out (kv : Z * pending_request) : event :=
  set_exception (result kv.2) (make deadline_exceeded "Request timed out").

(** The loop of [gc()], on the map and the trace: [it] walks the array,
    an expired entry is failed and erased (and [it] then already points
    at the next one), any other is stepped over.  Each turn either erases
    or advances, so [size - it] turns suffice. *)
Fixpoint gc_loop (now : Z) (fuel it : nat)
    (s : flat_map Z pending_request * list event)
    : flat_map Z pending_request * list event :=
  match fuel with
  | O => s
  | S fuel' =>
      let '(m, tr) := s in
      if bool_decide (it ≠ end_ m) then
        match m !! it with
        | Some kv =>
            if deadline_before kv.2 now then
              let tr' := tr ++ [set_exception (result kv.2)
                                  (make deadline_exceeded "Request timed out")] in
              let '(it', m') := erase it m in
              gc_loop now fuel' it' (m', tr')
            else gc_loop now fuel' (S it) (m, tr)
        | None => s
        end
      else s
  end.

Definition gc (now : Z) : M unit :=
  modify (λ st,
    let '(m, tr) := gc_loop now (size (pending_ st)) (begin_ (pending_ st))
                      (pending_ st, trace st) in
    with_trace tr (with_pending m st)).

(** [abandon_request(req_id)]. *)
Definition abandon_request (req_id : Z) : M unit :=
  m ← gets pending_;
  let it := find req_id m in
  if bool_decide (it ≠ end_ m) then
    match m !! it with
    | Some kv =>
        emit (set_exception (result kv.2) (make cancelled "Request cancelled")) ;;
        modify (with_pending (erase it m).2)
    | None => ret tt
    end
  else ret tt.

(** [set_response(req_id, response)]. *)
Definition set_response (req_id : Z) (response : bytes) : M unit :=
  m ← gets pending_;
  let it := find req_id m in
  if bool_decide (it ≠ end_ m) then
    match m !! it with
    | Some kv =>
        emit (set_value (result kv.2) response) ;;
        modify (with_pending (erase it m).2)
    | None => ret tt
    end
  else ret tt.

(** [broadcast_exception(exc)]. *)
Definition broadcast_exception (exc : exception) : M unit :=
  m ← gets pending_;
  modify (λ st, with_trace
    (foldl (λ tr p, tr ++ [set_exception (result p.2) exc]) (trace st) m) st) ;;
  modify (with_pending (clear m)).

(** [send(data)]. *)
Definition send (data : bytes) : M unit :=
  try_catch
    (connect ;;
     connection_send data ;;
     modify (with_ready true))
    (λ e,
     modify (with_ready false) ;;
     disconnect ;;
     throw e).

(** [if (pending.deadline) { try { new_deadline_.maybe_put(); } catch
    (const errors::try_again&) {} }]. *)
Definition ring_doorbell (current_deadline : option Z) : M unit :=
  match current_deadline with
  | Some _ => try_catch_kind try_again new_deadline_maybe_put (λ _, ret tt)
  | None => ret tt
  end.

(** The first block of [send_request], under [pending_mu_]:
    [current_deadline] is [context::current().deadline()].  The subscript
    creates the entry, with a new promise, when [req_id] has none; the
    block yields the future of the entry's promise. *)
Definition register_pending (current_deadline : option Z) (req_id : Z)
    : M promise :=
  m ← gets pending_;
  fresh ← gets next_promise;
  let '((it, inserted), m1) :=
    insert (req_id, {| deadline := None; result := fresh |}) m in
  (if inserted then modify (with_next_promise (S fresh)) else ret tt) ;;
  let m2 := alter (λ kv, (kv.1, {| deadline := current_deadline;
                                    result := result kv.2 |})) it m1 in
  modify (with_pending m2) ;;
  let result_ := result (mapped {| deadline := None; result := fresh |} it m2) in
  ring_doorbell current_deadline ;;
  ret result_.

(** [send_request(req_id, request)]. *)
Definition send_request (current_deadline : option Z) (req_id : Z)
    (request : bytes) : M promise :=
  result_ ← register_pending current_deadline req_id;
  try_catch (send request)
    (λ e, abandon_request req_id ;; throw e) ;;
  ret result_.

(** [cancel_request(req_id)]. *)
Definition cancel_request (req_id : Z) : M unit :=
  abandon_request req_id ;;
  try_catch_kind try_again (cancelled_requests_maybe_put req_id) (λ _, ret tt).

(** The tail of [remote_object::call]: [result.get()] has returned or
    thrown [outcome]; a [cancelled] error makes the engine cancel the
    request before it is thrown on. *)
Definition call_get {R : Type} (req_id : Z) (outcome : exception + R)
    : M R :=
  try_catch_kind cancelled
    (match outcome with inr v => ret v | inl e => throw e end)
    (λ e, cancel_request req_id ;; throw e).

(** The body of the receiver's inner loop for one packet [response] read
    from the connection: [pos1] and [pos1 + pos2] are the positions of
    the input stream after the message type and after the request id, and
    [response.erase(0, response_is.pos())] drops the header read. *)
Definition receive_packet (response : bytes) : M unit :=
  match decode_message_type response with
  | inl e => throw e
  | inr (RESPONSE, pos1) =>
      match decode_request_id (drop pos1 response) with
      | inl e => throw e
      | inr (req_id, pos2) =>
          set_response req_id (drop (pos1 + pos2) response)
      end
  | inr (_, _) => throw (make data_mismatch "Received unknown message type")
  end.

(** The receiver's [catch (...)] block. *)
Definition receive_failed (exc : exception) : M unit :=
  modify (with_ready false) ;;
  disconnect ;;
  broadcast_exception exc.

(** [get_earliest_deadline()]. *)
Definition get_earliest_deadline : M (option Z) :=
  m ← gets pending_;
  ret (foldl (λ earliest p,
         match deadline p.2 with
         | Some d => match earliest with
                     | Some e => Some (Z.min e d)
                     | None => Some d
                     end
         | None => earliest
         end) None m).

(** The frame built for a cancelled request. *)
Definition cancel_frame (req_id : Z) : bytes :=
  encode_message_type CANCEL_REQUEST ++ encode_request_id req_id.

(** Which awaitable of the handler's [select] fired. *)
Inductive selected :=
| new_deadline_added
| cancelled_request
| time_to_do_gc.

(** One turn of [handle_timeouts_and_cancellations()] after [select] has
    returned: the doorbell and the queue of cancelled requests hand over
    their front element when their branch fires (modelled from the spec's
    bounded queue, [queue.h] being absent); [now] is the clock reading
    [gc()] takes. *)
Definition handle_selected (which : selected) (now : Z) : M unit :=
  match which with
  | new_deadline_added => modify (λ st, with_new_deadline (pred (new_deadline_ st)) st)
  | time_to_do_gc => gc now
  | cancelled_request =>
      q ← gets cancelled_requests_;
      match q with
      | [] => ret tt
      | req_id :: q' =>
          modify (with_cancelled_requests q') ;;
          try_catch (send (cancel_frame req_id)) (λ _, ret tt)
      end
  end.

(** Running a member function for its final state. *)
Definition exec {A} (m : M A) (st : client_connection) : client_connection :=
  (m st).2.

(** The promises resolved in a trace, in order. *)
Definition resolved (tr : list event) : list promise :=
  omap (λ ev, match ev with
              | set_value p _ | set_exception p _ => Some p
              | sent _ => None
              end) tr.

(** The frames handed to the connection in a trace, in order. *)
Definition frames (tr : list event) : list bytes :=
  omap (λ ev, match ev with sent d => Some d | _ => None end) tr.

(** [n] successive calls of [new_request_id()], and the ids they
    return. *)
Fixpoint allocate (n : nat) : M (list Z) :=
  match n with
  | O => ret []
  | S n' => id ← new_request_id; ids ← allocate n'; ret (id :: ids)
  end.

(** [n] turns of the handler in which the queue of cancelled requests
    fires. *)
Fixpoint drain (n : nat) (now : Z) : M unit :=
  match n with
  | O => ret tt
  | S n' => handle_selected cancelled_request now ;; drain n' now
  end.

(** The four member functions that resolve promises of pending
    requests. *)
Inductive resolving_op :=
| op_set_response (req_id : Z) (response : bytes)
| op_gc (now : Z)
| op_abandon_request (req_id : Z)
| op_broadcast_exception (exc : exception).

Definition run_op (o : resolving_op) : M unit :=
  match o with
  | op_set_response req_id response => set_response req_id response
  | op_gc now => gc now
  | op_abandon_request req_id => abandon_request req_id
  | op_broadcast_exception exc => broadcast_exception exc
  end.

Definition run_ops (os : list resolving_op) (st : client_connection)
    : client_connection :=
  foldl (λ s o, exec (run_op o) s) st os.

(** The entries an operation is aimed at: the one of its request id, the
    timed-out ones, or all. *)
Definition targets (o : resolving_op) (kv : Z * pending_request) : bool :=
  match o with
  | op_set_response req_id _ | op_abandon_request req_id =>
      bool_decide (kv.1 = req_id)
  | op_gc now => deadline_before kv.2 now
  | op_broadcast_exception _ => true
  end.

(** The promises held by the entries of a pending map. *)
Definition promises (m : flat_map Z pending_request) : list promise :=
  (λ kv, result kv.2) <$> m.

(** The state invariant the engine maintains: the pending array is
    sorted by request id, its entries hold distinct promises, and none of
    them has been resolved. *)
Definition pending_wf (st : client_connection) : Prop :=
  sorted (pending_ st)
  ∧ NoDup (promises (pending_ st) ++ resolved (trace st)).

(** Promises are numbered as they are created: those of the pending
    entries and those resolved so far lie below [next_promise]. *)
Definition engine_wf (st : client_connection) : Prop :=
  pending_wf st
  ∧ Forall (λ p, (p < next_promise st)%nat)
      (promises (pending_ st) ++ resolved (trace st)).

(** The send path raises [e] on connection [c]: opening the connection
    fails, or it opens and the write fails. *)
Definition send_raises (c : C) (data : bytes) (e : exception) : Prop :=
  (conn_connect c).1 = Some e
  ∨ ((conn_connect c).1 = None
     ∧ (conn_send data (conn_connect c).2).1 = Some e).

(** The promise [send_request] hands out for [req_id]: the one of the
    entry already pending under that id, else a new one. *)
Definition promise_for (req_id : Z) (st : client_connection) : promise :=
  match lookup_key req_id (pending_ st) with
  | Some q => result q
  | None => next_promise st
  end.

(** The receiver's [try] block: its loop handles the packets that
    [connection_.receive()] returns, one after the other, and goes on
    until a call raises; [closing] is what [receive()] raises once
    [packets] have been read. *)
Fixpoint receive_loop (packets : list bytes) (closing : exception) : M unit :=
  match packets with
  | [] => throw closing
  | response :: rest => receive_packet response ;; receive_loop rest closing
  end.

(** One turn of the outer loop of [receive()], once [ready_] is set. *)
Definition receive (packets : list bytes) (closing : exception) : M unit :=
  try_catch (receive_loop packets closing) receive_failed.

(** [remote_object::async_call]: a child [ctx] of the current context
    [parent] carries the timeout of the options, the request is the
    header followed by [body] (the object and method names, the
    signature hash, the context and the arguments as the encoder writes
    them), and [send_request] reads the deadline of [ctx], which is the
    current context by then.  [now] is the clock reading
    [set_timeout] takes. *)
Definition async_call {D : Type} `{Context.DynamicBase D}
    (request_timeout : option Z) (parent : Context.context D) (now : Z)
    (body : bytes) : M (promise * Z) :=
  let ctx := Context.new_context parent false in
  let ctx := match request_timeout with
             | Some timeout => Context.set_timeout timeout now ctx
             | None => ctx
             end in
  req_id ← new_request_id;
  let request :=
    encode_message_type REQUEST ++ encode_request_id req_id ++ body in
  response_future ← send_request (Context.deadline ctx) req_id request;
  ret (response_future, req_id).

(** The calls made on an engine: by its users ([new_request_id] and
    [send_request] from [async_call], [cancel_request]) and by its two
    threads (a turn of [receive] and a turn of the handler). *)
Inductive call :=
| call_new_request_id
| call_send_request (current_deadline : option Z) (req_id : Z)
    (request : bytes)
| call_cancel_request (req_id : Z)
| call_receive (packets : list bytes) (closing : exception)
| call_handle_selected (which : selected) (now : Z).

Definition run_call (c : call) : M unit :=
  match c with
  | call_new_request_id => new_request_id ;; ret tt
  | call_send_request current_deadline req_id request =>
      send_request current_deadline req_id request ;; ret tt
  | call_cancel_request req_id => cancel_request req_id
  | call_receive packets closing => receive packets closing
  | call_handle_selected which now => handle_selected which now
  end.

Definition run_calls (cs : list call) (st : client_connection)
    : client_connection :=
  foldl (λ s c, exec (run_call c) s) st cs.

End client_connection.

Arguments client_connection C : clear implicits.
Arguments M C : clear implicits.

End Client.

(** ** The metaprogramming toolkit ([arpc/mpt.h])

    The toolkit computes with sequences at compile time:
    [integer_sequence<T, ints...>], [value_pack<v...>] and [pack<T...>].
    A sequence is the list of its elements; a template that has no
    matching definition for its arguments, or whose [static_assert]
    fails, yields [None].  Integer sequences are taken at [T =
    std::size_t] (the [index_sequence] the toolkit itself builds), their
    elements being integers reduced modulo [2 ^ size_t_bits]. *)

Module Mpt.

(** The width of [std::size_t]. *)
Class SizeT := size_t_bits : Z.

Section mpt.
Context `{SizeT}.

Definition size_t_wrap (z : Z) : Z := z mod 2 ^ size_t_bits.

(** [detail::join_integer_sequences<Is, Js, adjust_values>]:
    [is..., ((adjust_values ? sizeof...(is) : 0) + js)...]. *)
Definition join_integer_sequences (is_ js : list Z) (adjust_values : bool)
    : list Z :=
  is_ ++ ((λ j, size_t_wrap
                  ((if adjust_values then Z.of_nat (length is_) else 0) + j))
          <$> js).

(** [detail::make_integer_sequence<T, n>]: the two halves joined, the
    second shifted by the size of the first. *)
Equations? make_integer_sequence (n : nat) : list Z by wf n lt :=
  make_integer_sequence 0 := [];
  make_integer_sequence 1 := [0];
  make_integer_sequence n :=
    join_integer_sequences (make_integer_sequence (n / 2))
      (make_integer_sequence (n - n / 2)) true.
Proof.
  - apply Nat.div_lt; lia.
  - assert (1 ≤ n / 2)%nat; [|lia].
    apply Nat.div_le_lower_bound; unfold n; lia.
Qed.

(** [detail::make_constant_integer_sequence<T, n, v>]. *)
Equations? make_constant_integer_sequence (n : nat) (v : Z) : list Z
    by wf n lt :=
  make_constant_integer_sequence 0 v := [];
  make_constant_integer_sequence 1 v := [v];
  make_constant_integer_sequence n v :=
    join_integer_sequences (make_constant_integer_sequence (n / 2) v)
      (make_constant_integer_sequence (n - n / 2) v) false.
Proof.
  - apply Nat.div_lt; lia.
  - assert (1 ≤ n / 2)%nat; [|lia].
    apply Nat.div_le_lower_bound; unfold n; lia.
Qed.

(** [integer_sequence::unary_op<O>] and [binary_op<U, O>]: the operator
    applied element by element.  The two packs of a binary operation are
    expanded together, which needs them to be of one size. *)
Definition unary_op (o : Z → Z) (a : list Z) : list Z := o <$> a.

Definition binary_op (o : Z → Z → Z) (a b : list Z) : option (list Z) :=
  if decide (length a = length b) then Some (zip_with o a b) else None.

(** The functor [plus] on two [std::size_t] operands. *)
Definition plus (v w : Z) : Z := size_t_wrap (v + w).

(** [size_v<T>], [at<i>(t)] and [subset(t, index_sequence<idxs...>)]. *)
Definition size {A : Type} (t : list A) : nat := length t.

Definition at_ {A : Type} (i : Z) (t : list A) : option A :=
  t !! Z.to_nat i.

Definition subset {A : Type} (t : list A) (idxs : list Z)
    : option (list A) :=
  mapM (λ i, at_ i t) idxs.

(** [range<begin, end>(t)]: [end - begin] is a subtraction of
    [std::size_t]. *)
Definition range {A : Type} (begin_ end_ : Z) (t : list A)
    : option (list A) :=
  let n := Z.to_nat (size_t_wrap (end_ - begin_)) in
  idxs ← binary_op plus (make_integer_sequence n)
            (make_constant_integer_sequence n begin_);
  subset t idxs.

(** [head(t)] and [tail(t)]. *)
Definition head {A : Type} (t : list A) : option A := at_ 0 t.

Definition tail {A : Type} (t : list A) : option (list A) :=
  range 1 (Z.of_nat (size t)) t.

(** [accumulate(a, t, o)]: [accumulate_helper<0>] returns [a], any other
    [accumulate_helper<n>] goes on with [o(a, head(t))] and [tail(t)].
    One instantiation per element and one for the empty rest: [fuel]
    counts them. *)
Fixpoint accumulate_helper {I A : Type} (fuel : nat) (a : I) (t : list A)
    (o : I → A → I) : option I :=
  match fuel with
  | O => None
  | S fuel' =>
      match size t with
      | O => Some a
      | S _ =>
          h ← head t;
          t' ← tail t;
          accumulate_helper fuel' (o a h) t' o
      end
  end.

Definition accumulate {I A : Type} (a : I) (t : list A) (o : I → A → I)
    : option I :=
  accumulate_helper (S (size t)) a t o.

(** [detail::integer_sequence_cat_helper<T1, TN...>] and
    [detail::value_pack_cat_helper<T1, TN...>], behind [cat(args...)]:
    the first sequence joined with the concatenation of the others. *)
Fixpoint integer_sequence_cat_helper (t1 : list Z) (tn : list (list Z))
    : list Z :=
  match tn with
  | [] => t1
  | t2 :: tn' =>
      join_integer_sequences t1 (integer_sequence_cat_helper t2 tn') false
  end.

Definition join_value_packs {A : Type} (v1 v2 : list A) : list A := v1 ++ v2.

Fixpoint value_pack_cat_helper {A : Type} (t1 : list A) (tn : list (list A))
    : list A :=
  match tn with
  | [] => t1
  | t2 :: tn' => join_value_packs t1 (value_pack_cat_helper t2 tn')
  end.

(** [index_if<index_sequence<idx...>, selected...>]: its four
    specialisations. *)
Fixpoint index_if (idxs : list Z) (selected : list bool)
    : option (list Z) :=
  match idxs, selected with
  | [], [] => Some []
  | [idx], [true] => Some [idx]
  | [idx], [false] => Some []
  | idx1 :: idx, selected1 :: sel =>
      rest ← index_if idx sel;
      Some (integer_sequence_cat_helper
              (if selected1 then [idx1] else []) [rest])
  | _, _ => None
  end.

(** [find_if<T, O>]: the indices [0 .. size - 1] filtered by
    [O{}(at<ints>(T{}))...]. *)
Definition find_if {A : Type} (o : A → bool) (t : list A)
    : option (list Z) :=
  let ints := make_integer_sequence (size t) in
  selected ← mapM (λ i, o <$> at_ i t) ints;
  index_if ints selected.

(** [find<T, O>]: both assertions, then [head(type{})]. *)
Definition find {A : Type} (o : A → bool) (t : list A) : option Z :=
  type ← find_if o t;
  if bool_decide (0 < size type)%nat && bool_decide (size type < 2)%nat
  then head type
  else None.

(** [filter_if<T, O>] and [count_if<T, O>]. *)
Definition filter_if {A : Type} (o : A → bool) (t : list A)
    : option (list A) :=
  idxs ← find_if o t; subset t idxs.

Definition count_if {A : Type} (o : A → bool) (t : list A) : option nat :=
  size <$> find_if o t.

(** [is_value<v>] (and [is_type<T>] on wrapped types): equality with the
    value, for elements of one type. *)
Definition is_value {A : Type} `{EqDecision A} (v : A) (w : A) : bool :=
  bool_decide (w = v).

(** [is_value_in<v, S>] and [insert_value_into<v, S>] (and their
    [_type_] twins). *)
Definition is_value_in {A : Type} `{EqDecision A} (v : A) (s : list A)
    : option bool :=
  (λ n, bool_decide (0 < n)%nat) <$> count_if (is_value v) s.

Definition insert_value_into {A : Type} `{EqDecision A} (v : A) (s : list A)
    : option (list A) :=
  present ← is_value_in v s;
  Some (if present : bool then s else value_pack_cat_helper s [[v]]).

(** [transform(v, f)]: [make_tuple(f(at<ints>(v))...)] over the indices
    of [v]. *)
Definition transform {A B : Type} (v : list A) (f : A → B)
    : option (list B) :=
  mapM (λ i, f <$> at_ i v) (make_integer_sequence (size v)).

(** [for_each(v, f)]: the calls [f(at<ints>(v))], folded left to right
    over a state [S] that stands for their effects. *)
Definition for_each {A S : Type} (v : list A) (f : A → S → S) (s : S)
    : option S :=
  foldl (λ acc i, s' ← acc; x ← at_ i v; Some (f x s')) (Some s)
    (make_integer_sequence (size v)).

(** Reference notions for the statements about the toolkit: the values
    of [std::size_t], the indices [index_if] keeps, and the positions of
    a sequence whose element satisfies [o]. *)
Definition in_range (l : list Z) : Prop :=
  Forall (λ v, 0 ≤ v < 2 ^ size_t_bits) l.

Fixpoint kept (idxs : list Z) (selected : list bool) : list Z :=
  match idxs, selected with
  | idx1 :: idx, selected1 :: sel =>
      (if selected1 then [idx1] else []) ++ kept idx sel
  | _, _ => []
  end.

Definition positions {A : Type} (o : A → bool) (t : list A) : list nat :=
  filter (λ i, from_option o false (t !! i)) (seq 0 (length t)).

End mpt.
End Mpt.

(** ** Field and class descriptions ([arpc/serializable_base.h]) *)

Module Serializable.
Import Mpt.

(** A class is known by its name, a data member by its class and its
    identifier; [field_descriptor<mptr>] is determined by the member
    [mptr] points to. *)
Definition class := string.

Record field_descriptor : Type := {
  class_type : class;
  member : string
}.

#[global] Instance field_descriptor_eq_dec : EqDecision field_descriptor.
Proof. solve_decision. Defined.

(** [ARPC_FIELD(NAME)] and [ARPC_FIELD_NAME(NAME)], for a member [NAME]
    that [own_type] itself declares. *)
Definition ARPC_FIELD (own_type : class) (NAME : string) : field_descriptor :=
  {| class_type := own_type; member := NAME |}.

Definition ARPC_FIELD_NAME (NAME : string) : string := NAME.

Section serializable.
Context `{SizeT}.

(** What [ARPC_FIELDS(...)] was given in each class. *)
Variable ARPC_FIELDS : class → list string.

(** The two members [ARPC_FIELDS(...)] defines in the class
    [own_type]. *)
Definition field_descriptors (own_type : class) : list field_descriptor :=
  ARPC_FIELD own_type <$> ARPC_FIELDS own_type.

Definition field_names (own_type : class) : list string :=
  ARPC_FIELD_NAME <$> ARPC_FIELDS own_type.

(** [field_descriptor<mptr>::name()]. *)
Definition name (d : field_descriptor) : option string :=
  i ← find (is_value d) (field_descriptors (class_type d));
  field_names (class_type d) !! Z.to_nat i.

(** Which classes [is_dynamic] holds of. *)
Variable is_dynamic : class → bool.

Definition dynamic_class_filter (T : class) : bool := is_dynamic T.

(** [detail::serializable_mixin<dynamic, OwnType, Bases...>]: the flag
    and the bases it inherits from; its [dynamic_base_classes]. *)
Record serializable_mixin : Type := {
  dynamic_flag : bool;
  own_type : class;
  base_classes : list class
}.

Definition dynamic_base_classes (m : serializable_mixin)
    : option (list class) :=
  filter_if dynamic_class_filter (base_classes m).

(** [serializable<OwnType, Bases...>] and [dynamic<OwnType, Bases...>]. *)
Definition serializable (OwnType : class) (Bases : list class)
    : option serializable_mixin :=
  n ← count_if dynamic_class_filter Bases;
  Some {| dynamic_flag := bool_decide (0 < n)%nat;
          own_type := OwnType;
          base_classes := Bases |}.

Definition dynamic_base_class : class := "dynamic_base_class".

Definition dynamic (OwnType : class) (Bases : list class)
    : option serializable_mixin :=
  n ← count_if dynamic_class_filter Bases;
  if bool_decide (0 < n)%nat
  then serializable OwnType Bases
  else serializable OwnType (dynamic_base_class :: Bases).

End serializable.
End Serializable.

(** ** Resolved addresses ([arpc/address.cc]) *)

Module Address.

(** An object is known by where it lives in memory; [nullptr] is the
    null pointer. *)
Definition pointer := Z.
Definition nullptr : pointer := 0.

(** [address], a [struct addrinfo]: its eight members. *)
Record address := {
  ai_flags : Z;
  ai_family : Z;
  ai_socktype : Z;
  ai_protocol : Z;
  ai_addrlen : Z;
  ai_addr : pointer;
  ai_canonname : pointer;
  ai_next : pointer
}.

(** The [address] objects in memory. *)
Definition store := gmap pointer address.

(** [address_list::iterator] (and [const_iterator]): the one member
    [ptr_].  Dereferencing a pointer at which no object lives has no
    defined outcome ([None]). *)
Abbreviation iterator := pointer.

Definition iterator_default : iterator := nullptr.
Definition iterator_deref (h : store) (it : iterator) : option address :=
  h !! it.
Definition iterator_incr (h : store) (it : iterator) : option iterator :=
  a ← h !! it; Some (ai_next a).
Definition iterator_eq (a b : iterator) : bool := bool_decide (a = b).
Definition iterator_ne (a b : iterator) : bool := bool_decide (a ≠ b).
Definition iterator_swap (a b : iterator) : iterator * iterator := (b, a).

(** [address_list]: the member [result_], a pointer to the first
    [address] of what [getaddrinfo] returned. *)
Abbreviation address_list := pointer.

Definition begin_ (l : address_list) : iterator := l.
Definition end_ (l : address_list) : iterator := nullptr.
Definition empty (l : address_list) : bool :=
  iterator_eq (begin_ l) (end_ l).

(** [std::distance(first, last)] on these forward iterators: [first] is
    incremented until it equals [last].  [fuel] bounds the number of
    increments. *)
Fixpoint distance (h : store) (fuel : nat) (first last : iterator)
    : option nat :=
  if iterator_eq first last then Some 0%nat
  else match fuel with
       | O => None
       | S fuel' =>
           next ← iterator_incr h first;
           S <$> distance h fuel' next last
       end.

Definition size (h : store) (fuel : nat) (l : address_list) : option nat :=
  distance h fuel (begin_ l) (end_ l).

(** [for (auto& a : list)]: the addresses [*it] from [begin()] until
    [it != end()] fails. *)
Fixpoint visit (h : store) (fuel : nat) (it last : iterator)
    : option (list address) :=
  if iterator_ne it last then
    match fuel with
    | O => None
    | S fuel' =>
        a ← iterator_deref h it;
        next ← iterator_incr h it;
        (a ::.) <$> visit h fuel' next last
    end
  else Some [].

(** What [getaddrinfo] leaves in memory: objects linked by [ai_next],
    the last one holding the null pointer. *)
Inductive chain (h : store) : pointer → list address → Prop :=
| chain_nil : chain h nullptr []
| chain_cons (p : pointer) (a : address) (l : list address) :
    p ≠ nullptr → h !! p = Some a → chain h (ai_next a) l →
    chain h p (a :: l).

(** [address::address()] and the copy constructor, for the object at
    [this]; [storage] is the [sockaddr_storage] that [new] returns and
    [sizeof_storage] its size.  (The bytes the copy constructor copies
    into the storage are not members of the object.) *)
Definition address_default (sizeof_storage : Z) (this storage : pointer)
    : address :=
  {| ai_flags := 0; ai_family := 0; ai_socktype := 0; ai_protocol := 0;
     ai_addrlen := sizeof_storage; ai_addr := storage;
     ai_canonname := nullptr; ai_next := this |}.

Definition address_copy (this storage : pointer) (other : address) : address :=
  {| ai_flags := ai_flags other; ai_family := ai_family other;
     ai_socktype := ai_socktype other; ai_protocol := ai_protocol other;
     ai_addrlen := ai_addrlen other; ai_addr := storage;
     ai_canonname := nullptr; ai_next := this |}.

(** The move constructor, for the object at [this] from the object
    [other] at [other_ptr]: the assertion, then the two swaps; it gives
    the new object and what is left of [other]. *)
Definition address_move (this other_ptr : pointer) (other : address)
    : option (address * address) :=
  if bool_decide (ai_next other = other_ptr) then
    Some ({| ai_flags := ai_flags other; ai_family := ai_family other;
             ai_socktype := ai_socktype other;
             ai_protocol := ai_protocol other;
             ai_addrlen := ai_addrlen other; ai_addr := ai_addr other;
             ai_canonname := nullptr; ai_next := this |},
          {| ai_flags := ai_flags other; ai_family := ai_family other;
             ai_socktype := ai_socktype other;
             ai_protocol := ai_protocol other;
             ai_addrlen := 0; ai_addr := nullptr;
             ai_canonname := ai_canonname other; ai_next := ai_next other |})
  else None.

(** [std::string::find(c)]: the position of the first [c], [npos]
    being [None]. *)
Fixpoint string_find (c : Ascii.ascii) (s : string) : option nat :=
  match s with
  | EmptyString => None
  | String c' s' =>
      if decide (c' = c) then Some 0%nat else S <$> string_find c s'
  end.

(** The character [':']. *)
Definition colon : Ascii.ascii := Ascii.ascii_of_nat 58.

(** [address::as_string()] where [getnameinfo] is at hand: [res],
    [hostbuf] and [portbuf] are what [getnameinfo] returns and writes,
    and the outcome is the string returned or the call of
    [throw_io_error] made. *)
Inductive as_string_outcome :=
| returned (s : string)
| throw_io_error (message : string) (res : Z).

Definition as_string (res : Z) (hostbuf portbuf : string)
    : as_string_outcome :=
  if bool_decide (res ≠ 0)
  then throw_io_error "Can't print address as string" res
  else
    let host := hostbuf in
    if bool_decide (string_find colon host ≠ None)
    then returned ("[" +:+ hostbuf +:+ "]:" +:+ portbuf)
    else returned (hostbuf +:+ ":" +:+ portbuf).

End Address.

(** ** Concrete instances of the template parameters

    Used to run the engine on concrete inputs. *)

Module Samples.
Import Errors Client.

(** Modelled from the spec: the little-endian codec of frame headers
    ([arpc/binary_codecs.h] and [arpc/message_defs.h] are absent): "kind:
    single byte tag", "request_id u32", "all multi-byte integers are
    little-endian".  The tags number the kinds in the order the spec lists
    them. *)
Definition byte_of_Z (z : Z) : Byte.byte :=
  default Byte.x00 (Byte.of_N (Z.to_N (z mod 256))).
Definition Z_of_byte (b : Byte.byte) : Z := Z.of_N (Byte.to_N b).

Definition le_encode (width : nat) (z : Z) : bytes :=
  (λ i : nat, byte_of_Z (Z.shiftr z (8 * Z.of_nat i))) <$> seq 0 width.
Definition le_decode (bs : bytes) : Z :=
  foldr (λ b acc, Z.lor (Z_of_byte b) (Z.shiftl acc 8)) 0 bs.

Definition tag_of (t : message_type) : Z :=
  match t with
  | REQUEST => 0
  | RESPONSE => 1
  | CANCEL_REQUEST => 2
  | other_message_type tag => tag
  end.
Definition of_tag (tag : Z) : message_type :=
  if tag =? 0 then REQUEST
  else if tag =? 1 then RESPONSE
  else if tag =? 2 then CANCEL_REQUEST
  else other_message_type tag.

Definition eof : exception := make io_error "End of file".

#[global] Instance little_endian : Codec := {|
  encode_message_type t := le_encode 1 (tag_of t);
  encode_request_id id := le_encode 4 id;
  decode_message_type bs :=
    match bs with
    | b :: _ => inr (of_tag (Z_of_byte b), 1%nat)
    | [] => inl eof
    end;
  decode_request_id bs :=
    if bool_decide (4 ≤ length bs)%nat
    then inr (le_decode (take 4 bs), 4%nat)
    else inl eof
|}.

(** Modelled from the spec: a reconnectable connection, "states
    {disconnected, connecting, connected}; connect() on a disconnected
    instance attempts to produce a channel; on success transitions to
    connected; on failure stays disconnected and reports the error;
    disconnect() closes the channel and returns to disconnected".  The
    network is scripted: each attempt to open the channel or to write
    takes its outcome from [script] ([None] is success; an exhausted
    script succeeds). *)
Record scripted := {
  connected : bool;
  script : list (option exception)
}.

Definition scripted_connect (c : scripted) : option exception * scripted :=
  if connected c then (None, c)
  else match script c with
       | Some e :: s => (Some e, {| connected := false; script := s |})
       | None :: s => (None, {| connected := true; script := s |})
       | [] => (None, {| connected := true; script := [] |})
       end.

Definition scripted_send (data : bytes) (c : scripted)
    : option exception * scripted :=
  match script c with
  | r :: s => (r, {| connected := connected c; script := s |})
  | [] => (None, c)
  end.

#[global] Instance scripted_connection : Connection scripted := {|
  conn_connect := scripted_connect;
  conn_send := scripted_send;
  conn_disconnect c := {| connected := false; script := script c |}
|}.

(** A system clock counting nanoseconds, and the default capacity of the
    queues. *)
#[global] Instance nanoseconds : SystemClock := 1000000.
#[global] Instance default_capacity : QueueCapacity := 256%nat.

(** A dynamic base whose objects are a class name and a number, and one
    class deriving from it. *)
Definition tagged := (string * Z)%type.
#[global] Instance tagged_base : Context.DynamicBase tagged := fst.

Definition trace_id := Z.
#[global] Instance trace_id_class : Context.DynamicClass tagged trace_id := {|
  Context.portable_class_name := "trace_id";
  Context.default_constructed := 0;
  Context.upcast v := ("trace_id"%string, v);
  Context.static_cast d := d.2
|}.

(** An engine that has issued three requests, 5, 6 and 7, of which the
    first two carry deadlines. *)
Definition busy (c : scripted) : client_connection scripted :=
  {| sequence_ := 8; ready_ := true; connection_ := c;
     pending_ := [ (5, {| deadline := Some 100; result := 0%nat |});
                   (6, {| deadline := Some 300; result := 1%nat |});
                   (7, {| deadline := None; result := 2%nat |}) ];
     new_deadline_ := 0; cancelled_requests_ := [];
     next_promise := 3%nat; trace := [] |}.

Definition online : scripted := {| connected := true; script := [] |}.

(** The engine as its constructor leaves it: [sequence_(0)], nothing
    pending, both queues empty. *)
Definition new_engine (c : scripted) : client_connection scripted :=
  {| sequence_ := 0; ready_ := false; connection_ := c;
     pending_ := []; new_deadline_ := 0; cancelled_requests_ := [];
     next_promise := 0%nat; trace := [] |}.

(** A connection that is down and whose next attempt to open fails with an
    I/O error. *)
Definition offline : scripted :=
  {| connected := false; script := [Some eof] |}.

(** [std::size_t] of the LP64 data model. *)
#[global] Instance lp64 : Mpt.SizeT := 64.

(** A class with three fields listed in [ARPC_FIELDS], and what
    [is_dynamic] holds of. *)
Definition point_fields (c : Serializable.class) : list string :=
  if decide (c = "point") then ["x"; "y"; "label"] else [].

Definition only_dynamic_base_class (c : Serializable.class) : bool :=
  bool_decide (c = Serializable.dynamic_base_class).

End Samples.

(** * Properties *)

(** ** The key orders are strict total orders *)

Lemma Z_less_strict_total : StrictTotalLess Z.
Proof.
  split; unfold less, Z_less; intros.
  - apply Z.ltb_irrefl.
  - apply Z.ltb_lt. apply Z.ltb_lt in H, H0. lia.
  - apply Z.ltb_ge in H, H0. lia.
Qed.
#[global] Existing Instance Z_less_strict_total.

Lemma string_ltb_lt (a b : string) :
  String.ltb a b = true ↔ OrderedTypeEx.String_as_OT.lt a b.
Proof.
  rewrite <- OrderedTypeEx.String_as_OT.cmp_lt.
  unfold String.ltb, OrderedTypeEx.String_as_OT.cmp.
  destruct (String.compare a b); split; congruence.
Qed.

Lemma string_less_strict_total : StrictTotalLess string.
Proof.
  split; unfold less, string_less; intros.
  - destruct (String.ltb a a) eqn:E; [|done].
    apply string_ltb_lt in E.
    by apply OrderedTypeEx.String_as_OT.lt_not_eq in E.
  - apply string_ltb_lt. apply string_ltb_lt in H, H0.
    eapply OrderedTypeEx.String_as_OT.lt_trans; eauto.
  - unfold String.ltb in *. rewrite String.compare_antisym in H0.
    destruct (String.compare a b) eqn:E; simpl in *; try done.
    by apply String.compare_eq_iff.
Qed.
#[global] Existing Instance string_less_strict_total.

(** ** The sorted keyed map *)

Module FlatMapFacts.
Import FlatMap.

Section search.
Context {A : Type} (p : A → bool) (a : list A).

Lemma split_at_unique n n' : split_at p a n → split_at p a n' → n = n'.
Proof.
  intros (Hn & Ht & Hf) (Hn' & Ht' & Hf').
  destruct (decide (n < n')%nat) as [Hlt|Hge].
  - destruct (lookup_lt_is_Some_2 a n) as [x Hx]; [lia|].
    specialize (Ht' _ _ Hlt Hx). specialize (Hf n x (le_n _) Hx). congruence.
  - destruct (decide (n' < n)%nat) as [Hlt|Hge']; [|lia].
    destruct (lookup_lt_is_Some_2 a n') as [x Hx]; [lia|].
    specialize (Ht _ _ Hlt Hx). specialize (Hf' n' x (le_n _) Hx). congruence.
Qed.

(** The halving loop narrows a range that brackets the split point. *)
Lemma search_loop_split (n fuel first count : nat) :
  split_at p a n →
  (count ≤ fuel)%nat → (first ≤ n)%nat → (n ≤ first + count)%nat →
  (first + count ≤ length a)%nat →
  search_loop p a fuel first count = n.
Proof.
  intros (Hn & Ht & Hf).
  revert first count. induction fuel as [|fuel IH]; intros first count Hc H1 H2 H3.
  - simpl. lia.
  - cbn [search_loop]. destruct (Nat.eqb_spec count 0) as [-> |Hne]; [lia|].
    assert (count / 2 < count)%nat as Hstep by (apply Nat.div_lt; lia).
    destruct (lookup_lt_is_Some_2 a (first + count / 2)) as [x Hx]; [lia|].
    rewrite Hx. destruct (p x) eqn:Hp.
    + apply IH; try lia.
      destruct (decide (first + count / 2 < n)%nat); [lia|].
      specialize (Hf (first + count / 2)%nat x). rewrite Hf in Hp; [done|lia|done].
    + apply IH; try lia.
      destruct (decide (n ≤ first + count / 2)%nat); [lia|].
      specialize (Ht (first + count / 2)%nat x). rewrite Ht in Hp; [done|lia|done].
Qed.

(** The left-to-right scan stops at the split point. *)
Lemma scan_split (n : nat) : split_at p a n → scan p a = n.
Proof.
  unfold split_at. revert n. induction a as [|x a' IH]; intros n (Hn & Ht & Hf).
  - simpl in *. lia.
  - simpl. destruct (p x) eqn:Hp.
    + destruct n as [|n]; [by rewrite (Hf 0%nat x) in Hp by (done || lia)|].
      f_equal. apply IH. split_and!.
      * simpl in Hn. lia.
      * intros i y Hi Hy. apply (Ht (S i)); [lia|done].
      * intros i y Hi Hy. apply (Hf (S i)); [lia|done].
    + destruct n as [|n]; [done|].
      by rewrite (Ht 0%nat x) in Hp by (done || lia).
Qed.

Lemma search_loop_scan (n : nat) :
  split_at p a n → search_loop p a (length a) 0 (length a) = scan p a.
Proof.
  intros Hs. rewrite (scan_split n Hs).
  destruct Hs as (Hn & ?). apply search_loop_split; [done|lia..].
Qed.
End search.

Section facts.
Context {K V : Type} `{StrictTotalLess K}.
Implicit Types (m : flat_map K V) (k : K) (v : V).

Lemma less_asym k k' : less k k' = true → less k' k = false.
Proof.
  intros Hlt. destruct (less k' k) eqn:E; [|done].
  pose proof (less_trans _ _ _ Hlt E) as Hkk. by rewrite less_irrefl in Hkk.
Qed.

Lemma sorted_lookup_lt m i j x y :
  sorted m → (i < j)%nat → m !! i = Some x → m !! j = Some y →
  less x.1 y.1 = true.
Proof.
  intros Hs. revert i j. induction Hs as [|z m' Hs IH Hall]; intros i j Hij Hi Hj.
  - done.
  - destruct i as [|i], j as [|j]; try lia; simpl in *.
    + injection Hi as ->. rewrite Forall_lookup in Hall. by apply (Hall j).
    + apply (IH i j); [lia|done..].
Qed.

Lemma sorted_lookup_inj m i j x y :
  sorted m → m !! i = Some x → m !! j = Some y → x.1 = y.1 → i = j.
Proof.
  intros Hs Hi Hj Heq.
  destruct (lt_eq_lt_dec i j) as [[Hlt| ->]|Hlt]; [|done|].
  - pose proof (sorted_lookup_lt _ _ _ _ _ Hs Hlt Hi Hj) as Hl.
    rewrite Heq, less_irrefl in Hl. done.
  - pose proof (sorted_lookup_lt _ _ _ _ _ Hs Hlt Hj Hi) as Hl.
    rewrite Heq, less_irrefl in Hl. done.
Qed.

Lemma sorted_keys_NoDup m : sorted m → NoDup (keys m).
Proof.
  intros Hs. apply NoDup_alt. intros i j k Hi Hj. unfold keys in *.
  rewrite list_lookup_fmap in Hi, Hj.
  destruct (m !! i) as [x|] eqn:Ex; simplify_eq/=.
  destruct (m !! j) as [y|] eqn:Ey; simplify_eq/=.
  eapply sorted_lookup_inj; eauto.
Qed.

(** In a sorted array both search predicates have a split point. *)
Lemma lower_split m k :
  sorted m → ∃ n, split_at (λ kv : K * V, less kv.1 k) m n.
Proof.
  intros Hs. induction Hs as [|x m' Hs [n (Hn & Ht & Hf)] Hall].
  - exists 0%nat. split_and!; [done|intros; lia|by intros [|?] ?].
  - destruct (less x.1 k) eqn:Hx.
    + exists (S n). split_and!; [simpl; lia|..].
      * intros [|i] y Hi Hy; simpl in *; [by simplify_eq|].
        apply (Ht i); [lia|done].
      * intros [|i] y Hi Hy; simpl in *; [lia|]. apply (Hf i); [lia|done].
    + exists 0%nat. split_and!; [simpl; lia|intros; lia|].
      intros [|i] y _ Hy; simpl in *; [by simplify_eq|].
      rewrite Forall_lookup in Hall. specialize (Hall _ _ Hy).
      destruct (less y.1 k) eqn:Hy'; [|done].
      by rewrite (less_trans _ _ _ Hall Hy') in Hx.
Qed.

Lemma upper_split m k :
  sorted m → ∃ n, split_at (λ kv : K * V, negb (less k kv.1)) m n.
Proof.
  intros Hs. induction Hs as [|x m' Hs [n (Hn & Ht & Hf)] Hall].
  - exists 0%nat. split_and!; [done|intros; lia|by intros [|?] ?].
  - destruct (less k x.1) eqn:Hx.
    + exists 0%nat. split_and!; [simpl; lia|intros; lia|].
      intros [|i] y _ Hy; simpl in *; [simplify_eq; by rewrite Hx|].
      rewrite Forall_lookup in Hall. specialize (Hall _ _ Hy).
      by rewrite (less_trans _ _ _ Hx Hall).
    + exists (S n). split_and!; [simpl; lia|..].
      * intros [|i] y Hi Hy; simpl in *; [simplify_eq; by rewrite Hx|].
        apply (Ht i); [lia|done].
      * intros [|i] y Hi Hy; simpl in *; [lia|]. apply (Hf i); [lia|done].
Qed.

(** The binary searches agree with the reference scans. *)
Lemma lower_bound_ref m k : sorted m → lower_bound k m = ref_lower_bound k m.
Proof.
  intros Hs. destruct (lower_split m k Hs) as [n Hn].
  by apply (search_loop_scan _ _ n).
Qed.

Lemma upper_bound_ref m k : sorted m → upper_bound k m = ref_upper_bound k m.
Proof.
  intros Hs. destruct (upper_split m k Hs) as [n Hn].
  by apply (search_loop_scan _ _ n).
Qed.

Lemma lower_bound_split m k :
  sorted m → split_at (λ kv : K * V, less kv.1 k) m (lower_bound k m).
Proof.
  intros Hs. destruct (lower_split m k Hs) as [n Hn].
  unfold lower_bound.
  rewrite (search_loop_split _ _ n _ _ _ Hn); [done|lia|lia|destruct Hn; lia|lia].
Qed.

(** [find] returns the position of the key when the array holds it ... *)
Lemma find_lookup m i k v :
  sorted m → m !! i = Some (k, v) → find k m = i.
Proof.
  intros Hs Hi. destruct (lower_bound_split m k Hs) as (Hn & Ht & Hf).
  pose proof (lookup_lt_Some _ _ _ Hi) as Hilt.
  assert (lower_bound k m = i) as Hlb.
  { destruct (lt_eq_lt_dec (lower_bound k m) i) as [[Hlt|Heq]|Hlt]; [|done|].
    - destruct (lookup_lt_is_Some_2 m (lower_bound k m)) as [y Hy]; [lia|].
      pose proof (sorted_lookup_lt _ _ _ _ _ Hs Hlt Hy Hi) as Hl. simpl in Hl.
      by rewrite (Hf _ y (le_n _) Hy) in Hl.
    - specialize (Ht _ _ Hlt Hi). simpl in Ht. by rewrite less_irrefl in Ht. }
  unfold find. rewrite Hlb, Hi. simpl. by rewrite less_irrefl.
Qed.

(** ... and [end()] when it does not. *)
Lemma find_end m k : sorted m → k ∉ keys m → find k m = end_ m.
Proof.
  intros Hs Hk. destruct (lower_bound_split m k Hs) as (Hn & Ht & Hf).
  unfold find. destruct (m !! lower_bound k m) as [y|] eqn:Hy; [|done].
  destruct (less k y.1) eqn:Hl; [done|]. exfalso. apply Hk.
  rewrite (less_connected k y.1 Hl (Hf _ y (le_n _) Hy)).
  unfold keys. apply list_elem_of_fmap. exists y. split; [done|].
  by eapply list_elem_of_lookup_2.
Qed.

Lemma find_inv m k :
  sorted m → find k m ≠ end_ m → ∃ v, m !! find k m = Some (k, v).
Proof.
  intros Hs. destruct (lower_bound_split m k Hs) as (Hn & Ht & Hf).
  unfold find. destruct (m !! lower_bound k m) as [[k' v]|] eqn:Hy; [|done].
  simpl. destruct (less k k') eqn:Hl; [done|]. intros _. exists v.
  rewrite Hy. do 2 f_equal. symmetry.
  apply (less_connected k k' Hl (Hf _ _ (le_n _) Hy)).
Qed.

Lemma find_le_end m k : (find k m ≤ end_ m)%nat.
Proof.
  unfold find, end_. destruct (m !! lower_bound k m) as [y|] eqn:Hy; [|done].
  destruct (less k y.1); [done|]. apply lookup_lt_Some in Hy. lia.
Qed.

Lemma elem_of_keys m k : k ∈ keys m ↔ ∃ i v, m !! i = Some (k, v).
Proof.
  unfold keys. rewrite list_elem_of_fmap. split.
  - intros ([k' v] & -> & Hin). apply list_elem_of_lookup_1 in Hin as [i Hi].
    by exists i, v.
  - intros (i & v & Hi). exists (k, v). split; [done|].
    by eapply list_elem_of_lookup_2.
Qed.

Lemma lookup_key_Some m k v :
  sorted m → lookup_key k m = Some v ↔ (k, v) ∈ m.
Proof.
  intros Hs. unfold lookup_key. split.
  - intros Hl. destruct (m !! find k m) as [[k' v']|] eqn:Hf; simplify_eq/=.
    destruct (find_inv m k Hs) as [v'' Hv].
    { apply lookup_lt_Some in Hf. unfold end_. lia. }
    rewrite Hv in Hf. simplify_eq. by eapply list_elem_of_lookup_2.
  - intros Hin. apply list_elem_of_lookup_1 in Hin as [i Hi].
    by rewrite (find_lookup _ _ _ _ Hs Hi), Hi.
Qed.

Lemma lookup_key_None m k : sorted m → lookup_key k m = None ↔ k ∉ keys m.
Proof.
  intros Hs. unfold lookup_key. split.
  - intros Hl Hin. apply elem_of_keys in Hin as (i & v & Hi).
    by rewrite (find_lookup _ _ _ _ Hs Hi), Hi in Hl.
  - intros Hk. rewrite (find_end _ _ Hs Hk).
    by rewrite (lookup_ge_None_2 m (end_ m)).
Qed.

(** Erasing keeps the array sorted. *)
Lemma sorted_delete m i : sorted m → sorted (delete i m).
Proof.
  unfold sorted. intros Hs. rewrite delete_take_drop.
  rewrite <- (take_drop i m) in Hs at 1.
  apply StronglySorted_app in Hs as (Hc & H1 & H2).
  apply StronglySorted_app. split_and!; [|done|].
  - intros x y Hx Hy. apply Hc; [done|].
    rewrite <- (take_drop 1 (drop i m)), drop_drop.
    apply elem_of_app. right. by rewrite Nat.add_1_r.
  - rewrite <- (take_drop 1 (drop i m)), drop_drop, Nat.add_1_r in H2.
    by apply StronglySorted_app in H2 as (_ & _ & ?).
Qed.

Lemma filter_all {A} (P : A → Prop) `{∀ x, Decision (P x)} (l : list A) :
  Forall P l → filter P l = l.
Proof.
  induction 1 as [|x l Hx Hl IH]; [done|].
  by rewrite filter_cons_True, IH.
Qed.

(** Erasing the entry of a key removes that key and nothing else. *)
Lemma delete_filter `{EqDecision K} m i k v :
  sorted m → m !! i = Some (k, v) →
  delete i m = filter (λ kv, kv.1 ≠ k) m.
Proof.
  intros Hs Hi. rewrite delete_take_drop.
  rewrite <- (take_drop_middle m i (k, v) Hi) at 3.
  rewrite filter_app, filter_cons_False by (simpl; auto).
  rewrite !filter_all; [done|..].
  - apply Forall_lookup. intros j y Hj Heq. rewrite lookup_drop in Hj.
    assert (i = S i + j)%nat; [|lia].
    eapply (sorted_lookup_inj m); eauto.
  - apply Forall_lookup. intros j y Hj Heq.
    pose proof (lookup_lt_Some _ _ _ Hj) as Hlt. rewrite length_take in Hlt.
    rewrite lookup_take_lt in Hj by lia.
    assert (i = j); [|lia]. eapply (sorted_lookup_inj m); eauto.
Qed.

(** [insert] leaves a map that holds the key untouched and reports
    [false] ... *)
Lemma insert_present m k v v' :
  sorted m → (k, v) ∈ m → insert (k, v') m = ((find k m, false), m).
Proof.
  intros Hs Hin. apply list_elem_of_lookup_1 in Hin as [i Hi].
  pose proof (find_lookup _ _ _ _ Hs Hi) as Hfind.
  unfold insert. simpl. unfold find in Hfind.
  destruct (m !! lower_bound k m) as [y|] eqn:Hy.
  - destruct (less k y.1) eqn:Hl.
    + unfold end_ in Hfind. apply lookup_lt_Some in Hi. lia.
    + unfold find. by rewrite Hy, Hl.
  - unfold end_ in Hfind. apply lookup_lt_Some in Hi. lia.
Qed.

(** ... and otherwise places the pair at the lower bound, which keeps
    the keys strictly increasing. *)
Lemma insert_absent m k v :
  sorted m → k ∉ keys m →
  insert (k, v) m
  = ((lower_bound k m, true), insert_at (lower_bound k m) (k, v) m).
Proof.
  intros Hs Hk. destruct (lower_bound_split m k Hs) as (Hn & Ht & Hf).
  unfold insert. simpl.
  destruct (m !! lower_bound k m) as [y|] eqn:Hy; [|done].
  destruct (less k y.1) eqn:Hl; [done|]. exfalso. apply Hk.
  apply elem_of_keys. exists (lower_bound k m), y.2.
  rewrite Hy. f_equal. destruct y as [k' v']. f_equal. simpl in *. symmetry.
  apply (less_connected k k' Hl (Hf _ _ (le_n _) Hy)).
Qed.

Lemma sorted_insert_at m k v :
  sorted m → k ∉ keys m → sorted (insert_at (lower_bound k m) (k, v) m).
Proof.
  intros Hs Hk. destruct (lower_bound_split m k Hs) as (Hn & Ht & Hf).
  unfold sorted, insert_at in *.
  pose proof Hs as Hs'. rewrite <- (take_drop (lower_bound k m) m) in Hs'.
  apply StronglySorted_app in Hs' as (Hc & H1 & H2).
  assert (Forall (key_lt (k, v)) (drop (lower_bound k m) m)) as Hdrop.
  { apply Forall_lookup. intros j y Hj. rewrite lookup_drop in Hj.
    unfold key_lt. simpl. destruct (less k y.1) eqn:Hl; [done|].
    exfalso. apply Hk. apply elem_of_keys. exists (lower_bound k m + j)%nat, y.2.
    rewrite Hj. f_equal. destruct y as [k' v']. f_equal. simpl in *. symmetry.
    apply (less_connected k k' Hl). apply (Hf (lower_bound k m + j)%nat (k', v')); [lia|done]. }
  apply StronglySorted_app. split_and!; [|done|by constructor].
  intros x y Hx Hy. apply elem_of_cons in Hy as [->|Hy]; [|by apply Hc].
  apply list_elem_of_lookup_1 in Hx as [j Hj].
  pose proof (lookup_lt_Some _ _ _ Hj) as Hlt. rewrite length_take in Hlt.
  rewrite lookup_take_lt in Hj by lia.
  unfold key_lt. simpl. apply (Ht j); [lia|done].
Qed.

Lemma sorted_insert m x : sorted m → sorted (insert x m).2.
Proof.
  intros Hs. destruct x as [k v].
  destruct (decide (find k m = end_ m)) as [He|Hne].
  - assert (k ∉ keys m) as Hout.
    { intros (i & v' & Hi)%elem_of_keys.
      rewrite (find_lookup _ _ _ _ Hs Hi) in He.
      apply lookup_lt_Some in Hi. unfold end_ in He. lia. }
    rewrite (insert_absent m k v Hs Hout). simpl. by apply sorted_insert_at.
  - destruct (find_inv m k Hs Hne) as [v' Hv].
    rewrite (insert_present m k v' v Hs); [done|by eapply list_elem_of_lookup_2].
Qed.

Lemma sorted_insert_range xs m : sorted m → sorted (insert_range xs m).
Proof.
  revert m. induction xs as [|x xs IH]; intros m Hs; [done|].
  simpl. apply IH. by apply sorted_insert.
Qed.

Lemma sorted_of_list xs : sorted (of_list (V:=V) xs).
Proof. apply sorted_insert_range. constructor. Qed.

Lemma lookup_insert_at m n x :
  (n ≤ length m)%nat → insert_at n x m !! n = Some x.
Proof.
  intros Hn. unfold insert_at.
  rewrite lookup_app_r; rewrite length_take; [|lia].
  by replace (n - n `min` length m)%nat with 0%nat by lia.
Qed.

(** Sortedness only depends on the sequence of keys. *)
Lemma sorted_keys m :
  sorted m ↔ StronglySorted (λ a b : K, less a b = true) (keys m).
Proof.
  unfold sorted, keys. split.
  - apply StronglySorted_fmap. by intros x y.
  - induction m as [|x m IH]; [constructor|]. csimpl.
    intros (Hall & Hs)%StronglySorted_cons. constructor; [by apply IH|].
    by rewrite Forall_fmap in Hall.
Qed.

Lemma keys_alter (f : K * V → K * V) m i :
  (∀ kv, (f kv).1 = kv.1) → keys (alter f i m) = keys m.
Proof.
  intros Hf. unfold keys. rewrite (list_fmap_alter fst f id).
  - by apply list_alter_id.
  - apply Forall_forall. intros kv _. apply Hf.
Qed.

Lemma sorted_alter (f : K * V → K * V) m i :
  (∀ kv, (f kv).1 = kv.1) → sorted m → sorted (alter f i m).
Proof. intros Hf. by rewrite !sorted_keys, keys_alter. Qed.

Lemma alter_insert_at (f : K * V → K * V) m n x :
  (n ≤ length m)%nat → alter f n (insert_at n x m) = insert_at n (f x) m.
Proof.
  intros Hn. unfold insert_at.
  rewrite alter_app_r_alt; rewrite length_take; [|lia].
  by replace (n - n `min` length m)%nat with 0%nat by lia.
Qed.

Lemma delete_insert_at m n x :
  (n ≤ length m)%nat → delete n (insert_at n x m) = m.
Proof.
  intros Hn. unfold insert_at.
  rewrite <- (length_take_le m n Hn) at 1.
  by rewrite delete_middle, take_drop.
Qed.

Lemma delete_alter {A} (f : A → A) (l : list A) i :
  delete i (alter f i l) = delete i l.
Proof. revert i. induction l as [|x l IH]; intros [|i]; f_equal/=; auto. Qed.

Lemma insert_at_end m x : insert_at (length m) x m = m ++ [x].
Proof. unfold insert_at. by rewrite take_ge, drop_ge. Qed.

(** A key greater than all keys of the map has its lower bound at
    [end()]. *)
Lemma lower_bound_snoc m k v :
  sorted (m ++ [(k, v)]) → lower_bound k m = length m ∧ k ∉ keys m.
Proof.
  intros Hs. apply StronglySorted_app in Hs as (Hc & Hs & _).
  assert (∀ y, y ∈ m → less y.1 k = true) as Hlt.
  { intros y Hy. apply (Hc y (k, v) Hy). by apply list_elem_of_singleton. }
  split.
  - apply (split_at_unique (λ kv : K * V, less kv.1 k) m);
      [by apply lower_bound_split|].
    split_and!; [done|..].
    + intros i x _ Hx. apply Hlt. by eapply list_elem_of_lookup_2.
    + intros i x Hi Hx. apply lookup_lt_Some in Hx. lia.
  - intros (i & v' & Hi)%elem_of_keys.
    specialize (Hlt (k, v') (list_elem_of_lookup_2 _ _ _ Hi)). simpl in Hlt.
    by rewrite less_irrefl in Hlt.
Qed.
End facts.
End FlatMapFacts.

(** ** The sorted keyed map: insertion, subscript and bounds *)

Section flat_map_properties.
Import FlatMap FlatMapFacts.
Context {K V : Type} `{Less K}.

(** [operator[]] on a key the map holds: the mapped value, and the map
    stays as it is. *)
Lemma subscript_present `{!StrictTotalLess K} (dflt : V) (m : flat_map K V) k v :
  sorted m → (k, v) ∈ m →
  subscript dflt k m = (find k m, m) ∧ mapped dflt (find k m) m = v.
Proof.
  intros Hs Hin. unfold subscript. rewrite (insert_present m k v dflt Hs Hin).
  split; [done|]. apply list_elem_of_lookup_1 in Hin as [i Hi].
  unfold mapped. by rewrite (find_lookup _ _ _ _ Hs Hi), Hi.
Qed.

(** [operator[]] on a key the map lacks: a default-constructed value. *)
Lemma subscript_absent `{!StrictTotalLess K} (dflt : V) (m : flat_map K V) k :
  sorted m → k ∉ keys m →
  mapped dflt (subscript dflt k m).1 (subscript dflt k m).2 = dflt.
Proof.
  intros Hs Hk. unfold subscript. rewrite (insert_absent m k dflt Hs Hk). simpl.
  unfold mapped. rewrite lookup_insert_at; [done|].
  by destruct (lower_bound_split m k Hs).
Qed.

(** The two outcomes of [insert]. *)
Lemma insert_cases `{!StrictTotalLess K} (m : flat_map K V) k v :
  sorted m →
  (∃ v0, (k, v0) ∈ m ∧ insert (k, v) m = ((find k m, false), m))
  ∨ ((k ∉ keys m)
     ∧ insert (k, v) m
       = ((lower_bound k m, true), insert_at (lower_bound k m) (k, v) m)).
Proof.
  intros Hs. destruct (decide (find k m = end_ m)) as [He|Hne].
  - right. assert (k ∉ keys m) as Hout.
    { intros (i & v' & Hi)%elem_of_keys.
      rewrite (find_lookup _ _ _ _ Hs Hi) in He.
      apply lookup_lt_Some in Hi. unfold end_ in He. lia. }
    split; [done|]. by apply insert_absent.
  - left. destruct (find_inv m k Hs Hne) as [v0 Hv0].
    apply list_elem_of_lookup_2 in Hv0. exists v0. split; [done|].
    by apply (insert_present m k v0 v).
Qed.

Lemma elem_of_insert_at (m : flat_map K V) (n : nat) (x kv : K * V) :
  kv ∈ insert_at n x m ↔ kv = x ∨ kv ∈ m.
Proof.
  unfold insert_at. rewrite elem_of_app, elem_of_cons.
  rewrite <- (take_drop n m) at 3. rewrite elem_of_app. tauto.
Qed.

Lemma length_insert_at (m : flat_map K V) (n : nat) (x : K * V) :
  length (insert_at n x m) = S (length m).
Proof.
  unfold insert_at. rewrite length_app. simpl.
  rewrite <- (take_drop n m) at 3. rewrite length_app. lia.
Qed.

Lemma keys_insert `{!StrictTotalLess K} (m : flat_map K V) x k :
  sorted m → k ∈ keys (insert x m).2 ↔ k = x.1 ∨ k ∈ keys m.
Proof.
  intros Hs. destruct x as [k' v].
  destruct (insert_cases m k' v Hs) as [(v0 & Hin & ->)|[Hout ->]]; simpl.
  - split; [by right|]. intros [->|?]; [|done].
    apply list_elem_of_fmap. by exists (k', v0).
  - unfold keys. rewrite !list_elem_of_fmap. split.
    + intros (kv & -> & [->|Hin]%elem_of_insert_at); [by left|].
      right. by exists kv.
    + intros [->|(kv & -> & Hin)].
      * exists (k', v). split; [done|]. apply elem_of_insert_at. by left.
      * exists kv. split; [done|]. apply elem_of_insert_at. by right.
Qed.

Lemma keys_insert_range `{!StrictTotalLess K} xs (m : flat_map K V) k :
  sorted m → k ∈ keys (insert_range xs m) ↔ k ∈ keys m ∨ k ∈ xs.*1.
Proof.
  revert m. induction xs as [|x xs IH]; intros m Hs.
  - simpl. split; [by left|]. by intros [?|?%elem_of_nil].
  - unfold insert_range in *. simpl.
    rewrite IH by (by apply sorted_insert).
    rewrite keys_insert, elem_of_cons by done. tauto.
Qed.

(** C9.  Whatever pairs are inserted, one after the other, into an empty
    [flat_map]: the keys of the resulting array are strictly increasing in
    iteration order, hence unique, and they are the keys of the pairs
    inserted; inserting a pair whose key is present reports [false] and
    leaves the map unchanged, inserting one whose key is absent reports
    [true] and adds the pair, at the position returned, to the pairs of
    the map, which stays sorted; [operator[]] yields the position of the
    mapped value of a present key, leaving the map as it is, and for an
    absent key adds the key with a default-constructed value and yields
    the position of that value; and [lower_bound], [upper_bound] and
    [equal_range] return the positions of the reference left-to-right
    scans. *)
Theorem flat_map_insertions `{!StrictTotalLess K} (dflt : V)
    (xs : list (K * V)) :
  let m := of_list xs in
  sorted m
  ∧ NoDup (keys m)
  ∧ (∀ k, k ∈ keys m ↔ k ∈ xs.*1)
  ∧ (∀ k v v', (k, v) ∈ m → insert (k, v') m = ((find k m, false), m))
  ∧ (∀ k v, k ∉ keys m →
       ∃ it m', insert (k, v) m = ((it, true), m')
         ∧ m' !! it = Some (k, v)
         ∧ sorted m'
         ∧ length m' = S (length m)
         ∧ ∀ kv, kv ∈ m' ↔ kv = (k, v) ∨ kv ∈ m)
  ∧ (∀ k v, (k, v) ∈ m →
       subscript dflt k m = (find k m, m)
       ∧ m !! find k m = Some (k, v)
       ∧ (subscript dflt k m).2 = m
       ∧ mapped dflt (subscript dflt k m).1 (subscript dflt k m).2 = v)
  ∧ (∀ k, k ∉ keys m →
       ∃ it m', subscript dflt k m = (it, m')
         ∧ m' !! it = Some (k, dflt)
         ∧ sorted m'
         ∧ length m' = S (length m)
         ∧ (∀ kv, kv ∈ m' ↔ kv = (k, dflt) ∨ kv ∈ m)
         ∧ mapped dflt (subscript dflt k m).1 (subscript dflt k m).2 = dflt)
  ∧ (∀ k, lower_bound k m = ref_lower_bound k m
          ∧ upper_bound k m = ref_upper_bound k m
          ∧ equal_range k m = ref_equal_range k m).
Proof.
  intros m. assert (sorted m) as Hs by apply sorted_of_list.
  assert (∀ k v, k ∉ keys m →
            insert (k, v) m
            = ((lower_bound k m, true), insert_at (lower_bound k m) (k, v) m)
            ∧ insert_at (lower_bound k m) (k, v) m !! lower_bound k m
              = Some (k, v)
            ∧ sorted (insert_at (lower_bound k m) (k, v) m)) as Habsent.
  { intros k v Hk. split_and!.
    - by apply insert_absent.
    - apply lookup_insert_at. by destruct (lower_bound_split m k Hs).
    - by apply sorted_insert_at. }
  split_and!.
  - done.
  - by apply sorted_keys_NoDup.
  - intros k. unfold m, of_list. rewrite keys_insert_range by constructor.
    split; [by intros [?%elem_of_nil|?]|by right].
  - intros k v v' Hin. by apply (insert_present m k v v').
  - intros k v Hk. destruct (Habsent k v Hk) as (Hins & Hit & Hs').
    eexists _, _. split; [exact Hins|].
    split_and!; [done|done|apply length_insert_at|].
    intros kv. apply elem_of_insert_at.
  - intros k v Hin.
    destruct (subscript_present dflt m k v Hs Hin) as [Hsub Hv].
    rewrite Hsub. split_and!; [done| |done|done].
    apply list_elem_of_lookup_1 in Hin as [i Hi].
    by rewrite (find_lookup _ _ _ _ Hs Hi).
  - intros k Hk. destruct (Habsent k dflt Hk) as (Hins & Hit & Hs').
    eexists _, _. split; [by unfold subscript; rewrite Hins|].
    split_and!; [done|done|apply length_insert_at| |by apply subscript_absent].
    intros kv. apply elem_of_insert_at.
  - intros k. unfold equal_range, ref_equal_range.
    by rewrite lower_bound_ref, upper_bound_ref.
Qed.
End flat_map_properties.

(** The expectations of [flat_map_test.cpp] on its maps [s1], [s2] and
    [s3]. *)
Example flat_map_test_items :
  FlatMap.of_list (K:=Z) (V:=Z) [] = []
  ∧ FlatMap.of_list [(4, 1); (3, 2)] = [(3, 2); (4, 1)]
  ∧ FlatMap.of_list [(3, 2); (4, 1); (3, 3)] = [(3, 2); (4, 1)].
Proof. by split_and!. Qed.

Example flat_map_test_find :
  let s2 := FlatMap.of_list [(4, 1); (3, 2)] in
  FlatMap.find 1 s2 = FlatMap.end_ s2
  ∧ FlatMap.find 3 s2 = FlatMap.begin_ s2
  ∧ s2 !! FlatMap.find 4 s2 = Some (4, 1).
Proof. by split_and!. Qed.

Example flat_map_test_insert :
  let s1 := FlatMap.of_list (K:=Z) (V:=Z) [] in
  let s2 := FlatMap.of_list [(4, 1); (3, 2)] in
  let s3 := FlatMap.of_list [(3, 2); (4, 1); (3, 3)] in
  FlatMap.insert (3, 3) s1 = ((0%nat, true), [(3, 3)])
  ∧ FlatMap.insert (4, 5) s2 = ((1%nat, false), [(3, 2); (4, 1)])
  ∧ FlatMap.insert (5, 6) s3 = ((2%nat, true), [(3, 2); (4, 1); (5, 6)]).
Proof. by split_and!. Qed.

Example flat_map_test_erase :
  let s2 := FlatMap.of_list [(4, 1); (3, 2)] in
  let s3 := FlatMap.of_list [(3, 2); (4, 1); (3, 3)] in
  FlatMap.erase_key 4 s2 = (1%nat, [(3, 2)])
  ∧ FlatMap.erase_key 5 s3 = (0%nat, [(3, 2); (4, 1)])
  ∧ FlatMap.erase 1 s3 = (1%nat, [(3, 2)]).
Proof. by split_and!. Qed.

Example flat_map_test_bounds :
  let s1 := FlatMap.of_list (K:=Z) (V:=Z) [] in
  let s3 := FlatMap.of_list [(3, 2); (4, 1); (3, 3)] in
  FlatMap.lower_bound 3 s1 = FlatMap.end_ s1
  ∧ (FlatMap.lower_bound 3 s3, FlatMap.lower_bound 4 s3,
     FlatMap.lower_bound 5 s3) = (0, 1, 2)%nat
  ∧ (FlatMap.upper_bound 3 s3, FlatMap.upper_bound 4 s3) = (1, 2)%nat
  ∧ FlatMap.equal_range 3 s3 = (0, 1)%nat
  ∧ FlatMap.equal_range 4 s3 = (1, 2)%nat
  ∧ (FlatMap.count 3 s1, FlatMap.count 3 s3) = (0, 1)%nat.
Proof. by split_and!. Qed.

Example flat_map_test_subscript :
  let s1 := FlatMap.of_list (K:=Z) (V:=Z) [] in
  let s3 := FlatMap.of_list [(3, 2); (4, 1); (3, 3)] in
  FlatMap.mapped 0 (FlatMap.subscript 0 3 s1).1 (FlatMap.subscript 0 3 s1).2 = 0
  ∧ FlatMap.mapped 0 (FlatMap.subscript 0 4 s3).1 (FlatMap.subscript 0 4 s3).2
    = 1.
Proof. by split_and!. Qed.

(** The map [s3{{3, 2}, {4, 1}, {3, 3}}] of the test suite, with [int]
    keys. *)
Lemma int_map_example :
  let m := FlatMap.of_list [(3, 2); (4, 1); (3, 3)] in
  m = [(3, 2); (4, 1)]
  ∧ FlatMap.sorted m
  ∧ FlatMap.insert (4, 5) m = ((1%nat, false), m)
  ∧ FlatMap.insert (5, 6) m = ((2%nat, true), [(3, 2); (4, 1); (5, 6)])
  ∧ FlatMap.subscript 0 4 m = (1%nat, m)
  ∧ FlatMap.subscript 0 7 m = (2%nat, [(3, 2); (4, 1); (7, 0)])
  ∧ FlatMap.mapped 0 (FlatMap.subscript 0 4 m).1 (FlatMap.subscript 0 4 m).2 = 1
  ∧ FlatMap.mapped 0 (FlatMap.subscript 0 7 m).1 (FlatMap.subscript 0 7 m).2 = 0
  ∧ FlatMap.equal_range 4 m = FlatMap.ref_equal_range 4 m.
Proof.
  pose proof (flat_map_insertions (K:=Z) 0 [(3, 2); (4, 1); (3, 3)])
    as (Hs & _ & _ & _ & _ & _ & _ & Hb).
  split_and!; [reflexivity|exact Hs|reflexivity..|].
  apply (Hb 4).
Defined.

(** ** Awaitables: [deadline] *)

Section chrono_facts.
Import Awaitable.

Lemma wrap64_fits (z : Z) : - 2 ^ 63 ≤ z < 2 ^ 63 → wrap64 z = z.
Proof. intros Hz. unfold wrap64. rewrite Z.mod_small; lia. Qed.

Lemma to_ticks_fits `{SystemClock} (ms : Z) :
  fits_ticks ms → to_ticks ms = ms * ticks_per_ms.
Proof. apply wrap64_fits. Qed.

(** The conversion factor to a period that divides the source period is a
    whole number. *)
Lemma ratio_divide_multiple (a b q : Z) :
  0 < b →
  ratio_divide {| num := a; den := b |} {| num := 1; den := b * q |}
  = {| num := a * q; den := 1 |}.
Proof.
  intros Hb. unfold ratio_divide. cbn [num den].
  replace (a * (b * q)) with (b * (a * q)) by lia.
  rewrite Z.gcd_mul_mono_l_nonneg by lia.
  assert (Z.gcd (a * q) 1 = 1) as -> by apply Z.gcd_1_r.
  rewrite !Z.mul_1_r. f_equal.
  - rewrite Z.mul_comm. apply Z.div_mul. lia.
  - apply Z.div_same. lia.
Qed.

Lemma ratio_divide_milli (c : Z) :
  0 < c →
  ratio_divide {| num := 1; den := 1000 * c |} milli = {| num := 1; den := c |}.
Proof.
  intros Hc. unfold ratio_divide, milli. cbn [num den].
  rewrite (Z.mul_1_r (1000 * c)).
  replace (1 * 1000) with (1000 * 1) by lia.
  rewrite Z.gcd_mul_mono_l_nonneg by lia.
  assert (Z.gcd 1 c = 1) as -> by apply Z.gcd_1_l.
  rewrite !Z.mul_1_r. f_equal.
  rewrite Z.mul_comm. apply Z.div_mul. lia.
Qed.

Lemma duration_cast_multiply (from to_ : ratio) (f count : Z) :
  ratio_divide from to_ = {| num := f; den := 1 |} →
  - 2 ^ 63 ≤ count * f < 2 ^ 63 →
  duration_cast from to_ count = count * f.
Proof.
  intros Hcf Hfit. unfold duration_cast. rewrite Hcf. simpl.
  case_bool_decide as Hf; [subst f; lia|]. by apply wrap64_fits.
Qed.

Lemma duration_cast_divide (from to_ : ratio) (c count : Z) :
  ratio_divide from to_ = {| num := 1; den := c |} →
  duration_cast from to_ count = Z.quot count c.
Proof.
  intros Hcf. unfold duration_cast. rewrite Hcf. simpl.
  case_bool_decide as Hc; [|done]. subst c. by rewrite Z.quot_1_r.
Qed.

End chrono_facts.

Section awaitable_properties.
Import Awaitable.
Context `{SystemClock}.


(** The value of [deadline] when no conversion wraps: [cd] is the number
    of ticks of the common duration in a second. *)
Lemma deadline_in_range (period : ratio) (when now : Z) :
  0 < ticks_per_ms → 0 < den period →
  let cd := Z.lcm (den period) (1000 * ticks_per_ms) in
  let w := when * (num period * (cd / den period)) in
  let n := now * (cd / (1000 * ticks_per_ms)) in
  - 2 ^ 63 ≤ w < 2 ^ 63 → - 2 ^ 63 ≤ n < 2 ^ 63 →
  - 2 ^ 63 ≤ w - n < 2 ^ 63 →
  0 < cd / 1000
  ∧ deadline period when now
    = of_timeout (Z.max 0 (Z.quot (w - n) (cd / 1000))) false.
Proof.
  intros Hpos Hden cd w n Hw Hn Hd.
  destruct (Z.divide_lcm_l (den period) (1000 * ticks_per_ms)) as [q1 Hq1].
  destruct (Z.divide_lcm_r (den period) (1000 * ticks_per_ms)) as [q2 Hq2].
  fold cd in Hq1, Hq2.
  assert (0 < cd) as Hcd.
  { pose proof (Z.lcm_nonneg (den period) (1000 * ticks_per_ms)).
    assert (cd ≠ 0); [|lia]. unfold cd. rewrite Z.lcm_eq_0. lia. }
  assert (cd / den period = q1) as Hd1 by (rewrite Hq1; apply Z.div_mul; lia).
  assert (cd / (1000 * ticks_per_ms) = q2) as Hd2
    by (rewrite Hq2; apply Z.div_mul; lia).
  assert (cd / 1000 = ticks_per_ms * q2) as Hd3.
  { rewrite Hq2. replace (q2 * (1000 * ticks_per_ms))
      with (ticks_per_ms * q2 * 1000) by lia. apply Z.div_mul. lia. }
  assert (0 < q2) by nia.
  split; [nia|].
  assert (common_period period system_clock_period
          = {| num := 1; den := cd |}) as Hcommon.
  { unfold common_period, system_clock_period. simpl.
    by rewrite Z.gcd_1_r. }
  unfold deadline, time_until. rewrite Hcommon.
  rewrite (duration_cast_multiply period _ (num period * q1) when).
  - rewrite (duration_cast_multiply system_clock_period _ q2 now).
    + rewrite wrap64_fits by (subst w n; rewrite Hd1, Hd2 in Hd; lia).
      rewrite (duration_cast_divide _ milli (ticks_per_ms * q2)).
      * subst w n. by rewrite Hd1, Hd2, Hd3.
      * replace cd with (1000 * (ticks_per_ms * q2)) by lia.
        apply ratio_divide_milli. nia.
    + unfold system_clock_period.
      replace cd with (1000 * ticks_per_ms * q2) by lia.
      replace q2 with (1 * q2) at 2 by lia.
      apply ratio_divide_multiple. lia.
    + subst n. rewrite Hd2 in Hn. lia.
  - destruct period as [a b]. simpl in *.
    replace cd with (b * q1) by lia. by apply ratio_divide_multiple.
  - subst w. rewrite Hd1 in Hw. lia.
Qed.

(** For a time point in milliseconds the common duration is the
    clock's. *)
Lemma milli_common :
  0 < ticks_per_ms →
  let cd := Z.lcm (den milli) (1000 * ticks_per_ms) in
  cd / den milli = ticks_per_ms
  ∧ cd / (1000 * ticks_per_ms) = 1
  ∧ cd / 1000 = ticks_per_ms.
Proof.
  intros Hpos cd. subst cd. simpl.
  assert (Z.lcm 1000 (1000 * ticks_per_ms) = 1000 * ticks_per_ms) as ->.
  { apply Z.divide_lcm_eq_r; [lia|]. exists ticks_per_ms. lia. }
  rewrite Z.div_same by lia.
  rewrite (Z.mul_comm 1000), Z.div_mul by lia. done.
Qed.

Lemma deadline_milli_in_range (when now : Z) :
  0 < ticks_per_ms →
  fits_ticks when → - 2 ^ 63 ≤ now < 2 ^ 63 →
  - 2 ^ 63 ≤ when * ticks_per_ms - now < 2 ^ 63 →
  deadline milli when now
  = of_timeout (Z.max 0 (Z.quot (when * ticks_per_ms - now) ticks_per_ms))
      false.
Proof.
  intros Hpos Hw Hn Hd. unfold fits_ticks in Hw.
  destruct (milli_common Hpos) as (H1 & H2 & H3).
  destruct (deadline_in_range milli when now Hpos) as [_ ->].
  - done.
  - rewrite H1. simpl. lia.
  - rewrite H2. lia.
  - rewrite H1, H2. simpl. lia.
  - rewrite H1, H2, H3. simpl. do 3 f_equal. lia.
Qed.


End awaitable_properties.



(** ** Contexts: [get], [save] and [load] *)

Section context_properties.
Import FlatMap FlatMapFacts Context.
Context {D : Type} `{DynamicBase D}.
Implicit Types (c : context D) (m : flat_map string D).

(** Storing a value under a name that sorts after every name of the map
    appends it. *)
Lemma assign_snoc m k v :
  sorted (m ++ [(k, v)]) → assign k v m = m ++ [(k, v)].
Proof.
  intros Hs. destruct (lower_bound_snoc m k v Hs) as [Hlb Hk].
  assert (sorted m) as Hm by by apply StronglySorted_app_1_l in Hs.
  unfold assign, subscript. rewrite (insert_absent m k v Hm Hk), Hlb.
  by rewrite alter_insert_at, insert_at_end.
Qed.

Lemma set_data_fields vs c :
  parent_ (set_data vs c) = parent_ c
  ∧ cancelled_ (set_data vs c) = cancelled_ c
  ∧ deadline_ (set_data vs c) = deadline_ c.
Proof.
  revert c. induction vs as [|v vs IH]; intros c; [done|].
  simpl. by destruct (IH (set_one v c)) as (-> & -> & ->).
Qed.

(** Installing the values of a sorted, well-keyed array, in order, on
    top of a map holding the names before them rebuilds the array. *)
Lemma set_data_append l m c :
  data_ c = m → sorted (m ++ l) → keyed l →
  data_ (set_data l.*2 c) = m ++ l.
Proof.
  revert m c. induction l as [|[k v] l IH]; intros m c Hc Hs Hk.
  - by rewrite app_nil_r.
  - apply Forall_cons in Hk as [Hkv Hk]. simpl in Hkv. csimpl.
    change ((k, v) :: l) with ([(k, v)] ++ l) in Hs.
    rewrite app_assoc in Hs.
    rewrite (IH (m ++ [(k, v)])); [by rewrite <- app_assoc|..|done|done].
    unfold set_one. simpl. rewrite Hc, <- Hkv. apply assign_snoc.
    by apply StronglySorted_app_1_l in Hs.
Qed.

Lemma deadline_eq c c' :
  parent_ c' = parent_ c → deadline_ c' = deadline_ c →
  deadline c' = deadline c.
Proof. destruct c, c'; simpl; by intros -> ->. Qed.

Lemma any_cancelled_eq c c' :
  parent_ c' = parent_ c → cancelled_ c' = cancelled_ c →
  any_cancelled c' = any_cancelled c.
Proof. destruct c, c'; simpl; by intros -> ->. Qed.

Lemma deadline_set_deadline c t :
  deadline c = None → deadline (set_deadline t c) = Some t.
Proof.
  destruct c as [p f dl dt]. simpl.
  destruct dl as [x|]; simpl.
  - destruct (match p with Some p' => deadline p' | None => None end); done.
  - by intros ->.
Qed.

(** [set_one] keeps the invariants of the data map, so they hold in every
    context built from the root by [set_one] and [set_data]. *)
Lemma assign_cases m k v :
  sorted m →
  (∃ i v', m !! i = Some (k, v')
           ∧ assign k v m = alter (λ kv, (kv.1, v)) i m)
  ∨ ((k ∉ keys m)
     ∧ assign k v m = insert_at (lower_bound k m) (k, v) m).
Proof.
  intros Hs. unfold assign, subscript.
  destruct (decide (find k m = end_ m)) as [He|Hne].
  - right. assert (k ∉ keys m) as Hout.
    { intros (i & v' & Hi)%elem_of_keys.
      rewrite (find_lookup _ _ _ _ Hs Hi) in He.
      apply lookup_lt_Some in Hi. unfold end_ in He. lia. }
    rewrite (insert_absent m k v Hs Hout).
    destruct (lower_bound_split m k Hs) as (Hn & _).
    by rewrite alter_insert_at.
  - left. destruct (find_inv m k Hs Hne) as [v' Hv].
    rewrite (insert_present m k v' v Hs) by by eapply list_elem_of_lookup_2.
    by exists (find k m), v'.
Qed.

Lemma set_one_invariants v c :
  sorted (data_ c) → keyed (data_ c) →
  sorted (data_ (set_one v c)) ∧ keyed (data_ (set_one v c)).
Proof.
  intros Hs Hk. unfold set_one. simpl.
  destruct (assign_cases (data_ c) (portable_class_name_of v) v Hs)
    as [(i & v' & Hi & ->)|(Hout & ->)].
  - split; [by apply sorted_alter|].
    apply Forall_alter; [done|]. intros x Hx _. by simplify_eq.
  - split; [by apply sorted_insert_at|].
    unfold keyed, insert_at. apply Forall_app. split.
    + by apply Forall_take.
    + apply Forall_cons. split; [done|]. by apply Forall_drop.
Qed.

Lemma set_data_invariants vs c :
  sorted (data_ c) → keyed (data_ c) →
  sorted (data_ (set_data vs c)) ∧ keyed (data_ (set_data vs c)).
Proof.
  revert c. induction vs as [|v vs IH]; intros c Hs Hk; [done|].
  simpl. destruct (set_one_invariants v c Hs Hk). by apply IH.
Qed.

(** C8.  For every dynamic class [T]: when the context's data map holds a
    value under [T]'s portable class name, [get<T>()] returns that stored
    value (viewed as a [T]); when it holds none, [get<T>()] returns the
    default-constructed instance of [T]; either way the context, and so its
    data map, is the one [get] was called on. *)
Theorem context_get (T : Type) `{!DynamicClass D T} c :
  sorted (data_ c) →
  (∀ v, (portable_class_name T, v) ∈ data_ c →
        get T c = (static_cast v, c))
  ∧ (portable_class_name T ∉ keys (data_ c) →
        get T c = (default_constructed T, c))
  ∧ data_ (get T c).2 = data_ c.
Proof.
  intros Hs. split_and!.
  - intros v Hin. apply list_elem_of_lookup_1 in Hin as [i Hi].
    unfold get. rewrite (find_lookup _ _ _ _ Hs Hi), Hi.
    rewrite bool_decide_true; [done|].
    apply lookup_lt_Some in Hi. unfold end_. lia.
  - intros Hout. unfold get. rewrite (find_end _ _ Hs Hout).
    by rewrite bool_decide_false by auto.
  - unfold get. case_bool_decide; [|done]. by destruct (data_ c !! _).
Qed.

(** C6.  [save] writes exactly three items: the optional remaining
    duration until the deadline, the list of keyed values, the cancelled
    flag.  Loading them into a fresh context succeeds and yields a context
    whose remaining duration (read at the time of loading) is the
    serialized one, absent when that was absent; whose values are the
    serialized values; and which is cancelled exactly when the flag was
    set. *)
Theorem context_save_load (src dst : context D) (now1 now2 now' : Z) :
  sorted (data_ src) → keyed (data_ src) → now1 ≤ now2 → fresh dst →
  save src now1 now2
    = [ item_duration (deadline_left src now1);
        item_values (data src);
        item_bool (is_cancelled src now2) ]
  ∧ ∃ c', load (save src now1 now2) now' dst = Some (c', [])
      ∧ deadline_left c' now' = deadline_left src now1
      ∧ data c' = data src
      ∧ is_cancelled c' now' = is_cancelled src now2.
Proof.
  intros Hs Hk Hnow (Hd & Hc & Hdata). split; [done|].
  unfold save, load. eexists. split; [done|].
  set (c1 := match deadline_left src now1 with
             | Some d => set_timeout d now' dst
             | None => dst
             end).
  set (c2 := set_data (data src) c1).
  assert (parent_ c1 = parent_ dst ∧ cancelled_ c1 = cancelled_ dst
          ∧ data_ c1 = []) as (Hp1 & Hc1 & Hd1).
  { unfold c1. by destruct (deadline_left src now1). }
  destruct (set_data_fields (data src) c1) as (Hp2 & Hc2 & Hd2).
  fold c2 in Hp2, Hc2, Hd2.
  assert (data_ c2 = data_ src) as Hdata2.
  { unfold c2, data.
    exact (set_data_append (data_ src) [] c1 Hd1 Hs Hk). }
  assert (deadline_left c2 now' = deadline_left src now1) as Hleft.
  { unfold deadline_left at 1.
    rewrite (deadline_eq c1 c2 Hp2 Hd2). unfold c1.
    destruct (deadline_left src now1) as [d|] eqn:Hl.
    - unfold set_timeout. rewrite (deadline_set_deadline _ _ Hd). simpl.
      f_equal. lia.
    - by rewrite Hd. }
  assert (any_cancelled c2 = false) as Hany.
  { rewrite (any_cancelled_eq c1 c2 Hp2 Hc2).
    by rewrite (any_cancelled_eq dst c1 Hp1 Hc1). }
  assert (deadline_passed c2 now' = true → is_cancelled src now2 = true)
    as Hpassed.
  { unfold deadline_left in Hleft. unfold is_cancelled, deadline_passed.
    destruct (deadline c2) as [t'|]; [|done].
    destruct (deadline src) as [t|]; simplify_eq/=.
    intros Ht%Z.ltb_lt.
    assert ((t <? now2) = true) as -> by (apply Z.ltb_lt; lia).
    apply orb_true_r. }
  destruct (is_cancelled src now2) eqn:Hflag.
  - split_and!.
    + rewrite <- Hleft. unfold deadline_left.
      by rewrite (deadline_eq c2 (cancel c2)).
    + unfold data. simpl. by rewrite Hdata2.
    + unfold is_cancelled, cancel. by destruct c2.
  - split_and!; [done|unfold data; by rewrite Hdata2|].
    unfold is_cancelled. rewrite Hany. simpl.
    destruct (deadline_passed c2 now'); [by rewrite Hpassed|done].
Qed.
End context_properties.

(** A context holding a trace id and a deadline is saved at time 1100 and
    loaded into a new child of the root at time 5000. *)
Lemma trace_id_round_trip_example :
  let src := Context.set_timeout 250 1000
               (Context.set_one ("trace_id"%string, 7) Context.root) in
  let dst := Context.new_context (D:=Samples.tagged) Context.root false in
  ∃ c', Context.load (Context.save src 1100 1101) 5000 dst = Some (c', [])
        ∧ Context.deadline_left c' 5000 = Some 150
        ∧ Context.data c' = [("trace_id"%string, 7)]
        ∧ Context.is_cancelled c' 5000 = false.
Proof.
  intros src dst.
  destruct (context_save_load src dst 1100 1101 5000)
    as (_ & c' & Hload & Hleft & Hdata & Hcanc).
  - repeat constructor.
  - repeat constructor.
  - lia.
  - repeat split.
  - exists c'. split_and!; [exact Hload|exact Hleft|exact Hdata|exact Hcanc].
Defined.

Lemma trace_id_get_example :
  let c := Context.set_one ("trace_id"%string, 42) Context.root in
  Context.get Samples.trace_id c = (42, c)
  ∧ Context.get Samples.trace_id (Context.root (D:=Samples.tagged))
    = (0, Context.root).
Proof.
  intros c. split.
  - destruct (context_get (D:=Samples.tagged) Samples.trace_id c) as (Hp & _).
    + repeat constructor.
    + apply (Hp ("trace_id"%string, 42)). apply list_elem_of_here.
  - destruct (context_get (D:=Samples.tagged) Samples.trace_id Context.root)
      as (_ & Ha & _).
    + constructor.
    + apply Ha. apply not_elem_of_nil.
Defined.

(** ** The client engine *)

Module ClientFacts.
Import FlatMap FlatMapFacts Errors Client.

Ltac unfold_M :=
  unfold mbind, M_bind, bind, mret, M_ret, ret, gets, modify, emit, throw,
    try_catch_kind, try_catch, exec in *.

Section facts.
Context {C : Type} `{Connection C} `{Codec} `{QueueCapacity} `{SystemClock}.
Implicit Types (st : client_connection C) (m : flat_map Z pending_request).

Lemma take_delete {A} (l : list A) i :
  (i ≤ length l)%nat → take i (delete i l) = take i l.
Proof.
  intros Hi. rewrite delete_take_drop.
  by rewrite take_app_length' by (by rewrite length_take_le).
Qed.

Lemma drop_delete {A} (l : list A) i :
  (i ≤ length l)%nat → drop i (delete i l) = drop (S i) l.
Proof.
  intros Hi. rewrite delete_take_drop.
  by rewrite drop_app_length' by (by rewrite length_take_le).
Qed.

(** The loop of [gc()], started at [it] with enough turns left, keeps the
    entries before [it], drops the timed-out entries from [it] on and
    fails their promises in order. *)
Lemma gc_loop_filter now fuel it m tr :
  (it ≤ length m)%nat → (length m - it ≤ fuel)%nat →
  gc_loop now fuel it (m, tr)
  = (take it m ++ filter (λ kv, ¬ timed_out now kv) (drop it m),
     tr ++ (fail_timed_out <$> filter (timed_out now) (drop it m))).
Proof.
  revert it m tr. induction fuel as [|fuel IH]; intros it m tr Hit Hfuel.
  - simpl. rewrite drop_ge, take_ge by lia. simpl. by rewrite !app_nil_r.
  - cbn [gc_loop]. unfold end_. case_bool_decide as Hend.
    + destruct (lookup_lt_is_Some_2 m it) as [kv Hkv]; [lia|].
      rewrite Hkv. rewrite (drop_S _ _ _ Hkv).
      destruct (deadline_before kv.2 now) eqn:Hexp.
      * unfold erase. rewrite IH.
        -- rewrite take_delete, drop_delete by lia.
           rewrite filter_cons_False
             by (unfold timed_out; rewrite Hexp; naive_solver).
           rewrite filter_cons_True by (unfold timed_out; by rewrite Hexp).
           csimpl. by rewrite <- app_assoc.
        -- rewrite length_delete by eauto. lia.
        -- rewrite length_delete by eauto. lia.
      * rewrite IH by lia.
        rewrite filter_cons_True
          by (unfold timed_out; rewrite Hexp; naive_solver).
        rewrite filter_cons_False
          by (unfold timed_out; rewrite Hexp; naive_solver).
        by rewrite (take_S_r _ _ _ Hkv), <- app_assoc.
    + rewrite drop_ge, take_ge by lia. simpl. by rewrite !app_nil_r.
Qed.

Lemma gc_filter now st :
  gc now st
  = (inr tt,
     with_trace (trace st ++ (fail_timed_out
                   <$> filter (timed_out now) (pending_ st)))
       (with_pending (filter (λ kv, ¬ timed_out now kv) (pending_ st)) st)).
Proof.
  unfold gc. unfold_M. unfold size, begin_.
  rewrite gc_loop_filter by lia. by rewrite take_0, drop_0.
Qed.

Lemma abandon_request_absent req_id st :
  sorted (pending_ st) → req_id ∉ keys (pending_ st) →
  abandon_request req_id st = (inr tt, st).
Proof.
  intros Hs Hk. unfold abandon_request. unfold_M.
  by rewrite (find_end _ _ Hs Hk), bool_decide_false by auto.
Qed.

Lemma abandon_request_present req_id p st :
  sorted (pending_ st) → (req_id, p) ∈ pending_ st →
  abandon_request req_id st
  = (inr tt,
     with_pending (filter (λ kv, kv.1 ≠ req_id) (pending_ st))
       (with_trace (trace st ++ [set_exception (result p)
                                   (make cancelled "Request cancelled")]) st)).
Proof.
  intros Hs Hin. apply list_elem_of_lookup_1 in Hin as [i Hi].
  unfold abandon_request. unfold_M.
  rewrite (find_lookup _ _ _ _ Hs Hi), Hi.
  rewrite bool_decide_true by (apply lookup_lt_Some in Hi; unfold end_; lia).
  simpl. by rewrite (delete_filter _ _ _ _ Hs Hi).
Qed.

Lemma set_response_absent req_id response st :
  sorted (pending_ st) → req_id ∉ keys (pending_ st) →
  set_response req_id response st = (inr tt, st).
Proof.
  intros Hs Hk. unfold set_response. unfold_M.
  by rewrite (find_end _ _ Hs Hk), bool_decide_false by auto.
Qed.

Lemma set_response_present req_id response p st :
  sorted (pending_ st) → (req_id, p) ∈ pending_ st →
  set_response req_id response st
  = (inr tt,
     with_pending (filter (λ kv, kv.1 ≠ req_id) (pending_ st))
       (with_trace (trace st ++ [set_value (result p) response]) st)).
Proof.
  intros Hs Hin. apply list_elem_of_lookup_1 in Hin as [i Hi].
  unfold set_response. unfold_M.
  rewrite (find_lookup _ _ _ _ Hs Hi), Hi.
  rewrite bool_decide_true by (apply lookup_lt_Some in Hi; unfold end_; lia).
  simpl. by rewrite (delete_filter _ _ _ _ Hs Hi).
Qed.

Lemma broadcast_foldl (exc : exception) m tr :
  foldl (λ tr' p, tr' ++ [set_exception (result p.2) exc]) tr m
  = tr ++ ((λ kv, set_exception (result kv.2) exc) <$> m).
Proof.
  revert tr. induction m as [|kv m IH]; intros tr; simpl.
  - by rewrite app_nil_r.
  - by rewrite IH, <- app_assoc.
Qed.

Lemma broadcast_exception_all exc st :
  broadcast_exception exc st
  = (inr tt,
     with_pending []
       (with_trace (trace st ++ ((λ kv, set_exception (result kv.2) exc)
                                   <$> pending_ st)) st)).
Proof.
  unfold broadcast_exception. unfold_M. simpl.
  by rewrite broadcast_foldl.
Qed.

Lemma sorted_filter (P : Z * pending_request → Prop)
    `{∀ x, Decision (P x)} m :
  sorted m → sorted (filter P m).
Proof.
  unfold sorted. induction 1 as [|x m Hs IH Hall]; [constructor|].
  rewrite filter_cons. case_decide; [|done].
  constructor; [done|]. apply Forall_forall.
  intros y [_ Hy]%list_elem_of_filter.
  rewrite Forall_forall in Hall. by apply Hall.
Qed.


Lemma filter_none {A} (P : A → Prop) `{∀ x, Decision (P x)} (l : list A) :
  Forall (λ x, ¬ P x) l → filter P l = [].
Proof.
  induction 1 as [|x l Hx Hl IH]; [done|].
  by rewrite filter_cons_False.
Qed.

Lemma keys_absent_Forall m k : k ∉ keys m → Forall (λ kv, kv.1 ≠ k) m.
Proof.
  intros Hk. apply Forall_forall. intros [k' v] Hin Heq. apply Hk.
  apply elem_of_keys. apply list_elem_of_lookup_1 in Hin as [i Hi].
  exists i, v. simpl in Heq. by subst.
Qed.

(** In a sorted map the entries of a key are at most one. *)
Lemma filter_key_present m k p :
  sorted m → (k, p) ∈ m → filter (λ kv, kv.1 = k) m = [(k, p)].
Proof.
  intros Hs Hin. apply list_elem_of_lookup_1 in Hin as [i Hi].
  rewrite <- (take_drop_middle m i (k, p) Hi).
  rewrite filter_app, filter_cons_True by done.
  rewrite !filter_none; [done|..].
  - apply Forall_lookup. intros j y Hj Heq. rewrite lookup_drop in Hj.
    assert (i = S i + j)%nat; [|lia].
    eapply (sorted_lookup_inj m); eauto.
  - apply Forall_lookup. intros j y Hj Heq.
    pose proof (lookup_lt_Some _ _ _ Hj) as Hlt. rewrite length_take in Hlt.
    rewrite lookup_take_lt in Hj by lia.
    assert (i = j); [|lia]. eapply (sorted_lookup_inj m); eauto.
Qed.

Lemma filter_key_absent m k :
  k ∉ keys m →
  filter (λ kv, kv.1 = k) m = [] ∧ filter (λ kv, kv.1 ≠ k) m = m.
Proof.
  intros Hk%keys_absent_Forall. split.
  - by apply filter_none.
  - by apply filter_all.
Qed.

Lemma resolved_app tr tr' : resolved (tr ++ tr') = resolved tr ++ resolved tr'.
Proof. apply omap_app. Qed.

Lemma resolved_fail_timed_out m : resolved (fail_timed_out <$> m) = promises m.
Proof. induction m as [|kv m IH]; [done|]. csimpl. by rewrite IH. Qed.

Lemma resolved_broadcast exc m :
  resolved ((λ kv, set_exception (result kv.2) exc) <$> m) = promises m.
Proof. induction m as [|kv m IH]; [done|]. csimpl. by rewrite IH. Qed.

(** Each of the four operations removes from the pending map exactly the
    entries it is aimed at, and resolves exactly the promises of the
    entries it removes, in the order of the array; it never raises. *)
Lemma run_op_targets o st :
  sorted (pending_ st) →
  (run_op o st).1 = inr tt
  ∧ pending_ (exec (run_op o) st)
    = filter (λ kv, ¬ targets o kv) (pending_ st)
  ∧ resolved (trace (exec (run_op o) st))
    = resolved (trace st)
      ++ promises (filter (λ kv, targets o kv) (pending_ st)).
Proof.
  intros Hs.
  assert (∀ req_id, 
    filter (λ kv : Z * pending_request, ¬ bool_decide (kv.1 = req_id))
      (pending_ st) = filter (λ kv, kv.1 ≠ req_id) (pending_ st)
    ∧ filter (λ kv : Z * pending_request, bool_decide (kv.1 = req_id))
      (pending_ st) = filter (λ kv, kv.1 = req_id) (pending_ st)) as Hfilter.
  { intros req_id. split; apply list_filter_iff; intros kv;
      by rewrite bool_decide_spec. }
  destruct o as [req_id response|now|req_id|exc]; unfold exec;
    cbn [run_op targets].
  - destruct (Hfilter req_id) as [-> ->].
    destruct (decide (req_id ∈ keys (pending_ st))) as [Hin|Hout].
    + apply elem_of_keys in Hin as (i & p & Hi).
      apply list_elem_of_lookup_2 in Hi.
      rewrite (set_response_present _ _ p _ Hs Hi). simpl.
      rewrite (filter_key_present _ _ p Hs Hi), resolved_app. done.
    + rewrite (set_response_absent _ _ _ Hs Hout).
      destruct (filter_key_absent _ _ Hout) as [-> ->]. simpl.
      by rewrite app_nil_r.
  - rewrite gc_filter. simpl.
    by rewrite resolved_app, resolved_fail_timed_out.
  - destruct (Hfilter req_id) as [-> ->].
    destruct (decide (req_id ∈ keys (pending_ st))) as [Hin|Hout].
    + apply elem_of_keys in Hin as (i & p & Hi).
      apply list_elem_of_lookup_2 in Hi.
      rewrite (abandon_request_present _ p _ Hs Hi). simpl.
      rewrite (filter_key_present _ _ p Hs Hi), resolved_app. done.
    + rewrite (abandon_request_absent _ _ Hs Hout).
      destruct (filter_key_absent _ _ Hout) as [-> ->]. simpl.
      by rewrite app_nil_r.
  - clear Hfilter. rewrite broadcast_exception_all. simpl.
    rewrite resolved_app, resolved_broadcast.
    rewrite (filter_all (λ _ : Z * pending_request, True))
      by (by apply Forall_forall).
    by rewrite (filter_none (λ _ : Z * pending_request, ¬ True))
      by (apply Forall_forall; naive_solver).
Qed.

(** The invariant survives each of the four operations. *)
Lemma run_op_wf o st : pending_wf st → pending_wf (exec (run_op o) st).
Proof.
  intros [Hs Hnd]. destruct (run_op_targets o st Hs) as (_ & Hp & Hr).
  split.
  - rewrite Hp. by apply sorted_filter.
  - rewrite Hp, Hr.
    set (A := promises (filter (λ kv, ¬ targets o kv) (pending_ st))).
    set (B := promises (filter (λ kv, targets o kv) (pending_ st))).
    assert (promises (pending_ st) ++ resolved (trace st)
            ≡ₚ A ++ resolved (trace st) ++ B) as Hperm.
    { rewrite (Permutation_app_comm (resolved (trace st)) B).
      rewrite (assoc_L (++)). apply Permutation_app_tail.
      unfold A, B, promises. rewrite <- fmap_app. apply fmap_Permutation.
      symmetry. rewrite Permutation_app_comm.
      apply (filter_app_complement (λ kv, targets o kv)). }
    by rewrite <- Hperm.
Qed.

Lemma run_ops_wf os st : pending_wf st → pending_wf (run_ops os st).
Proof.
  revert st. induction os as [|o os IH]; intros st Hwf; [done|].
  simpl. apply IH. by apply run_op_wf.
Qed.

Lemma send_cases data st :
  send data st =
    let '(r1, c1) := conn_connect (connection_ st) in
    match r1 with
    | Some e =>
        (inl e, with_connection (conn_disconnect c1)
                  (with_ready false (with_connection c1 st)))
    | None =>
        let '(r2, c2) := conn_send data c1 in
        let st2 := with_trace (trace st ++ [sent data])
                     (with_connection c2 (with_connection c1 st)) in
        match r2 with
        | Some e =>
            (inl e, with_connection (conn_disconnect c2)
                      (with_ready false st2))
        | None => (inr tt, with_ready true st2)
        end
    end.
Proof.
  unfold send, connect, connection_send, disconnect. unfold_M.
  destruct (conn_connect (connection_ st)) as [[e|] c1]; simpl; [done|].
  destruct (conn_send data c1) as [[e|] c2]; simpl; done.
Qed.

(** What [send] leaves behind when it raises. *)
Lemma send_raises_fields data st e :
  send_raises (connection_ st) data e →
  ∃ st' tr,
    send data st = (inl e, st')
    ∧ ready_ st' = false
    ∧ (∃ c, connection_ st' = conn_disconnect c)
    ∧ pending_ st' = pending_ st
    ∧ trace st' = trace st ++ tr ∧ resolved tr = []
    ∧ cancelled_requests_ st' = cancelled_requests_ st.
Proof.
  unfold send_raises. rewrite send_cases.
  destruct (conn_connect (connection_ st)) as [[e1|] c1]; simpl.
  - intros [[= ->]|[[=] _]]. eexists _, []. split_and!; try done.
    + by eexists.
    + simpl. by rewrite app_nil_r.
  - intros [[=]|[_ He]].
    destruct (conn_send data c1) as [[e2|] c2]; simpl in *; simplify_eq.
    eexists _, [sent data]. split_and!; try done. by eexists.
Qed.

Lemma ring_doorbell_fields dl st :
  ∃ st', ring_doorbell dl st = (inr tt, st')
    ∧ pending_ st' = pending_ st ∧ trace st' = trace st
    ∧ connection_ st' = connection_ st
    ∧ next_promise st' = next_promise st.
Proof.
  unfold ring_doorbell. destruct dl; [|by eexists].
  unfold new_deadline_maybe_put. unfold_M. simpl.
  case_bool_decide; simpl; by eexists.
Qed.

Lemma register_pending_fields dl req_id st :
  sorted (pending_ st) →
  ∃ st1,
    register_pending dl req_id st = (inr (promise_for req_id st), st1)
    ∧ sorted (pending_ st1)
    ∧ (req_id, {| deadline := dl; result := promise_for req_id st |})
        ∈ pending_ st1
    ∧ filter (λ kv, kv.1 ≠ req_id) (pending_ st1)
      = filter (λ kv, kv.1 ≠ req_id) (pending_ st)
    ∧ trace st1 = trace st
    ∧ connection_ st1 = connection_ st
    ∧ ((promises (pending_ st1) = promises (pending_ st)
        ∧ next_promise st1 = next_promise st)
       ∨ (promises (pending_ st1)
            ≡ₚ next_promise st :: promises (pending_ st)
          ∧ next_promise st1 = S (next_promise st))).
Proof.
  intros Hs. unfold register_pending, promise_for. unfold_M.
  set (f := λ kv : Z * pending_request,
              (kv.1, {| deadline := dl; result := result kv.2 |})).
  assert (∀ kv, (f kv).1 = kv.1) as Hf by done.
  destruct (decide (req_id ∈ keys (pending_ st))) as [Hin|Hout].
  - apply elem_of_keys in Hin as (i & q & Hi).
    pose proof (list_elem_of_lookup_2 _ _ _ Hi) as Hin.
    rewrite (insert_present _ _ q _ Hs Hin). simpl.
    rewrite (find_lookup _ _ _ _ Hs Hi).
    destruct (ring_doorbell_fields dl (with_pending (alter f i (pending_ st)) st))
      as (s' & -> & Hp & Ht & Hc & Hn).
    exists s'. rewrite Hp, Ht, Hc, Hn. simpl.
    assert (alter f i (pending_ st) !! i
            = Some (req_id, {| deadline := dl; result := result q |})) as Hi'.
    { by rewrite list_lookup_alter_eq, Hi. }
    pose proof (sorted_alter f _ i Hf Hs) as Hs'.
    unfold lookup_key. rewrite (find_lookup _ _ _ _ Hs Hi), Hi. simpl.
    split_and!; try done.
    + unfold mapped. by rewrite Hi'.
    + by eapply list_elem_of_lookup_2.
    + rewrite <- (delete_filter _ _ _ _ Hs' Hi').
      rewrite <- (delete_filter _ _ _ _ Hs Hi). apply delete_alter.
    + left. split; [|done]. unfold promises.
      rewrite (list_fmap_alter _ f id); [by apply list_alter_id|].
      by apply Forall_forall.
  - rewrite (insert_absent _ _ _ Hs Hout). simpl.
    destruct (lower_bound_split _ req_id Hs) as (Hn & _).
    rewrite alter_insert_at by done.
    change (f (req_id, {| deadline := None; result := next_promise st |}))
      with (req_id, {| deadline := dl; result := next_promise st |}).
    set (x := (req_id, {| deadline := dl; result := next_promise st |})).
    destruct (ring_doorbell_fields dl (with_pending (insert_at (lower_bound req_id (pending_ st))
                                     x (pending_ st))
                       (with_next_promise (S (next_promise st)) st)))
      as (s' & -> & Hp & Ht & Hc & Hn').
    exists s'. rewrite Hp, Ht, Hc, Hn'. simpl.
    pose proof (sorted_insert_at _ req_id {| deadline := dl; result := next_promise st |} Hs Hout) as Hs'.
    pose proof (lookup_insert_at (pending_ st) _ x Hn) as Hx.
    assert (lookup_key req_id (pending_ st) = None) as ->
      by by apply lookup_key_None.
    split_and!; try done.
    + unfold mapped. by rewrite Hx.
    + by eapply list_elem_of_lookup_2.
    + rewrite <- (delete_filter _ _ _ _ Hs' Hx).
      rewrite delete_insert_at by done.
      by destruct (filter_key_absent _ _ Hout) as [_ ->].
    + right. split; [|done]. unfold promises, insert_at.
      rewrite fmap_app, fmap_cons, <- Permutation_middle.
      apply Permutation_cons; [done|].
      by rewrite <- fmap_app, take_drop.
Qed.

(** Registering a request keeps the engine's invariant: a new entry gets a
    promise no other entry holds. *)
Lemma register_pending_wf dl req_id st :
  engine_wf st → engine_wf (exec (register_pending dl req_id) st).
Proof.
  intros [[Hs Hnd] Hlt].
  destruct (register_pending_fields dl req_id st Hs)
    as (st1 & Hreg & Hs1 & _ & _ & Htr & _ & Hprom).
  unfold exec. rewrite Hreg. simpl. unfold engine_wf, pending_wf.
  rewrite Htr. destruct Hprom as [[-> ->]|[Hperm ->]]; [done|].
  rewrite Hperm. split_and!; [done|..].
  - simpl. constructor; [|done]. intros Hin.
    rewrite Forall_forall in Hlt. specialize (Hlt _ Hin). lia.
  - simpl. constructor; [lia|].
    eapply Forall_impl; [done|]. simpl. lia.
Qed.

(** So do the four resolving operations. *)
Lemma run_op_engine_wf o st : engine_wf st → engine_wf (exec (run_op o) st).
Proof.
  intros [Hwf Hlt]. split; [by apply run_op_wf|].
  destruct Hwf as [Hs _].
  destruct (run_op_targets o st Hs) as (_ & Hp & Hr).
  assert (next_promise (exec (run_op o) st) = next_promise st) as ->.
  { unfold exec. destruct o as [req_id response|now|req_id|exc]; cbn [run_op].
    - destruct (decide (req_id ∈ keys (pending_ st))) as [Hin|Hout].
      + apply elem_of_keys in Hin as (i & p & Hi).
        apply list_elem_of_lookup_2 in Hi.
        by rewrite (set_response_present _ _ p _ Hs Hi).
      + by rewrite (set_response_absent _ _ _ Hs Hout).
    - by rewrite gc_filter.
    - destruct (decide (req_id ∈ keys (pending_ st))) as [Hin|Hout].
      + apply elem_of_keys in Hin as (i & p & Hi).
        apply list_elem_of_lookup_2 in Hi.
        by rewrite (abandon_request_present _ p _ Hs Hi).
      + by rewrite (abandon_request_absent _ _ Hs Hout).
    - by rewrite broadcast_exception_all. }
  rewrite Hp, Hr. rewrite !Forall_app in *. destruct Hlt as [Hpend Hres].
  assert (∀ P `{∀ x, Decision (P x)},
            Forall (λ p, (p < next_promise st)%nat)
              (promises (filter P (pending_ st)))) as Hsub.
  { intros P ?. unfold promises in *. rewrite Forall_fmap in *.
    apply Forall_forall. intros kv [_ Hin]%list_elem_of_filter.
    rewrite Forall_forall in Hpend. by apply Hpend. }
  split_and!; [apply Hsub|done|apply Hsub].
Qed.

(** The engine as constructed satisfies the invariant. *)
Lemma new_engine_wf (c : Samples.scripted) : engine_wf (Samples.new_engine c).
Proof. split; [split|]; constructor. Qed.
End facts.
End ClientFacts.

(** ** The client engine: requests, responses, timeouts, cancellation *)

Section client_properties.
Import FlatMap FlatMapFacts Errors Client ClientFacts.
Context {C : Type} `{Connection C} `{Codec} `{QueueCapacity} `{SystemClock}.
Implicit Types (st : client_connection C).


(** C5.  A packet that decodes as a [RESPONSE] header followed by a
    request id: when no pending entry has that id the packet is dropped
    (no error, and the engine's state, with its pending map and its
    trace of resolutions, stays the same); when an entry has it, the
    promise of that entry receives the bytes that follow the header as its
    value, the entry is erased, and no other entry changes. *)
Theorem receive_response (response : bytes) (pos1 pos2 : nat)
    (req_id : Z) st :
  sorted (pending_ st) →
  decode_message_type response = inr (RESPONSE, pos1) →
  decode_request_id (drop pos1 response) = inr (req_id, pos2) →
  let payload := drop (pos1 + pos2) response in
  (req_id ∉ keys (pending_ st) → receive_packet response st = (inr tt, st))
  ∧ (∀ p, (req_id, p) ∈ pending_ st →
       receive_packet response st
       = (inr tt,
          with_pending (filter (λ kv, kv.1 ≠ req_id) (pending_ st))
            (with_trace (trace st ++ [set_value (result p) payload]) st))).
Proof.
  intros Hs Hty Hid payload. unfold receive_packet. rewrite Hty, Hid. split.
  - by apply set_response_absent.
  - intros p Hin. by apply set_response_present.
Qed.

(** C10.  Each of [set_response], [gc], [abandon_request] and
    [broadcast_exception] is one step that removes from the pending map
    exactly the entries it is aimed at and resolves exactly the promises of
    the entries it removes.  Hence, from a state in which the pending
    entries hold distinct promises, none of them resolved, no sequence of
    these operations resolves a promise twice; and [set_response] and
    [abandon_request] on an id the map does not hold change nothing. *)
Theorem resolve_removes (os : list resolving_op) st :
  pending_wf st →
  (∀ o (s : client_connection C), sorted (pending_ s) →
     (run_op o s).1 = inr tt
     ∧ pending_ (exec (run_op o) s)
       = filter (λ kv, ¬ targets o kv) (pending_ s)
     ∧ resolved (trace (exec (run_op o) s))
       = resolved (trace s)
         ++ promises (filter (λ kv, targets o kv) (pending_ s)))
  ∧ NoDup (resolved (trace (run_ops os st)))
  ∧ pending_wf (run_ops os st)
  ∧ (∀ req_id response (s : client_connection C),
       sorted (pending_ s) → req_id ∉ keys (pending_ s) →
       set_response req_id response s = (inr tt, s)
       ∧ abandon_request req_id s = (inr tt, s)).
Proof.
  intros Hwf. split_and!.
  - intros o s. apply run_op_targets.
  - destruct (run_ops_wf os st Hwf) as [_ Hnd].
    by apply NoDup_app in Hnd as (_ & _ & ?).
  - by apply run_ops_wf.
  - intros req_id response s Hs Hk. split.
    + by apply set_response_absent.
    + by apply abandon_request_absent.
Qed.

Lemma new_request_id_step st :
  new_request_id st
  = (inr (sequence_ st), with_sequence ((sequence_ st + 1) mod 2 ^ 32) st).
Proof. done. Qed.

Lemma consecutive_increasing (s : Z) (a n : nat) :
  StronglySorted Z.lt ((λ i : nat, s + Z.of_nat i) <$> seq a n).
Proof.
  revert a. induction n as [|n IH]; intros a; csimpl; constructor; [done|].
  apply Forall_fmap, Forall_forall. intros i Hi%elem_of_seq. simpl. lia.
Qed.

Lemma allocate_consecutive (n : nat) st :
  0 ≤ sequence_ st → sequence_ st + Z.of_nat n ≤ 2 ^ 32 →
  (allocate n st).1
  = inr ((λ i : nat, sequence_ st + Z.of_nat i) <$> seq 0 n).
Proof.
  revert st. induction n as [|n IH]; intros st Hlo Hhi; [done|].
  cbn [allocate]. unfold_M. rewrite new_request_id_step.
  set (st1 := with_sequence ((sequence_ st + 1) mod 2 ^ 32) st).
  destruct n as [|n].
  { simpl. do 3 f_equal. lia. }
  assert (sequence_ st1 = sequence_ st + 1) as Hst1.
  { unfold st1. simpl. apply Z.mod_small. lia. }
  specialize (IH st1). rewrite Hst1 in IH.
  destruct (allocate (S n) st1) as [[e|ids] s'];
    simpl in IH; specialize (IH ltac:(lia) ltac:(lia)); simplify_eq.
  simpl. do 2 f_equal; [lia|]. f_equal; [lia|].
  rewrite <- !fmap_S_seq, <- !list_fmap_compose.
  apply list_fmap_ext. intros _ i _. simpl. lia.
Qed.

Lemma allocate_total (n : nat) st :
  ∃ ids, allocate n st = (inr ids, exec (allocate n) st).
Proof.
  revert st. induction n as [|n IH]; intros st; [by eexists|].
  unfold exec. cbn [allocate]. unfold_M. rewrite new_request_id_step.
  destruct (IH (with_sequence ((sequence_ st + 1) mod 2 ^ 32) st))
    as [ids ->].
  by eexists.
Qed.

(** [n] allocations advance the counter by [n] modulo [2^32]. *)
Lemma allocate_advances (n : nat) st :
  0 ≤ sequence_ st < 2 ^ 32 →
  sequence_ (exec (allocate n) st)
  = (sequence_ st + Z.of_nat n) mod 2 ^ 32.
Proof.
  revert st. induction n as [|n IH]; intros st Hrange.
  - unfold exec. cbn [allocate]. unfold_M. cbn [snd].
    rewrite Z.add_0_r. symmetry. by apply Z.mod_small.
  - assert (exec (allocate (S n)) st
            = exec (allocate n)
                (with_sequence ((sequence_ st + 1) mod 2 ^ 32) st)) as ->.
    { unfold exec at 1. cbn [allocate]. unfold_M.
      rewrite new_request_id_step.
      by destruct (allocate_total n
                     (with_sequence ((sequence_ st + 1) mod 2 ^ 32) st))
        as [ids ->]. }
    rewrite IH.
    + cbn [sequence_ with_sequence].
      rewrite Zplus_mod_idemp_l. f_equal. lia.
    + cbn [sequence_ with_sequence]. apply Z.mod_pos_bound. lia.
Qed.

(** C2.  Two successive calls of [new_request_id] on
    a connection whose counter holds [first] return [first] and then
    [first + 1] modulo [2^32]: the second id is greater than the first
    unless the first is [2^32 - 1], after which the counter starts again
    at 0.  So the ids allocated before the counter wraps (at most [2^32]
    of them from a new connection) are consecutive, strictly increasing
    and pairwise distinct. *)
Theorem new_request_id_successive st :
  0 ≤ sequence_ st < 2 ^ 32 →
  let first := sequence_ st in
  let second := (sequence_ st + 1) mod 2 ^ 32 in
  (∃ st1 st2, new_request_id st = (inr first, st1)
              ∧ new_request_id st1 = (inr second, st2))
  ∧ (first < 2 ^ 32 - 1 → second = first + 1 ∧ first < second)
  ∧ (first = 2 ^ 32 - 1 → second = 0)
  ∧ (∀ n : nat, first + Z.of_nat n ≤ 2 ^ 32 →
       ∃ ids, (allocate n st).1 = inr ids
              ∧ ids = (λ i : nat, first + Z.of_nat i) <$> seq 0 n
              ∧ StronglySorted Z.lt ids
              ∧ NoDup ids).
Proof.
  intros Hrange first second. split_and!.
  - by eexists _, _.
  - intros Hlt. unfold second, first. rewrite Z.mod_small by lia. lia.
  - intros Heq. unfold second. fold first. rewrite Heq. done.
  - intros n Hn. eexists. split; [by apply allocate_consecutive; lia|].
    split; [done|]. split; [apply consecutive_increasing|].
    apply NoDup_fmap_2; [|apply NoDup_seq]. intros i j. lia.
Qed.

(** C1.  When the send path of [send_request] raises
    an error [e] (opening the connection fails, or the write does), the
    call ends by raising that same [e]; the ready flag is down; the
    connection has been disconnected; the entry of the request is gone
    from the pending map and no other entry has changed; and the promise
    of the request has received one exception, of kind [cancelled], the
    only resolution the call performs. *)
Theorem send_request_send_raises (dl : option Z) (req_id : Z)
    (request : bytes) (e : exception) st :
  sorted (pending_ st) →
  send_raises (connection_ st) request e →
  ∃ st' tr,
    send_request dl req_id request st = (inl e, st')
    ∧ ready_ st' = false
    ∧ (∃ c, connection_ st' = conn_disconnect c)
    ∧ pending_ st' = filter (λ kv, kv.1 ≠ req_id) (pending_ st)
    ∧ (∀ kv, kv.1 ≠ req_id → kv ∈ pending_ st ↔ kv ∈ pending_ st')
    ∧ trace st' = trace st ++ tr
                  ++ [set_exception (promise_for req_id st)
                        (make cancelled "Request cancelled")]
    ∧ resolved tr = [].
Proof.
  intros Hs Hraise.
  destruct (register_pending_fields dl req_id st Hs)
    as (st1 & Hreg & Hs1 & Hin1 & Hfilter & Htr1 & Hc1 & _).
  rewrite <- Hc1 in Hraise.
  destruct (send_raises_fields request st1 e Hraise)
    as (st2 & tr & Hsend & Hready & Hconn & Hp2 & Htr2 & Hres & _).
  rewrite <- Hp2 in Hs1, Hin1.
  pose proof (abandon_request_present req_id _ st2 Hs1 Hin1) as Hab.
  eexists _, tr. split.
  { unfold send_request. unfold_M. rewrite Hreg, Hsend, Hab. done. }
  simpl. rewrite Hp2, Hfilter, Htr2, Htr1, <- app_assoc.
  split_and!; try done.
  intros kv Hne. rewrite list_elem_of_filter.
  split; [by intros Hin|by intros [_ Hin]].
Qed.

Lemma handle_cancelled_request (req_id : Z) (q : list Z) (now : Z) st :
  cancelled_requests_ st = req_id :: q →
  ∃ st',
    handle_selected cancelled_request now st = (inr tt, st')
    ∧ cancelled_requests_ st' = q
    ∧ pending_ st' = pending_ st
    ∧ resolved (trace st') = resolved (trace st)
    ∧ frames (trace st')
      = frames (trace st)
        ++ match (conn_connect (connection_ st)).1 with
           | None => [cancel_frame req_id]
           | Some _ => []
           end.
Proof.
  intros Hq. unfold handle_selected. unfold_M. rewrite Hq.
  rewrite send_cases. simpl.
  destruct (conn_connect (connection_ st)) as [[e1|] c1]; simpl.
  - eexists. split_and!; try done. by rewrite app_nil_r.
  - destruct (conn_send (cancel_frame req_id) c1) as [[e2|] c2]; simpl;
      (eexists; split_and!; try done;
       cbn; unfold resolved, frames; rewrite ?omap_app; cbn;
       by rewrite ?app_nil_r).
Qed.

(** C3.  When [result.get()] raises a [cancelled]
    error in [call], the call raises that error on; the pending entry of
    the request, if still there, is erased and its promise receives a
    [cancelled] exception; the request id is appended to the queue of
    cancelled requests when the queue has room and dropped when it is
    full; no frame is sent at that point.  When the handler later takes
    a request id from the front of that queue it hands the
    [CANCEL_REQUEST] frame of that id to the connection once if the
    connection opens, not at all if it does not, and never raises.  So
    at most one frame is sent for the request: none when the queue was
    full or the connection does not open. *)
Theorem cancel_then_frame {R : Type} (req_id : Z) (e : exception) st :
  sorted (pending_ st) →
  kind e = cancelled →
  (∃ st1,
     call_get (R:=R) req_id (inl e) st = (inl e, st1)
     ∧ pending_ st1 = filter (λ kv, kv.1 ≠ req_id) (pending_ st)
     ∧ (∀ p, (req_id, p) ∈ pending_ st →
          trace st1 = trace st ++ [set_exception (result p)
                                     (make cancelled "Request cancelled")])
     ∧ (req_id ∉ keys (pending_ st) → trace st1 = trace st)
     ∧ frames (trace st1) = frames (trace st)
     ∧ cancelled_requests_ st1
       = if bool_decide (length (cancelled_requests_ st)
                         < max_queued_events)%nat
         then cancelled_requests_ st ++ [req_id]
         else cancelled_requests_ st)
  ∧ (∀ (s : client_connection C) q now,
       cancelled_requests_ s = req_id :: q →
       ∃ s',
         handle_selected cancelled_request now s = (inr tt, s')
         ∧ cancelled_requests_ s' = q
         ∧ pending_ s' = pending_ s
         ∧ resolved (trace s') = resolved (trace s)
         ∧ frames (trace s')
           = frames (trace s)
             ++ match (conn_connect (connection_ s)).1 with
                | None => [cancel_frame req_id]
                | Some _ => []
                end).
Proof.
  intros Hs Hkind. split; [|intros s q now; apply handle_cancelled_request].
  assert (∃ st0, abandon_request req_id st = (inr tt, st0)
    ∧ pending_ st0 = filter (λ kv, kv.1 ≠ req_id) (pending_ st)
    ∧ (∀ p, (req_id, p) ∈ pending_ st →
         trace st0 = trace st ++ [set_exception (result p)
                                    (make cancelled "Request cancelled")])
    ∧ (req_id ∉ keys (pending_ st) → trace st0 = trace st)
    ∧ frames (trace st0) = frames (trace st)
    ∧ cancelled_requests_ st0 = cancelled_requests_ st)
    as (st0 & Hab & Hp0 & Hpres & Habs & Hfr & Hq0).
  { destruct (decide (req_id ∈ keys (pending_ st))) as [Hin|Hout].
    - apply elem_of_keys in Hin as (i & p & Hi).
      pose proof (list_elem_of_lookup_2 _ _ _ Hi) as Hin.
      rewrite (abandon_request_present _ p _ Hs Hin).
      eexists. split_and!; try done.
      + intros p' Hin'. simpl. do 4 f_equal.
        destruct (list_elem_of_lookup_1 _ _ Hin') as [j Hj].
        assert (i = j) by (eapply (sorted_lookup_inj (pending_ st)); eauto).
        by simplify_eq.
      + intros Hout. exfalso. apply Hout. apply elem_of_keys. eauto.
      + simpl. unfold frames. rewrite omap_app. simpl. by rewrite app_nil_r.
    - rewrite (abandon_request_absent _ _ Hs Hout).
      destruct (filter_key_absent _ _ Hout) as [_ ->].
      eexists. split_and!; try done.
      intros p Hin. exfalso. apply Hout. apply elem_of_keys.
      apply list_elem_of_lookup_1 in Hin as [i Hi]. eauto. }
  unfold call_get, cancel_request, cancelled_requests_maybe_put. unfold_M.
  rewrite Hkind. simpl. rewrite Hab. simpl. rewrite Hq0.
  case_bool_decide; simpl; eexists; split_and!; try done.
Qed.

End client_properties.

(** ** Runs of concrete engines *)

Section samples.
Import FlatMap Errors Client Samples.

(** A request whose connection attempt fails with an I/O error: the
    caller gets the I/O error, the promise a [cancelled] exception. *)
Lemma offline_send_request_example :
  ∃ st', send_request (Some 50) 9 [Byte.x01] (busy offline) = (inl eof, st')
         ∧ ready_ st' = false
         ∧ pending_ st' = pending_ (busy offline)
         ∧ trace st' = [set_exception 3%nat (make cancelled "Request cancelled")].
Proof.
  destruct (send_request_send_raises (Some 50) 9 [Byte.x01] eof (busy offline))
    as (st' & tr & Hrun & Hready & _ & Hp & _ & Htr & Hres).
  - repeat constructor.
  - by left.
  - exists st'. split_and!; [exact Hrun|exact Hready|exact Hp|].
    assert (st' = (send_request (Some 50) 9 [Byte.x01] (busy offline)).2)
      as -> by by rewrite Hrun.
    reflexivity.
Defined.

(** The promise of the abandoned request does not receive an exception of
    the I/O-error kind. *)
Lemma abandoned_promise_not_io_error :
  kind eof = io_error
  ∧ ∃ st', send_request (Some 50) 9 [Byte.x01] (busy offline) = (inl eof, st')
           ∧ trace st' = [set_exception (promise_for 9 (busy offline))
                            (make cancelled "Request cancelled")]
           ∧ ¬ ∃ e, kind e = io_error
                    ∧ set_exception (promise_for 9 (busy offline)) e
                      ∈ trace st'.
Proof.
  split; [done|]. eexists. split; [reflexivity|]. split; [reflexivity|].
  intros (e & Hk & Hin). simpl in Hin.
  apply list_elem_of_singleton in Hin. injection Hin as ->. done.
Qed.

Lemma busy_next_ids_example :
  ∃ st1 st2, new_request_id (busy online) = (inr 8, st1)
             ∧ new_request_id st1 = (inr 9, st2).
Proof.
  destruct (new_request_id_successive (busy online)) as (Hcalls & _).
  - simpl. lia.
  - exact Hcalls.
Defined.

(** An engine whose counter has reached [2^32 - 1] (by [allocate_advances],
    a new engine after that many allocations) hands out [2^32 - 1] and
    then 0. *)
Lemma request_id_wraps_to_zero :
  let st := with_sequence (2 ^ 32 - 1) (new_engine online) in
  ∃ st1 st2, new_request_id st = (inr 4294967295, st1)
             ∧ new_request_id st1 = (inr 0, st2)
             ∧ ¬ (4294967295 < 0).
Proof. intros st. eexists _, _. split_and!; [reflexivity|reflexivity|lia]. Qed.



Lemma busy_response_example :
  let packet := le_encode 1 1 ++ le_encode 4 6 ++ [Byte.x41; Byte.x42] in
  receive_packet packet (busy online)
  = (inr tt,
     with_pending [ (5, {| deadline := Some 100; result := 0%nat |});
                    (7, {| deadline := None; result := 2%nat |}) ]
       (with_trace [set_value 1%nat [Byte.x41; Byte.x42]] (busy online))).
Proof.
  intros packet.
  destruct (receive_response packet 1 4 6 (busy online)) as (_ & Hpresent).
  - repeat constructor.
  - reflexivity.
  - reflexivity.
  - rewrite (Hpresent {| deadline := Some 300; result := 1%nat |}).
    + reflexivity.
    + apply list_elem_of_further, list_elem_of_here.
Defined.

Lemma busy_resolutions_example :
  let os := [ op_gc 200000000; op_set_response 5 []; op_abandon_request 6;
              op_broadcast_exception eof; op_abandon_request 7 ] in
  NoDup (resolved (trace (run_ops os (busy online))))
  ∧ resolved (trace (run_ops os (busy online))) = [0; 1; 2]%nat
  ∧ pending_ (run_ops os (busy online)) = [].
Proof.
  intros os.
  destruct (resolve_removes os (busy online)) as (_ & Hnd & _).
  - split; [repeat constructor|]. simpl. apply NoDup_ListNoDup.
    repeat (constructor; [simpl; intuition lia|]). constructor.
  - split_and!; [exact Hnd|reflexivity|reflexivity].
Defined.

Lemma busy_cancel_example :
  let e := make cancelled "Context cancelled" in
  ∃ st1 st2,
    call_get (R:=bytes) 6 (inl e) (busy online) = (inl e, st1)
    ∧ trace st1 = [set_exception 1%nat (make cancelled "Request cancelled")]
    ∧ cancelled_requests_ st1 = [6]
    ∧ handle_selected cancelled_request 0 st1 = (inr tt, st2)
    ∧ frames (trace st2) = [cancel_frame 6].
Proof.
  intros e.
  destruct (cancel_then_frame (R:=bytes) 6 e (busy online))
    as ((st1 & Hcall & _ & Htr & _ & _ & Hq) & Hhandler).
  - repeat constructor.
  - reflexivity.
  - destruct (Hhandler st1 [] 0) as (st2 & Hrun & _ & _ & _ & Hfr).
    { rewrite Hq. reflexivity. }
    exists st1, st2. split_and!; try done.
    + rewrite (Htr {| deadline := Some 300; result := 1%nat |}); [done|].
      apply list_elem_of_further, list_elem_of_here.
    + rewrite Hfr.
      assert (st1 = (call_get (R:=bytes) 6 (inl e) (busy online)).2) as ->
        by by rewrite Hcall.
      reflexivity.
Defined.

(** With the queue of cancelled requests full (256 earlier cancellations
    still waiting for the handler), the id of a newly cancelled call is
    dropped: the call still ends with the
    [cancelled] error and its promise is failed, but once the handler has
    sent a frame for each of the 256 waiting ids the queue is empty and
    no frame was sent for the call. *)
Lemma cancel_dropped_when_queue_full :
  let waiting := Z.of_nat <$> seq 100 256 in
  let e := make cancelled "Context cancelled" in
  let st := foldl (λ s id, exec (cancel_request id) s) (busy online) waiting in
  let st1 := exec (call_get (R:=bytes) 7 (inl e)) st in
  let st2 := exec (drain 256 0) st1 in
  cancelled_requests_ st = waiting
  ∧ (call_get (R:=bytes) 7 (inl e) st).1 = inl e
  ∧ trace st1 = [set_exception 2%nat (make cancelled "Request cancelled")]
  ∧ cancelled_requests_ st1 = waiting
  ∧ (7 ∉ waiting)
  ∧ cancelled_requests_ st2 = []
  ∧ frames (trace st2) = cancel_frame <$> waiting
  ∧ length (filter (λ f, le_decode (drop 1 f) = 7) (frames (trace st2)))
    = 0%nat.
Proof.
  intros waiting e st st1 st2.
  split_and!; try by vm_compute.
  intros Hin%list_elem_of_fmap. destruct Hin as (i & Hi & Hseq%elem_of_seq).
  lia.
Qed.

End samples.

(** ** The metaprogramming toolkit *)

Module MptFacts.
Import Mpt.

Section mpt_facts.
Context `{SizeT}.

Lemma size_t_wrap_small z : 0 ≤ z < 2 ^ size_t_bits → size_t_wrap z = z.
Proof. intros Hz. unfold size_t_wrap. by apply Z.mod_small. Qed.

Lemma half_bounds (n : nat) :
  (2 ≤ n → 1 ≤ n / 2 < n ∧ n / 2 + (n - n / 2) = n)%nat.
Proof.
  intros Hn.
  assert (n / 2 < n)%nat by (apply Nat.div_lt; lia).
  assert (1 ≤ n / 2)%nat by (apply Nat.div_le_lower_bound; lia).
  lia.
Qed.

Lemma join_integer_sequences_length is_ js b :
  length (join_integer_sequences is_ js b) = (length is_ + length js)%nat.
Proof. unfold join_integer_sequences. by rewrite length_app, length_fmap. Qed.

Lemma make_integer_sequence_length n : length (make_integer_sequence n) = n.
Proof.
  induction n as [n IH] using lt_wf_ind.
  destruct n as [|[|n]]; simp make_integer_sequence; try done.
  destruct (half_bounds (S (S n))) as [? ?]; [lia|].
  rewrite join_integer_sequences_length, !IH by lia. done.
Qed.

Lemma make_constant_integer_sequence_length n v :
  length (make_constant_integer_sequence n v) = n.
Proof.
  induction n as [n IH] using lt_wf_ind.
  destruct n as [|[|n]]; simp make_constant_integer_sequence; try done.
  destruct (half_bounds (S (S n))) as [? ?]; [lia|].
  rewrite join_integer_sequences_length, !IH by lia. done.
Qed.

Lemma shift_iota (h m : nat) :
  Z.of_nat (h + m) ≤ 2 ^ size_t_bits →
  (λ j, size_t_wrap (Z.of_nat h + j)) <$> (Z.of_nat <$> seq 0 m)
  = Z.of_nat <$> seq h m.
Proof.
  intros Hb.
  replace (seq h m) with (Nat.add h <$> seq 0 m)
    by (rewrite fmap_add_seq; f_equal; lia).
  rewrite <- !list_fmap_compose.
  apply Forall_fmap_ext_1. apply Forall_forall. intros j Hj.
  apply elem_of_seq in Hj. simpl.
  rewrite size_t_wrap_small; lia.
Qed.

Lemma make_integer_sequence_iota_aux n :
  Z.of_nat n ≤ 2 ^ size_t_bits →
  make_integer_sequence n = Z.of_nat <$> seq 0 n.
Proof.
  induction n as [n IH] using lt_wf_ind. intros Hb.
  destruct n as [|[|n]]; simp make_integer_sequence; try done.
  destruct (half_bounds (S (S n))) as [? Hs]; [lia|].
  rewrite !IH by lia. unfold join_integer_sequences.
  rewrite length_fmap, length_seq, shift_iota by lia.
  rewrite <- fmap_app, <- seq_app. by rewrite Hs.
Qed.

Lemma make_constant_integer_sequence_replicate_aux n v :
  0 ≤ v < 2 ^ size_t_bits →
  make_constant_integer_sequence n v = replicate n v.
Proof.
  intros Hv. induction n as [n IH] using lt_wf_ind.
  destruct n as [|[|n]]; simp make_constant_integer_sequence; try done.
  destruct (half_bounds (S (S n))) as [? Hs]; [lia|].
  rewrite !IH by lia. unfold join_integer_sequences.
  rewrite fmap_replicate, size_t_wrap_small by lia.
  rewrite <- replicate_add. by rewrite Hs.
Qed.

Lemma subset_iota {A} (t : list A) (b n : nat) :
  (b + n ≤ length t)%nat →
  subset t (Z.of_nat <$> seq b n) = Some (take n (drop b t)).
Proof.
  unfold subset. revert b. induction n as [|n IH]; intros b Hb; [done|].
  destruct (lookup_lt_is_Some_2 t b) as [x Hx]; [lia|].
  assert (at_ (Z.of_nat b) t = Some x) as Hat
    by (unfold at_; by rewrite Nat2Z.id).
  cbn [seq fmap list_fmap mapM]. rewrite Hat. simpl.
  rewrite IH by lia. simpl.
  by rewrite (drop_S _ _ _ Hx).
Qed.

Lemma range_indices (b n : nat) :
  Z.of_nat (b + n) ≤ 2 ^ size_t_bits →
  binary_op plus (make_integer_sequence n)
    (make_constant_integer_sequence n (Z.of_nat b))
  = Some (Z.of_nat <$> seq b n).
Proof.
  intros Hb. unfold binary_op.
  rewrite make_integer_sequence_length, make_constant_integer_sequence_length.
  rewrite decide_True by done. f_equal.
  destruct (decide (n = 0%nat)) as [->|Hn]; [done|].
  rewrite make_integer_sequence_iota_aux by lia.
  rewrite make_constant_integer_sequence_replicate_aux by lia.
  rewrite zip_with_replicate_r_eq by (rewrite length_fmap; apply length_seq).
  rewrite <- (shift_iota b n) by done.
  apply Forall_fmap_ext_1, Forall_forall. intros i _.
  unfold flip, plus. f_equal. lia.
Qed.

Lemma range_slice_aux {A} (t : list A) (b e : nat) :
  Z.of_nat (length t) < 2 ^ size_t_bits →
  (b ≤ e ≤ length t)%nat →
  range (Z.of_nat b) (Z.of_nat e) t = Some (take (e - b) (drop b t)).
Proof.
  intros Hfit Hbe. unfold range.
  rewrite size_t_wrap_small by lia.
  replace (Z.to_nat (Z.of_nat e - Z.of_nat b)) with (e - b)%nat by lia.
  rewrite range_indices by lia. simpl.
  apply subset_iota. lia.
Qed.

Lemma range_overrun {A} (t : list A) (b e : Z) :
  Z.of_nat (length t) < 2 ^ size_t_bits →
  0 ≤ b < 2 ^ size_t_bits → 0 ≤ e < 2 ^ size_t_bits →
  b ≠ e → ¬ (b ≤ e ≤ Z.of_nat (length t)) →
  range b e t = None.
Proof.
  intros Hfit Hb He Hne Hout. unfold range.
  set (n := Z.to_nat (size_t_wrap (e - b))).
  assert (0 < 2 ^ size_t_bits) as Hpos by lia.
  assert (0 ≤ size_t_wrap (e - b) < 2 ^ size_t_bits) as Hn
    by (by apply Z.mod_pos_bound).
  assert (size_t_wrap (e - b)
          = if decide (b ≤ e) then e - b else e - b + 2 ^ size_t_bits) as Hw.
  { unfold size_t_wrap. destruct (decide (b ≤ e)).
    - apply Z.mod_small. lia.
    - symmetry. apply (Z.mod_unique _ _ (-1)); lia. }
  replace b with (Z.of_nat (Z.to_nat b)) at 1 by lia.
  unfold binary_op.
  rewrite make_integer_sequence_length, make_constant_integer_sequence_length.
  rewrite decide_True by done. simpl.
  rewrite make_integer_sequence_iota_aux by lia.
  rewrite make_constant_integer_sequence_replicate_aux by lia.
  rewrite zip_with_replicate_r_eq by (rewrite length_fmap; apply length_seq).
  apply mapM_None_2, Exists_exists.
  set (i := (length t - Z.to_nat b)%nat).
  exists (plus (Z.of_nat i) b). split.
  - rewrite <- list_fmap_compose. apply list_elem_of_fmap.
    exists i. split; [unfold compose, flip; f_equal; lia|].
    apply elem_of_seq. destruct (decide (b ≤ e)); lia.
  - unfold at_, plus. apply lookup_ge_None.
    rewrite size_t_wrap_small; [lia|].
    destruct (decide (b ≤ e)); lia.
Qed.

Lemma head_tail_cons_aux {A} (x : A) (t : list A) :
  Z.of_nat (length (x :: t)) < 2 ^ size_t_bits →
  head (x :: t) = Some x ∧ tail (x :: t) = Some t.
Proof.
  intros Hfit. split; [done|]. unfold tail, size.
  etrans; [apply (range_slice_aux (x :: t) 1 (length (x :: t)));
           simpl in *; lia|].
  simpl. by rewrite Nat.sub_0_r, drop_0, take_ge by lia.
Qed.

Lemma accumulate_helper_foldl {I A} (o : I → A → I) (t : list A) (a : I) :
  Z.of_nat (length t) < 2 ^ size_t_bits →
  accumulate_helper (S (length t)) a t o = Some (foldl o a t).
Proof.
  revert a. induction t as [|x t IH]; intros a Hfit; [done|].
  destruct (head_tail_cons_aux x t Hfit) as [Hh Ht].
  cbn [length accumulate_helper size]. rewrite Hh, Ht. simpl.
  apply IH. simpl in Hfit. lia.
Qed.

Lemma join_unadjusted is_ js :
  in_range js → join_integer_sequences is_ js false = is_ ++ js.
Proof.
  intros Hjs. unfold join_integer_sequences. f_equal.
  rewrite <- (list_fmap_id js) at 2.
  apply Forall_fmap_ext_1. eapply Forall_impl; [exact Hjs|].
  intros v Hv. simpl. by apply size_t_wrap_small.
Qed.

Lemma integer_sequence_cat_concat t1 tn :
  Forall in_range tn →
  integer_sequence_cat_helper t1 tn = concat (t1 :: tn).
Proof.
  revert t1. induction tn as [|t2 tn IH]; intros t1 Hr.
  - simpl. by rewrite app_nil_r.
  - inversion Hr as [|?? H2 Hn]; subst.
    cbn [integer_sequence_cat_helper]. rewrite IH by done.
    rewrite join_unadjusted; [done|].
    simpl. apply Forall_app. split; [done|].
    by apply Forall_concat.
Qed.

Lemma value_pack_cat_concat {A} (t1 : list A) tn :
  value_pack_cat_helper t1 tn = concat (t1 :: tn).
Proof.
  revert t1. induction tn as [|t2 tn IH]; intros t1.
  - simpl. by rewrite app_nil_r.
  - cbn [value_pack_cat_helper]. by rewrite IH.
Qed.

Lemma kept_in_range idxs selected :
  in_range idxs → in_range (kept idxs selected).
Proof.
  revert selected. induction idxs as [|i idxs IH]; intros [|s sel] Hr;
    try by constructor.
  inversion Hr; subst. simpl. apply Forall_app. split; [|by apply IH].
  destruct s; [apply Forall_cons_2; [done|apply Forall_nil_2]
             |apply Forall_nil_2].
Qed.

Lemma index_if_kept idxs selected :
  in_range idxs → length idxs = length selected →
  index_if idxs selected = Some (kept idxs selected).
Proof.
  revert selected. induction idxs as [|i idxs IH]; intros [|s sel] Hr Hlen;
    try done.
  inversion Hr; subst. injection Hlen as Hlen.
  destruct idxs as [|j idxs].
  - destruct sel; [|done]. by destruct s.
  - destruct sel as [|s' sel]; [done|].
    change (index_if (i :: j :: idxs) (s :: s' :: sel))
      with (rest ← index_if (j :: idxs) (s' :: sel);
            Some (integer_sequence_cat_helper
                    (if s then [i] else []) [rest])).
    rewrite IH by done. simpl.
    rewrite join_unadjusted; [done|].
    by apply (kept_in_range (j :: idxs) (s' :: sel)).
Qed.

Lemma at_iota {A B} (f : A → B) (t : list A) (b n : nat) :
  (b + n ≤ length t)%nat →
  mapM (λ i, f <$> at_ i t) (Z.of_nat <$> seq b n)
  = Some (f <$> take n (drop b t)).
Proof.
  revert b. induction n as [|n IH]; intros b Hb; [done|].
  destruct (lookup_lt_is_Some_2 t b) as [x Hx]; [lia|].
  assert (at_ (Z.of_nat b) t = Some x) as Hat
    by (unfold at_; by rewrite Nat2Z.id).
  cbn [seq fmap list_fmap mapM]. rewrite Hat. simpl.
  rewrite IH by lia. simpl.
  by rewrite (drop_S _ _ _ Hx).
Qed.

Lemma at_all {A B} (f : A → B) (t : list A) :
  Z.of_nat (length t) ≤ 2 ^ size_t_bits →
  mapM (λ i, f <$> at_ i t) (make_integer_sequence (size t))
  = Some (f <$> t).
Proof.
  intros Hfit. unfold size.
  rewrite make_integer_sequence_iota_aux, at_iota by (done || lia).
  by rewrite drop_0, firstn_all.
Qed.

Lemma kept_app l1 l2 s1 s2 :
  length l1 = length s1 →
  kept (l1 ++ l2) (s1 ++ s2) = kept l1 s1 ++ kept l2 s2.
Proof.
  revert s1. induction l1 as [|i l1 IH]; intros [|s s1] Hlen; try done.
  injection Hlen as Hlen. simpl. by rewrite IH, app_assoc.
Qed.

Lemma filter_ext_in {A} (P1 P2 : A → Prop)
    `{∀ x, Decision (P1 x)} `{∀ x, Decision (P2 x)} (l : list A) :
  (∀ x, x ∈ l → P1 x ↔ P2 x) → filter P1 l = filter P2 l.
Proof.
  induction l as [|x l IH]; intros Hext; [done|].
  rewrite !filter_cons.
  rewrite IH by (intros; apply Hext; by right).
  assert (P1 x ↔ P2 x) as Hx by (apply Hext; by left).
  destruct (decide (P1 x)), (decide (P2 x)); tauto.
Qed.

Lemma positions_snoc {A} (o : A → bool) (t : list A) (x : A) :
  positions o (t ++ [x])
  = positions o t ++ (if o x then [length t] else []).
Proof.
  unfold positions. rewrite length_app. simpl.
  rewrite Nat.add_1_r, seq_S, filter_app. simpl. f_equal.
  - apply filter_ext_in. intros i Hi. apply elem_of_seq in Hi.
    by rewrite lookup_app_l by lia.
  - rewrite filter_cons, filter_nil.
    rewrite list_lookup_middle by done. simpl.
    destruct (o x); by destruct (decide _).
Qed.

Lemma elem_of_positions {A} (o : A → bool) (t : list A) (i : nat) :
  i ∈ positions o t ↔ ∃ x, t !! i = Some x ∧ o x = true.
Proof.
  unfold positions. rewrite list_elem_of_filter, elem_of_seq. split.
  - intros [Ho _]. destruct (t !! i) as [x|]; [|done].
    exists x. split; [done|]. simpl in Ho. by destruct (o x).
  - intros (x & Hx & Ho). rewrite Hx. simpl. rewrite Ho.
    split; [done|]. apply lookup_lt_Some in Hx. lia.
Qed.

Lemma kept_positions {A} (o : A → bool) (t : list A) :
  kept (Z.of_nat <$> seq 0 (length t)) (o <$> t)
  = Z.of_nat <$> positions o t.
Proof.
  induction t as [|x t IH] using rev_ind; [done|].
  rewrite positions_snoc, length_app. simpl.
  rewrite Nat.add_1_r, seq_S, !fmap_app, kept_app, IH
    by (by rewrite !length_fmap, length_seq).
  f_equal. simpl. by destruct (o x).
Qed.

Lemma find_if_positions_aux {A} (o : A → bool) (t : list A) :
  Z.of_nat (length t) ≤ 2 ^ size_t_bits →
  find_if o t = Some (Z.of_nat <$> positions o t).
Proof.
  intros Hfit. unfold find_if. rewrite at_all by done. simpl.
  unfold size. rewrite make_integer_sequence_iota_aux by done.
  rewrite index_if_kept.
  - by rewrite kept_positions.
  - apply Forall_fmap, Forall_forall. intros i Hi.
    apply elem_of_seq in Hi. simpl. lia.
  - by rewrite !length_fmap, length_seq.
Qed.

Lemma subset_positions {A} (o : A → bool) (t : list A) :
  subset t (Z.of_nat <$> positions o t) = Some (filter o t).
Proof.
  apply mapM_Some_2.
  induction t as [|x t IH] using rev_ind; [constructor|].
  rewrite positions_snoc, fmap_app, filter_app. apply Forall2_app.
  - eapply Forall2_impl; [exact IH|]. intros i y. unfold at_. intros Hy.
    by apply lookup_app_l_Some.
  - rewrite filter_cons, filter_nil. destruct (o x).
    + simpl. repeat constructor.
      unfold at_. rewrite Nat2Z.id. by apply list_lookup_middle.
    + simpl. constructor.
Qed.

Lemma positions_NoDup {A} (o : A → bool) (t : list A) :
  NoDup (positions o t).
Proof. apply NoDup_filter, NoDup_seq. Qed.

Lemma filter_positions_length {A} (o : A → bool) (t : list A) :
  length (positions o t) = length (filter o t).
Proof.
  pose proof (subset_positions o t) as Hs. apply length_mapM in Hs.
  by rewrite length_fmap in Hs.
Qed.

Lemma find_positions {A} (o : A → bool) (t : list A) (i : Z) :
  Z.of_nat (length t) ≤ 2 ^ size_t_bits →
  find o t = Some i ↔ positions o t = [Z.to_nat i] ∧ 0 ≤ i.
Proof.
  intros Hfit. unfold find. rewrite find_if_positions_aux by done. simpl.
  unfold size, head, at_. rewrite length_fmap.
  destruct (positions o t) as [|k [|k' l]] eqn:Hp; simpl.
  - split; [done|by intros [? ?]].
  - split.
    + intros [= <-]. split; [by rewrite Nat2Z.id|lia].
    + intros [[= ->] Hi]. f_equal. lia.
  - split; [done|by intros [? ?]].
Qed.

Lemma singleton_positions {A} (o : A → bool) (t : list A) (n : nat) :
  positions o t = [n]
  ↔ (∃ x, t !! n = Some x ∧ o x = true)
    ∧ ∀ m y, t !! m = Some y → o y = true → m = n.
Proof.
  split.
  - intros Hp. split.
    + apply elem_of_positions. rewrite Hp. by left.
    + intros m y Hy Ho.
      assert (m ∈ positions o t) as Hm
        by (apply elem_of_positions; eauto).
      rewrite Hp in Hm. by apply list_elem_of_singleton in Hm.
  - intros [Hn Huniq].
    pose proof (positions_NoDup o t) as Hnd.
    assert (∀ m, m ∈ positions o t → m = n) as Hall.
    { intros m Hm. apply elem_of_positions in Hm as (y & Hy & Ho). eauto. }
    apply elem_of_positions in Hn.
    destruct (positions o t) as [|k [|k' l]].
    + by apply elem_of_nil in Hn.
    + f_equal. apply Hall. by left.
    + exfalso. apply NoDup_cons in Hnd as [Hk _]. apply Hk.
      rewrite (Hall k) by (by left).
      rewrite (Hall k') by (right; by left). by left.
Qed.

Lemma find_exactly_one {A} (o : A → bool) (t : list A) (i : Z) :
  Z.of_nat (length t) ≤ 2 ^ size_t_bits →
  find o t = Some i
  ↔ 0 ≤ i
    ∧ (∃ x, t !! Z.to_nat i = Some x ∧ o x = true)
    ∧ ∀ m y, t !! m = Some y → o y = true → m = Z.to_nat i.
Proof.
  intros Hfit. rewrite find_positions, singleton_positions by done.
  tauto.
Qed.

Lemma count_if_filter {A} (o : A → bool) (t : list A) :
  Z.of_nat (length t) ≤ 2 ^ size_t_bits →
  count_if o t = Some (length (filter o t)).
Proof.
  intros Hfit. unfold count_if. rewrite find_if_positions_aux by done.
  simpl. unfold size. by rewrite length_fmap, filter_positions_length.
Qed.

Lemma filter_is_value {A} `{EqDecision A} (v : A) (s : list A) :
  (0 < length (filter (is_value v) s))%nat ↔ v ∈ s.
Proof.
  split.
  - intros Hlen. destruct (filter (is_value v) s) as [|w l] eqn:Hf;
      [simpl in Hlen; lia|].
    assert (w ∈ filter (is_value v) s) as Hw by (rewrite Hf; by left).
    apply list_elem_of_filter in Hw as [Hw Hin].
    unfold is_value in Hw. apply bool_decide_unpack in Hw. by subst.
  - intros Hin.
    assert (v ∈ filter (is_value v) s) as Hv.
    { apply list_elem_of_filter. split; [|done].
      unfold is_value. by apply bool_decide_pack. }
    destruct (filter (is_value v) s); [by apply elem_of_nil in Hv|].
    simpl. lia.
Qed.

Lemma is_value_in_elem_of {A} `{EqDecision A} (v : A) (s : list A) :
  Z.of_nat (length s) ≤ 2 ^ size_t_bits →
  is_value_in v s = Some (bool_decide (v ∈ s)).
Proof.
  intros Hfit. unfold is_value_in. rewrite count_if_filter by done.
  simpl. f_equal. apply bool_decide_ext, filter_is_value.
Qed.

Lemma insert_value_into_eq {A} `{EqDecision A} (v : A) (s : list A) :
  Z.of_nat (length s) ≤ 2 ^ size_t_bits →
  insert_value_into v s = Some (if decide (v ∈ s) then s else s ++ [v]).
Proof.
  intros Hfit. unfold insert_value_into.
  rewrite is_value_in_elem_of by done. simpl.
  unfold join_value_packs.
  destruct (decide (v ∈ s));
    [by rewrite bool_decide_eq_true_2|by rewrite bool_decide_eq_false_2].
Qed.

Lemma for_each_steps {A S} (f : A → S → S) (v : list A) (s : S)
    (b n : nat) :
  (b + n ≤ length v)%nat →
  foldl (λ acc i, s' ← acc; x ← at_ i v; Some (f x s')) (Some s)
    (Z.of_nat <$> seq b n)
  = Some (foldl (λ s' x, f x s') s (take n (drop b v))).
Proof.
  revert b s. induction n as [|n IH]; intros b s Hb; [done|].
  destruct (lookup_lt_is_Some_2 v b) as [x Hx]; [lia|].
  assert (at_ (Z.of_nat b) v = Some x) as Hat
    by (unfold at_; by rewrite Nat2Z.id).
  cbn [seq fmap list_fmap foldl]. simpl. rewrite Hat. simpl.
  rewrite IH by lia. by rewrite (drop_S _ _ _ Hx).
Qed.

End mpt_facts.
End MptFacts.

(** ** The metaprogramming toolkit: sequences, searches and folds *)

Section mpt_properties.
Import Mpt MptFacts.
Context `{SizeT}.

(** X1 ([mpt::make_integer_sequence]).  For a size that [std::size_t]
    can hold, the sequence built by halving is [0, 1, ..., n - 1]. *)
Theorem make_integer_sequence_iota (n : nat) :
  Z.of_nat n ≤ 2 ^ size_t_bits →
  make_integer_sequence n = Z.of_nat <$> seq 0 n.
Proof. apply make_integer_sequence_iota_aux. Qed.

(** X2 ([mpt::make_constant_integer_sequence]).  For a value of
    [std::size_t], the sequence built by halving is [n] copies of the
    value. *)
Theorem make_constant_integer_sequence_replicate (n : nat) (v : Z) :
  0 ≤ v < 2 ^ size_t_bits →
  make_constant_integer_sequence n v = replicate n v.
Proof. apply make_constant_integer_sequence_replicate_aux. Qed.

(** X3 ([mpt::range]).  With [begin <= end <= size], [range<begin,
    end>(t)] is the elements of [t] at the positions [begin] to
    [end - 1], in order. *)
Theorem range_slice {A : Type} (t : list A) (b e : Z) :
  Z.of_nat (length t) < 2 ^ size_t_bits →
  0 ≤ b ≤ e → e ≤ Z.of_nat (length t) →
  range b e t = Some (take (Z.to_nat (e - b)) (drop (Z.to_nat b) t)).
Proof.
  intros Hfit Hb He.
  replace (Z.to_nat (e - b)) with (Z.to_nat e - Z.to_nat b)%nat by lia.
  rewrite <- (range_slice_aux t (Z.to_nat b) (Z.to_nat e)) by lia.
  f_equal; lia.
Qed.

(** X4 ([mpt::range]).  With [begin] different from [end], and not
    [begin <= end <= size], [range<begin, end>(t)] has no value: one of
    the indices it asks for is past the end of [t]. *)
Theorem range_out_of_bounds {A : Type} (t : list A) (b e : Z) :
  Z.of_nat (length t) < 2 ^ size_t_bits →
  0 ≤ b < 2 ^ size_t_bits → 0 ≤ e < 2 ^ size_t_bits →
  b ≠ e → ¬ (b ≤ e ≤ Z.of_nat (length t)) →
  range b e t = None.
Proof. apply range_overrun. Qed.

(** X5 ([mpt::head], [mpt::tail]).  Of a sequence with a first element,
    [head] is that element and [tail] the rest; of the empty sequence
    neither has a value. *)
Theorem head_tail_cases {A : Type} (t : list A) :
  1 ≤ size_t_bits → Z.of_nat (length t) < 2 ^ size_t_bits →
  match t with
  | [] => head t = None ∧ tail t = None
  | x :: t' => head t = Some x ∧ tail t = Some t'
  end.
Proof.
  intros Hbits Hfit. destruct t as [|x t'].
  - split; [done|]. unfold tail, size.
    assert (2 ^ 1 ≤ 2 ^ size_t_bits) by (apply Z.pow_le_mono_r; lia).
    apply range_overrun; simpl; lia.
  - by apply head_tail_cons_aux.
Qed.

(** X6 ([mpt::accumulate]).  [accumulate(a, t, o)] is the left fold of
    [o] over the elements of [t], from [a]. *)
Theorem accumulate_foldl {I A : Type} (a : I) (t : list A) (o : I → A → I) :
  Z.of_nat (length t) < 2 ^ size_t_bits →
  accumulate a t o = Some (foldl o a t).
Proof. apply accumulate_helper_foldl. Qed.

(** X7 ([mpt::cat]).  [cat] of integer sequences of [std::size_t]
    values, and of value packs, is the sequences one after the other. *)
Theorem cat_concat {A : Type} (t1 : list Z) (tn : list (list Z))
    (v1 : list A) (vn : list (list A)) :
  Forall in_range tn →
  integer_sequence_cat_helper t1 tn = concat (t1 :: tn)
  ∧ value_pack_cat_helper v1 vn = concat (v1 :: vn).
Proof.
  intros Hr. split;
    [by apply integer_sequence_cat_concat|apply value_pack_cat_concat].
Qed.

(** X8 ([mpt::find_if]).  [find_if<T, O>] is the positions of the
    elements of [T] that satisfy [O], in increasing order. *)
Theorem find_if_positions {A : Type} (o : A → bool) (t : list A) :
  Z.of_nat (length t) ≤ 2 ^ size_t_bits →
  find_if o t = Some (Z.of_nat <$> positions o t).
Proof. apply find_if_positions_aux. Qed.

(** X9 ([mpt::filter_if], [mpt::count_if]).  [filter_if<T, O>] is the
    elements of [T] that satisfy [O], in their order, and [count_if<T,
    O>] their number. *)
Theorem filter_if_count_if {A : Type} (o : A → bool) (t : list A) :
  Z.of_nat (length t) ≤ 2 ^ size_t_bits →
  filter_if o t = Some (filter o t)
  ∧ count_if o t = Some (length (filter o t)).
Proof.
  intros Hfit. split; [|by apply count_if_filter].
  unfold filter_if. rewrite find_if_positions_aux by done. simpl.
  apply subset_positions.
Qed.

(** X10 ([mpt::find]).  [find<T, O>] has the value [i] exactly when the
    element at [i] satisfies [O] and no element elsewhere does; with no
    such element, or with two, it has none. *)
Theorem find_unique {A : Type} (o : A → bool) (t : list A) (i : Z) :
  Z.of_nat (length t) ≤ 2 ^ size_t_bits →
  find o t = Some i
  ↔ 0 ≤ i
    ∧ (∃ x, t !! Z.to_nat i = Some x ∧ o x = true)
    ∧ ∀ m y, t !! m = Some y → o y = true → m = Z.to_nat i.
Proof. apply find_exactly_one. Qed.

(** X11 ([mpt::is_value_in], [mpt::insert_value_into]).  [is_value_in]
    tells whether the value occurs in the pack; [insert_value_into]
    leaves a pack that has the value as it is and appends the value to
    one that has not. *)
Theorem insert_value_into_cases {A : Type} `{EqDecision A}
    (v : A) (s : list A) :
  Z.of_nat (length s) ≤ 2 ^ size_t_bits →
  is_value_in v s = Some (bool_decide (v ∈ s))
  ∧ insert_value_into v s = Some (if decide (v ∈ s) then s else s ++ [v]).
Proof.
  intros Hfit. split;
    [by apply is_value_in_elem_of|by apply insert_value_into_eq].
Qed.

(** X12 ([mpt::insert_value_into]).  Inserting a value into a pack
    without repetitions gives a pack without repetitions that has the
    value and the elements of the first, and inserting the value again
    changes nothing. *)
Theorem insert_value_into_set {A : Type} `{EqDecision A}
    (v : A) (s : list A) :
  Z.of_nat (length s) < 2 ^ size_t_bits →
  NoDup s →
  ∃ r, insert_value_into v s = Some r
       ∧ NoDup r
       ∧ (∀ w, w ∈ r ↔ w = v ∨ w ∈ s)
       ∧ insert_value_into v r = Some r.
Proof.
  intros Hfit Hnd.
  exists (if decide (v ∈ s) then s else s ++ [v]).
  split; [apply insert_value_into_eq; lia|].
  destruct (decide (v ∈ s)) as [Hin|Hout].
  - split; [done|]. split; [intros w; split; [by right|by intros [->|?]]|].
    rewrite insert_value_into_eq by lia.
    by rewrite decide_True.
  - split; [|split].
    + apply NoDup_app. split; [done|]. split; [|apply NoDup_singleton].
      intros w Hw ->%list_elem_of_singleton. done.
    + intros w. rewrite elem_of_app, list_elem_of_singleton. tauto.
    + rewrite insert_value_into_eq
        by (rewrite length_app; simpl; lia).
      rewrite decide_True; [done|].
      apply elem_of_app. right. by left.
Qed.

(** X13 ([mpt::transform], [mpt::for_each]).  [transform(v, f)] is [f]
    of each element of [v], in order; [for_each(v, f)] calls [f] on each
    element once, from the first to the last. *)
Theorem transform_for_each {A B S : Type} (v : list A) (f : A → B)
    (g : A → S → S) (s : S) :
  Z.of_nat (length v) ≤ 2 ^ size_t_bits →
  transform v f = Some (f <$> v)
  ∧ for_each v g s = Some (foldl (λ s' x, g x s') s v).
Proof.
  intros Hfit. split; [by apply at_all|].
  unfold for_each, size.
  rewrite make_integer_sequence_iota_aux, for_each_steps by (done || lia).
  by rewrite drop_0, firstn_all.
Qed.

End mpt_properties.

(** ** Field names and dynamic classes *)

Section serializable_properties.
Import Mpt MptFacts Serializable.
Context `{SizeT}.
Variable ARPC_FIELDS : class → list string.
Variable is_dynamic : class → bool.

Lemma count_filter_existsb {A} (p : A → bool) (l : list A) :
  bool_decide (0 < length (filter p l))%nat = existsb p l.
Proof.
  induction l as [|x l IH]; [done|].
  rewrite filter_cons. simpl. by destruct (p x).
Qed.

(** X14 ([field_descriptor::name]).  [name()] of the descriptor of a
    data member is the member's identifier, provided the class lists
    the member in [ARPC_FIELDS] once; for a member listed twice or not
    at all it has no value. *)
Theorem field_descriptor_name (d : field_descriptor) (s : string) :
  Z.of_nat (length (ARPC_FIELDS (class_type d))) ≤ 2 ^ size_t_bits →
  name ARPC_FIELDS d = Some s
  ↔ s = member d
    ∧ ∃ n, ARPC_FIELDS (class_type d) !! n = Some s
           ∧ ∀ m, ARPC_FIELDS (class_type d) !! m = Some s → m = n.
Proof.
  intros Hfit. unfold name, field_descriptors, field_names, ARPC_FIELD_NAME.
  rewrite list_fmap_id.
  set (fields := ARPC_FIELDS (class_type d)) in *.
  assert (∀ n x, (ARPC_FIELD (class_type d) <$> fields) !! n = Some x
                 → is_value d x = true
                 → fields !! n = Some (member d)) as Hdesc.
  { intros n x Hx Hv. rewrite list_lookup_fmap in Hx.
    destruct (fields !! n) as [f|]; [|done]. injection Hx as <-.
    unfold is_value in Hv. apply bool_decide_eq_true_1 in Hv.
    by rewrite <- Hv. }
  assert (∀ n, fields !! n = Some (member d)
               → ∃ x, (ARPC_FIELD (class_type d) <$> fields) !! n = Some x
                      ∧ is_value d x = true) as Hfield.
  { intros n Hn. exists d. rewrite list_lookup_fmap, Hn. split.
    - by destruct d.
    - unfold is_value. by apply bool_decide_eq_true_2. }
  split.
  - intros Hname.
    destruct (find _ _) as [i|] eqn:Hfind; [|done]. simpl in Hname.
    apply find_exactly_one in Hfind as (Hi & (x & Hx & Hv) & Huniq);
      [|by rewrite length_fmap].
    pose proof (Hdesc _ _ Hx Hv) as Hm.
    rewrite Hm in Hname. injection Hname as <-.
    split; [done|]. exists (Z.to_nat i). split; [done|].
    intros m Hm'. destruct (Hfield m Hm') as (y & Hy & Hvy). eauto.
  - intros (-> & n & Hn & Huniq).
    assert (find (is_value d) (ARPC_FIELD (class_type d) <$> fields)
            = Some (Z.of_nat n)) as ->.
    { apply find_exactly_one; [by rewrite length_fmap|].
      rewrite Nat2Z.id. split; [lia|]. split; [by apply Hfield|].
      intros m y Hy Hv. apply Huniq. by eapply Hdesc. }
    simpl. by rewrite Nat2Z.id.
Qed.

(** X15 ([serializable], [dynamic]).  [dynamic<OwnType, Bases...>]
    keeps the bases when one of them is dynamic and puts
    [dynamic_base_class] in front of them when none is; the mixin it
    selects is the dynamic one exactly when a base, or
    [dynamic_base_class], is dynamic. *)
Theorem dynamic_mixin (OwnType : class) (Bases : list class) :
  Z.of_nat (length Bases) < 2 ^ size_t_bits →
  dynamic is_dynamic OwnType Bases
  = Some {| dynamic_flag :=
              existsb is_dynamic Bases || is_dynamic dynamic_base_class;
            own_type := OwnType;
            base_classes :=
              if existsb is_dynamic Bases then Bases
              else dynamic_base_class :: Bases |}.
Proof.
  intros Hfit. unfold dynamic, serializable.
  rewrite !count_if_filter by (simpl; lia).
  cbn [mbind option_bind].
  rewrite !count_filter_existsb.
  change (existsb (dynamic_class_filter is_dynamic)) with (existsb is_dynamic).
  simpl. destruct (existsb is_dynamic Bases) eqn:Hex; [done|].
  by rewrite orb_false_r.
Qed.

End serializable_properties.

(** ** Sequences of the LP64 data model *)

Section mpt_samples.
Import Mpt Serializable Samples.

Lemma five_indices_example :
  make_integer_sequence 5 = [0; 1; 2; 3; 4].
Proof. apply (make_integer_sequence_iota 5). by vm_compute. Defined.

Lemma three_sevens_example :
  make_constant_integer_sequence 3 7 = [7; 7; 7].
Proof.
  apply (make_constant_integer_sequence_replicate 3 7). by vm_compute.
Defined.

Lemma range_1_3_example :
  range 1 3 ["a"; "b"; "c"; "d"] = Some ["b"; "c"].
Proof.
  apply (range_slice ["a"; "b"; "c"; "d"] 1 3); by vm_compute.
Defined.

Lemma range_3_1_example :
  range 3 1 ["a"; "b"; "c"; "d"] = None.
Proof.
  apply (range_out_of_bounds ["a"; "b"; "c"; "d"] 3 1);
    unfold size_t_bits, lp64; simpl; lia.
Defined.

Lemma head_tail_example :
  head ["a"; "b"; "c"] = Some "a" ∧ tail ["a"; "b"; "c"] = Some ["b"; "c"].
Proof. apply (head_tail_cases ["a"; "b"; "c"]); by vm_compute. Defined.

Lemma accumulate_sum_example :
  accumulate 0 [1; 2; 3; 4] Z.add = Some 10.
Proof. apply (accumulate_foldl 0 [1; 2; 3; 4] Z.add). by vm_compute. Defined.

Lemma cat_three_example :
  integer_sequence_cat_helper [0; 1] [[5]; [2; 3]] = [0; 1; 5; 2; 3]
  ∧ value_pack_cat_helper ["a"] [["b"; "c"]; []] = ["a"; "b"; "c"].
Proof.
  apply (cat_concat [0; 1] [[5]; [2; 3]] ["a"] [["b"; "c"]; []]).
  repeat constructor; by vm_compute.
Defined.

Lemma find_if_even_example :
  find_if Z.even [4; 7; 6; 1; 0] = Some [0; 2; 4].
Proof. apply (find_if_positions Z.even [4; 7; 6; 1; 0]). by vm_compute. Defined.

Lemma filter_count_even_example :
  filter_if Z.even [4; 7; 6; 1; 0] = Some [4; 6; 0]
  ∧ count_if Z.even [4; 7; 6; 1; 0] = Some 3%nat.
Proof. apply (filter_if_count_if Z.even [4; 7; 6; 1; 0]). by vm_compute. Defined.

Lemma find_odd_example :
  find (is_value 7) [4; 7; 6] = Some 1.
Proof.
  assert (Z.of_nat (length [4; 7; 6]) ≤ 2 ^ size_t_bits) as Hfit
    by (by vm_compute).
  apply (find_unique (is_value 7) [4; 7; 6] 1 Hfit).
  split; [lia|]. split; [by exists 7|].
  intros [|[|[|m]]] y [= <-]; done.
Defined.

Lemma insert_present_absent_example :
  is_value_in 7 [4; 7] = Some true
  ∧ insert_value_into 7 [4; 7] = Some [4; 7].
Proof.
  assert (7 ∈ [4; 7]) as Hin by (right; left).
  destruct (insert_value_into_cases 7 [4; 7]) as [Hv Hi]; [by vm_compute|].
  by rewrite Hv, Hi, bool_decide_eq_true_2, decide_True.
Defined.

Lemma insert_new_value_example :
  ∃ r, insert_value_into 9 [4; 7] = Some r
       ∧ NoDup r
       ∧ (∀ w, w ∈ r ↔ w = 9 ∨ w ∈ [4; 7])
       ∧ insert_value_into 9 r = Some r.
Proof.
  apply (insert_value_into_set 9 [4; 7]); [by vm_compute|].
  apply NoDup_cons. split; [|apply NoDup_singleton].
  by intros [=]%list_elem_of_singleton.
Defined.

Lemma transform_for_each_example :
  transform [1; 2; 3] Z.succ = Some [2; 3; 4]
  ∧ for_each [1; 2; 3] (λ x (l : list Z), x :: l) [] = Some [3; 2; 1].
Proof.
  apply (transform_for_each [1; 2; 3] Z.succ (λ x (l : list Z), x :: l) []).
  by vm_compute.
Defined.

Lemma point_y_name_example :
  name point_fields (ARPC_FIELD "point" "y") = Some "y".
Proof.
  assert (Z.of_nat (length (point_fields "point")) ≤ 2 ^ size_t_bits) as Hfit
    by (by vm_compute).
  apply (field_descriptor_name point_fields (ARPC_FIELD "point" "y") "y" Hfit).
  split; [done|]. exists 1%nat. split; [done|].
  intros [|[|[|m]]]; by simpl.
Defined.

Lemma dynamic_without_bases_example :
  dynamic only_dynamic_base_class "trace_id" []
  = Some {| dynamic_flag := true; own_type := "trace_id";
            base_classes := [dynamic_base_class] |}.
Proof.
  apply (dynamic_mixin only_dynamic_base_class "trace_id" []). by vm_compute.
Defined.

End mpt_samples.

(** ** Contexts: [set], [reset] and [get] *)

Section context_data_properties.
Import FlatMap FlatMapFacts Context.
Context {D : Type} `{DynamicBase D}.

Lemma get_lookup_key (T : Type) `{!DynamicClass D T} (c : context D) :
  get T c
  = (from_option static_cast (default_constructed T)
       (lookup_key (portable_class_name T) (data_ c)), c).
Proof.
  unfold get, lookup_key. case_bool_decide as Hit.
  - by destruct (data_ c !! _).
  - rewrite Hit.
    unfold end_. by rewrite (lookup_ge_None_2 (data_ c)) by lia.
Qed.

Lemma sorted_assign (m : flat_map string D) k v :
  sorted m → sorted (assign k v m).
Proof.
  intros Hs.
  destruct (assign_cases m k v Hs) as [(i & v' & Hi & ->)|(Hout & ->)].
  - by apply sorted_alter.
  - by apply sorted_insert_at.
Qed.

Lemma elem_of_assign (m : flat_map string D) k v k' v' :
  sorted m →
  (k', v') ∈ assign k v m ↔ (k' = k ∧ v' = v) ∨ (k' ≠ k ∧ (k', v') ∈ m).
Proof.
  intros Hs.
  destruct (assign_cases m k v Hs) as [(i & v0 & Hi & ->)|(Hout & ->)].
  - split.
    + intros [j Hj]%list_elem_of_lookup_1.
      destruct (decide (i = j)) as [<-|Hne].
      * rewrite list_lookup_alter, Hi in Hj. simpl in Hj.
        rewrite decide_True in Hj by done. simplify_eq. by left.
      * rewrite list_lookup_alter_ne in Hj by done. right. split.
        -- intros ->. apply Hne.
           by apply (sorted_lookup_inj m i j (k, v0) (k, v')).
        -- by eapply list_elem_of_lookup_2.
    + intros [[-> ->]|[Hne [j Hj]%list_elem_of_lookup_1]].
      * apply (list_elem_of_lookup_2 _ i).
        rewrite list_lookup_alter, Hi. simpl. by rewrite decide_True.
      * apply (list_elem_of_lookup_2 _ j).
        rewrite list_lookup_alter_ne; [done|].
        intros <-. rewrite Hi in Hj. by simplify_eq.
  - assert ((k', v') ∈ m
            ↔ (k', v') ∈ take (lower_bound k m) m
              ∨ (k', v') ∈ drop (lower_bound k m) m) as Hm
      by (by rewrite <- elem_of_app, take_drop).
    assert ((k', v') ∈ m → k' ≠ k) as Hk.
    { intros [j Hj]%list_elem_of_lookup_1 ->. apply Hout.
      apply elem_of_keys. eauto. }
    unfold insert_at. rewrite elem_of_app, elem_of_cons.
    split.
    + intros [Hin|[[= -> ->]|Hin]]; [right|by left|right]; tauto.
    + intros [[-> ->]|[_ Hin]]; tauto.
Qed.

Lemma lookup_key_assign (m : flat_map string D) k v k' :
  sorted m →
  lookup_key k' (assign k v m)
  = if decide (k' = k) then Some v else lookup_key k' m.
Proof.
  intros Hs. apply option_eq. intros v'.
  rewrite lookup_key_Some, elem_of_assign by (done || by apply sorted_assign).
  destruct (decide (k' = k)) as [->|Hne].
  - split; [intros [[_ ->]|[? _]]; done|intros [= ->]; by left].
  - rewrite lookup_key_Some by done.
    split; [intros [[? _]|[_ ?]]; done|by right].
Qed.

Lemma find_end_inv (m : flat_map string D) k :
  sorted m → find k m = end_ m → k ∉ keys m.
Proof.
  intros Hs He (i & v & Hi)%elem_of_keys.
  rewrite (find_lookup _ _ _ _ Hs Hi) in He.
  apply lookup_lt_Some in Hi. unfold end_ in He. lia.
Qed.

Lemma elem_of_erase_key (m : flat_map string D) k k' v' :
  sorted m →
  (k', v') ∈ (erase_key k m).2 ↔ k' ≠ k ∧ (k', v') ∈ m.
Proof.
  intros Hs. unfold erase_key. case_bool_decide as He; simpl.
  - split; [|tauto]. intros Hin. split; [|done]. intros ->.
    apply (find_end_inv m k Hs He), elem_of_keys.
    apply list_elem_of_lookup_1 in Hin as [j Hj]. eauto.
  - destruct (find_inv m k Hs He) as [v Hv].
    rewrite (delete_filter m _ k v Hs Hv), list_elem_of_filter. done.
Qed.

Lemma sorted_erase_key (m : flat_map string D) k :
  sorted m → sorted (erase_key k m).2.
Proof.
  intros Hs. unfold erase_key. case_bool_decide; simpl; [done|].
  by apply sorted_delete.
Qed.

Lemma lookup_key_erase_key (m : flat_map string D) k k' :
  sorted m →
  lookup_key k' (erase_key k m).2
  = if decide (k' = k) then None else lookup_key k' m.
Proof.
  intros Hs. apply option_eq. intros v'.
  rewrite lookup_key_Some, elem_of_erase_key
    by (done || by apply sorted_erase_key).
  destruct (decide (k' = k)) as [->|Hne].
  - split; [by intros [? _]|done].
  - rewrite lookup_key_Some by done. tauto.
Qed.

Lemma set_snoc vs v (c : context D) : set (vs ++ [v]) c = set_one v (set vs c).
Proof. unfold set. by rewrite foldl_app. Qed.

Lemma sorted_set vs (c : context D) :
  sorted (data_ c) → sorted (data_ (set vs c)).
Proof.
  intros Hs. induction vs as [|v vs IH] using rev_ind; [done|].
  rewrite set_snoc. unfold set_one. simpl. by apply sorted_assign.
Qed.

Lemma lookup_key_set vs (c : context D) k :
  sorted (data_ c) →
  lookup_key k (data_ (set vs c))
  = match last (filter (λ v, portable_class_name_of v = k) vs) with
    | Some v => Some v
    | None => lookup_key k (data_ c)
    end.
Proof.
  intros Hs. induction vs as [|v vs IH] using rev_ind; [done|].
  rewrite set_snoc, filter_app, filter_cons, filter_nil.
  unfold set_one at 1. simpl.
  rewrite lookup_key_assign by (by apply sorted_set).
  destruct (decide (portable_class_name_of v = k)) as [Heq|Hne].
  - rewrite decide_True by done. by rewrite last_snoc.
  - rewrite decide_False by done. by rewrite app_nil_r.
Qed.

Lemma reset_snoc Vs V (c : context D) :
  reset (Vs ++ [V]) c
  = @reset_one D _ (class_carrier V) (class_instance V) (reset Vs c).
Proof. unfold reset. by rewrite foldl_app. Qed.

Lemma sorted_reset Vs (c : context D) :
  sorted (data_ c) → sorted (data_ (reset Vs c)).
Proof.
  intros Hs. induction Vs as [|V Vs IH] using rev_ind; [done|].
  rewrite reset_snoc. unfold reset_one. simpl. by apply sorted_erase_key.
Qed.

Lemma lookup_key_reset Vs (c : context D) k :
  sorted (data_ c) →
  lookup_key k (data_ (reset Vs c))
  = if decide (k ∈ class_name <$> Vs) then None else lookup_key k (data_ c).
Proof.
  intros Hs. induction Vs as [|V Vs IH] using rev_ind.
  - done.
  - rewrite reset_snoc. unfold reset_one. simpl.
    rewrite lookup_key_erase_key by (by apply sorted_reset).
    rewrite IH, fmap_app. simpl. fold (class_name V).
    destruct (decide (k = class_name V)) as [->|Hne].
    + rewrite decide_True; [done|]. apply elem_of_app. right. by left.
    + destruct (decide (k ∈ class_name <$> Vs)) as [Hin|Hout].
      * rewrite decide_True; [done|]. apply elem_of_app. by left.
      * rewrite decide_False; [done|].
        rewrite elem_of_app, list_elem_of_singleton. tauto.
Qed.

(** X16 ([context::set], [context::get]).  After [set(v...)] on a
    context, [get<T>()] returns the last of the values [v...] whose
    portable class name is that of [T], viewed as a [T], and what it
    returned before [set] when there is none. *)
Theorem set_then_get (T : Type) `{!DynamicClass D T} (vs : list D)
    (c : context D) :
  sorted (data_ c) →
  (get T (set vs c)).1
  = match last (filter (λ v, portable_class_name_of v
                              = portable_class_name T) vs) with
    | Some v => static_cast v
    | None => (get T c).1
    end.
Proof.
  intros Hs. rewrite !get_lookup_key. simpl.
  rewrite lookup_key_set by done. by destruct (last _).
Qed.

(** X17 ([context::reset], [context::get]).  After [reset<V...>()] on a
    context, [get<T>()] returns the default instance of [T] when the
    portable class name of [T] is that of one of the classes [V...],
    and what it returned before [reset] otherwise. *)
Theorem reset_then_get (T : Type) `{!DynamicClass D T}
    (Vs : list dynamic_class) (c : context D) :
  sorted (data_ c) →
  (get T (reset Vs c)).1
  = if decide (portable_class_name T ∈ class_name <$> Vs)
    then default_constructed T
    else (get T c).1.
Proof.
  intros Hs. rewrite !get_lookup_key. simpl.
  rewrite lookup_key_reset by done. by destruct (decide _).
Qed.

End context_data_properties.

Lemma trace_id_set_example :
  let c := Context.set [("trace_id"%string, 1); ("span_id"%string, 5);
                        ("trace_id"%string, 42)] Context.root in
  (Context.get Samples.trace_id c).1 = 42.
Proof.
  intros c. unfold c.
  rewrite (set_then_get (D:=Samples.tagged) Samples.trace_id
             [("trace_id"%string, 1); ("span_id"%string, 5);
              ("trace_id"%string, 42)] Context.root) by constructor.
  reflexivity.
Defined.

Lemma trace_id_reset_example :
  let c := Context.set_one ("trace_id"%string, 42) Context.root in
  (Context.get Samples.trace_id
     (Context.reset
        [ {| Context.class_carrier := Samples.trace_id;
             Context.class_instance := Samples.trace_id_class |} ] c)).1
  = 0.
Proof.
  intros c.
  rewrite (reset_then_get (D:=Samples.tagged) Samples.trace_id
             [ {| Context.class_carrier := Samples.trace_id;
                  Context.class_instance := Samples.trace_id_class |} ] c)
    by repeat constructor.
  reflexivity.
Defined.

(** ** The client engine: the two threads and the calls as a whole *)

Section client_engine_properties.
Import FlatMap FlatMapFacts Errors Client ClientFacts.
Context {C : Type} `{Connection C} `{Codec} `{QueueCapacity} `{SystemClock}.
Implicit Types (st : client_connection C) (m : flat_map Z pending_request).

#[local] Abbreviation earlier :=
  (λ (earliest : option Z) (p : Z * pending_request),
     match deadline p.2 with
     | Some d => match earliest with
                 | Some e => Some (Z.min e d)
                 | None => Some d
                 end
     | None => earliest
     end).

Lemma earliest_foldl m acc :
  let r := foldl earlier acc m in
  (r = None ↔ acc = None ∧ ∀ kv, kv ∈ m → deadline kv.2 = None)
  ∧ (∀ d, r = Some d →
       (acc = Some d ∨ ∃ kv, kv ∈ m ∧ deadline kv.2 = Some d)
       ∧ (∀ e, acc = Some e → d ≤ e)
       ∧ (∀ kv d', kv ∈ m → deadline kv.2 = Some d' → d ≤ d')).
Proof.
  induction m as [|kv m IH] using rev_ind; intros r.
  - subst r. simpl. split.
    + split; [intros ->; split; [done|by intros ? ?%elem_of_nil]|by intros [-> _]].
    + intros d ->. split; [by left|]. split.
      * intros e [= ->]. lia.
      * by intros ? ? ?%elem_of_nil.
  - subst r. rewrite foldl_app. simpl in *.
    remember (foldl earlier acc m) as r eqn:Hre. clear Hre.
    destruct IH as [IHn IHs]. split.
    + destruct (deadline kv.2) as [d|] eqn:Hd.
      * split.
        -- by destruct r.
        -- intros [_ Hall]. specialize (Hall kv).
           rewrite Hd in Hall. discriminate Hall.
           apply elem_of_app. right. by left.
      * rewrite IHn. split.
        -- intros [-> Hall]. split; [done|].
           intros kv' [Hin| ->%list_elem_of_singleton]%elem_of_app; auto.
        -- intros [-> Hall]. split; [done|].
           intros kv' Hin. apply Hall, elem_of_app. by left.
    + intros d' Hr.
      destruct (deadline kv.2) as [d|] eqn:Hd.
      * destruct r as [e|].
        -- injection Hr as <-.
           destruct (IHs e eq_refl) as (Hfrom & Hacc & Hle).
           split; [|split].
           ++ destruct (Z.min_spec e d) as [[_ ->]|[_ ->]].
              ** destruct Hfrom as [?|(kv' & Hin & Hkv')]; [by left|].
                 right. exists kv'. split; [|done].
                 apply elem_of_app. by left.
              ** right. exists kv. split; [|done].
                 apply elem_of_app. right. by left.
           ++ intros e' He'. specialize (Hacc e' He'). lia.
           ++ intros kv' d'' [Hin| ->%list_elem_of_singleton]%elem_of_app Hd''.
              ** specialize (Hle kv' d'' Hin Hd''). lia.
              ** rewrite Hd in Hd''. injection Hd'' as <-. lia.
        -- injection Hr as <-.
           destruct IHn as [IHn _]. destruct (IHn eq_refl) as [-> Hall].
           split; [|split].
           ++ right. exists kv. split; [|done].
              apply elem_of_app. right. by left.
           ++ done.
           ++ intros kv' d'' [Hin| ->%list_elem_of_singleton]%elem_of_app Hd''.
              ** by rewrite (Hall kv' Hin) in Hd''.
              ** rewrite Hd in Hd''. injection Hd'' as <-. lia.
      * destruct (IHs d' Hr) as (Hfrom & Hacc & Hle).
        split; [|split].
        -- destruct Hfrom as [?|(kv' & Hin & Hkv')]; [by left|].
           right. exists kv'. split; [|done]. apply elem_of_app. by left.
        -- done.
        -- intros kv' d'' [Hin| ->%list_elem_of_singleton]%elem_of_app Hd''.
           ++ by apply (Hle kv' d'' Hin Hd'').
           ++ by rewrite Hd in Hd''.
Qed.

(** X18 ([get_earliest_deadline]).  [get_earliest_deadline()] leaves the
    engine as it is and returns the least of the deadlines of the
    pending requests: nothing exactly when no pending request has a
    deadline, and otherwise the deadline of a pending request that no
    other deadline precedes. *)
Theorem get_earliest_deadline_least st :
  ∃ r, get_earliest_deadline st = (inr r, st)
    ∧ (r = None ↔ ∀ kv, kv ∈ pending_ st → deadline kv.2 = None)
    ∧ (∀ d, r = Some d →
         (∃ kv, kv ∈ pending_ st ∧ deadline kv.2 = Some d)
         ∧ ∀ kv d', kv ∈ pending_ st → deadline kv.2 = Some d' → d ≤ d').
Proof.
  eexists. split; [reflexivity|].
  destruct (earliest_foldl (pending_ st) None) as [Hn Hs].
  split.
  - rewrite Hn. split; [by intros [_ ?]|by split].
  - intros d Hd. destruct (Hs d Hd) as ([?|?] & _ & ?); done.
Qed.

(** X19 ([gc], [get_earliest_deadline]).  After [gc()] at clock reading
    [now] no pending request has a deadline that, converted to the
    clock's ticks in 64 bits, is less than [now]: a pending deadline
    whose conversion does not wrap around is not earlier than [now],
    and neither is the earliest deadline when its conversion does not
    wrap around; and another [gc()] at that or an earlier reading
    changes nothing and resolves no promise. *)
Theorem gc_leaves_none_timed_out (now now' : Z) st :
  now' ≤ now →
  let st' := exec (gc now) st in
  (∀ kv t, kv ∈ pending_ st' → deadline kv.2 = Some t → now ≤ to_ticks t)
  ∧ (∀ kv t, kv ∈ pending_ st' → deadline kv.2 = Some t → fits_ticks t →
             now ≤ t * ticks_per_ms)
  ∧ (∀ d, (get_earliest_deadline st').1 = inr (Some d) → fits_ticks d →
          now ≤ d * ticks_per_ms)
  ∧ gc now' st' = (inr tt, st').
Proof.
  intros Hnow st'.
  assert (∀ kv t, kv ∈ pending_ st' → deadline kv.2 = Some t →
                  now ≤ to_ticks t) as Hleft.
  { intros kv t Hin Ht. subst st'. unfold exec in Hin.
    rewrite gc_filter in Hin. cbn in Hin.
    apply list_elem_of_filter in Hin as [Hout _].
    unfold timed_out, deadline_before in Hout. rewrite Ht in Hout.
    destruct (Z.ltb_spec (to_ticks t) now) as [Hlt|Hge]; [|lia].
    by destruct Hout. }
  assert (∀ kv t, kv ∈ pending_ st' → deadline kv.2 = Some t →
                  fits_ticks t → now ≤ t * ticks_per_ms) as Hfits.
  { intros kv t Hin Ht Hfit. rewrite <- (to_ticks_fits t Hfit).
    by eapply Hleft. }
  split; [done|]. split; [done|]. split.
  - intros d Hd Hfit. injection Hd as Hd.
    destruct (earliest_foldl (pending_ st') None) as [_ Hs].
    destruct (Hs d Hd) as ([?|(kv & Hin & Hkv)] & _ & _); [done|].
    by eapply Hfits.
  - rewrite gc_filter.
    assert (Forall (λ kv, ¬ timed_out now' kv) (pending_ st')) as Hnone.
    { apply Forall_forall. intros kv Hin.
      unfold timed_out, deadline_before.
      destruct (deadline kv.2) as [t|] eqn:Ht; [|by intros []].
      specialize (Hleft kv t Hin Ht).
      destruct (Z.ltb_spec (to_ticks t) now') as [Hlt|Hge];
        [lia|by intros []]. }
    rewrite (filter_none _ _ Hnone), (filter_all _ _ Hnone).
    simpl. rewrite app_nil_r. subst st'. unfold exec.
    by rewrite gc_filter.
Qed.

Lemma run_op_frame o st :
  sorted (pending_ st) →
  ∃ st', run_op o st = (inr tt, st')
    ∧ st' = with_trace (trace st') (with_pending (pending_ st') st)
    ∧ (∃ tr, trace st' = trace st ++ tr)
    ∧ sorted (pending_ st')
    ∧ resolved (trace st') ++ promises (pending_ st')
      ≡ₚ resolved (trace st) ++ promises (pending_ st).
Proof.
  intros Hs. destruct (run_op_targets o st Hs) as (Hr & Hp & Ht).
  exists (exec (run_op o) st).
  assert (exec (run_op o) st
          = with_trace (trace (exec (run_op o) st))
              (with_pending (pending_ (exec (run_op o) st)) st)
          ∧ ∃ tr, trace (exec (run_op o) st) = trace st ++ tr) as [Hst Htr].
  { unfold exec. destruct o as [req_id response|now|req_id|exc]; cbn [run_op].
    - destruct (decide (req_id ∈ keys (pending_ st))) as [Hin|Hout].
      + apply elem_of_keys in Hin as (i & p & Hi).
        apply list_elem_of_lookup_2 in Hi.
        rewrite (set_response_present _ _ p _ Hs Hi). split; [done|].
        by eexists.
      + rewrite (set_response_absent _ _ _ Hs Hout).
        split; [by destruct st|]. exists []. by rewrite app_nil_r.
    - rewrite gc_filter. split; [done|]. by eexists.
    - destruct (decide (req_id ∈ keys (pending_ st))) as [Hin|Hout].
      + apply elem_of_keys in Hin as (i & p & Hi).
        apply list_elem_of_lookup_2 in Hi.
        rewrite (abandon_request_present _ p _ Hs Hi). split; [done|].
        by eexists.
      + rewrite (abandon_request_absent _ _ Hs Hout).
        split; [by destruct st|]. exists []. by rewrite app_nil_r.
    - rewrite broadcast_exception_all. split; [done|]. by eexists. }
  split_and!; [|done|done| |].
  - unfold exec in *. by destruct (run_op o st) as [[?|[]] ?]; simplify_eq/=.
  - rewrite Hp. by apply sorted_filter.
  - rewrite Hp, Ht, <- app_assoc. apply Permutation_app_head.
    unfold promises. rewrite <- fmap_app. apply fmap_Permutation.
    apply (filter_app_complement (λ kv, targets o kv)).
Qed.

Lemma receive_packet_cases response st :
  (∃ e, receive_packet response st = (inl e, st))
  ∨ (∃ req_id payload,
       receive_packet response st
       = run_op (op_set_response req_id payload) st).
Proof.
  unfold receive_packet.
  destruct (decode_message_type response) as [e|[[| | |tag] pos1]];
    try (left; by eexists).
  destruct (decode_request_id (drop pos1 response)) as [e|[req_id pos2]];
    [left; by eexists|right; by eexists _, _].
Qed.

Lemma receive_loop_raises packets closing st :
  sorted (pending_ st) →
  ∃ e st', receive_loop packets closing st = (inl e, st')
    ∧ st' = with_trace (trace st') (with_pending (pending_ st') st)
    ∧ (∃ tr, trace st' = trace st ++ tr)
    ∧ sorted (pending_ st')
    ∧ resolved (trace st') ++ promises (pending_ st')
      ≡ₚ resolved (trace st) ++ promises (pending_ st).
Proof.
  revert st. induction packets as [|response rest IH]; intros st Hs.
  - exists closing, st. split; [done|]. split; [by destruct st|].
    split; [|done]. exists []. by rewrite app_nil_r.
  - cbn [receive_loop]. unfold_M.
    destruct (receive_packet_cases response st)
      as [[e ->]|(req_id & payload & ->)].
    + exists e, st. split; [done|]. split; [by destruct st|].
      split; [|done]. exists []. by rewrite app_nil_r.
    + destruct (run_op_frame (op_set_response req_id payload) st Hs)
        as (st1 & -> & Hst1 & [tr1 Htr1] & Hs1 & Hperm1).
      destruct (IH st1 Hs1)
        as (e & st2 & -> & Hst2 & [tr2 Htr2] & Hs2 & Hperm2).
      exists e, st2. split; [done|]. split_and!; [| |done|by etrans].
      * rewrite Hst2 at 1. rewrite Hst1. done.
      * exists (tr1 ++ tr2). by rewrite Htr2, Htr1, app_assoc.
Qed.

Lemma receive_run (packets : list bytes) (closing : exception) st :
  sorted (pending_ st) →
  ∃ st', receive packets closing st = (inr tt, st')
    ∧ ready_ st' = false
    ∧ connection_ st' = conn_disconnect (connection_ st)
    ∧ pending_ st' = []
    ∧ (∃ tr, trace st' = trace st ++ tr)
    ∧ resolved (trace st') ≡ₚ resolved (trace st) ++ promises (pending_ st).
Proof.
  intros Hs.
  destruct (receive_loop_raises packets closing st Hs)
    as (e & st1 & Hloop & Hst1 & [tr1 Htr1] & Hs1 & Hperm).
  unfold receive, try_catch. rewrite Hloop.
  unfold receive_failed, disconnect. unfold_M.
  rewrite broadcast_exception_all. eexists. split; [reflexivity|].
  cbn. split_and!; try done.
  - by rewrite Hst1.
  - eexists. by rewrite Htr1, <- app_assoc.
  - rewrite resolved_app, resolved_broadcast. done.
Qed.

(** X20 ([receive]).  A turn of the receiver, whatever packets arrive
    and whatever ends it, does not raise: it leaves the ready flag down,
    the connection disconnected and no request pending, and each request
    that was pending has had its promise resolved exactly once, by its
    response or by the exception that ended the turn; no other promise
    is resolved. *)
Theorem receive_resolves_all (packets : list bytes) (closing : exception) st :
  sorted (pending_ st) →
  ∃ st', receive packets closing st = (inr tt, st')
    ∧ ready_ st' = false
    ∧ connection_ st' = conn_disconnect (connection_ st)
    ∧ pending_ st' = []
    ∧ (∃ tr, trace st' = trace st ++ tr)
    ∧ resolved (trace st') ≡ₚ resolved (trace st) ++ promises (pending_ st).
Proof. apply receive_run. Qed.

(** X21 ([receive]).  A packet whose header does not decode, or whose
    message type is not [RESPONSE], ends the receiver's turn: the
    packets after it are not handled, and every pending request has its
    promise failed, in the order of the array, with the decoder's error
    or with a [data_mismatch] error. *)
Theorem receive_bad_packet (response : bytes) (rest : list bytes)
    (closing exc : exception) st :
  decode_message_type response = inl exc
  ∨ (∃ t pos, decode_message_type response = inr (t, pos)
              ∧ t ≠ RESPONSE
              ∧ exc = make data_mismatch "Received unknown message type")
  ∨ (∃ pos, decode_message_type response = inr (RESPONSE, pos)
            ∧ decode_request_id (drop pos response) = inl exc) →
  receive (response :: rest) closing st
  = (inr tt,
     with_pending []
       (with_trace (trace st ++ ((λ kv, set_exception (result kv.2) exc)
                                   <$> pending_ st))
          (with_connection (conn_disconnect (connection_ st))
             (with_ready false st)))).
Proof.
  intros Hbad.
  assert (receive_packet response st = (inl exc, st)) as Hpacket.
  { unfold receive_packet.
    destruct Hbad as [->|[(t & pos & -> & Ht & ->)|(pos & -> & ->)]];
      [done| |done].
    by destruct t. }
  unfold receive, try_catch. cbn [receive_loop]. unfold_M.
  rewrite Hpacket. unfold receive_failed, disconnect. unfold_M.
  by rewrite broadcast_exception_all.
Qed.

Lemma send_request_run (dl : option Z) (req_id : Z) (request : bytes)
    (c1 c2 : C) st :
  sorted (pending_ st) →
  conn_connect (connection_ st) = (None, c1) →
  conn_send request c1 = (None, c2) →
  ∃ st',
    send_request dl req_id request st = (inr (promise_for req_id st), st')
    ∧ (∀ p, (req_id, p) ∈ pending_ st → promise_for req_id st = result p)
    ∧ (req_id ∉ keys (pending_ st) → promise_for req_id st = next_promise st)
    ∧ sorted (pending_ st')
    ∧ (req_id, {| deadline := dl; result := promise_for req_id st |})
        ∈ pending_ st'
    ∧ (∀ kv, kv.1 ≠ req_id → kv ∈ pending_ st ↔ kv ∈ pending_ st')
    ∧ ready_ st' = true
    ∧ connection_ st' = c2
    ∧ trace st' = trace st ++ [sent request].
Proof.
  intros Hs Hconn Hsend.
  destruct (register_pending_fields dl req_id st Hs)
    as (st1 & Hreg & Hs1 & Hin1 & Hfilter & Htr1 & Hc1 & _).
  eexists. split.
  { unfold send_request. unfold_M. rewrite Hreg, send_cases, Hc1, Hconn, Hsend.
    reflexivity. }
  cbn. split_and!; try done.
  - intros p Hp. unfold promise_for.
    by rewrite (proj2 (lookup_key_Some _ _ _ Hs) Hp).
  - intros Hout. unfold promise_for.
    by rewrite (proj2 (lookup_key_None _ _ Hs) Hout).
  - intros kv Hne.
    assert (kv ∈ filter (λ kv, kv.1 ≠ req_id) (pending_ st)
            ↔ kv ∈ filter (λ kv, kv.1 ≠ req_id) (pending_ st1)) as Hiff
      by (by rewrite Hfilter).
    rewrite !list_elem_of_filter in Hiff. tauto.
  - by rewrite Htr1.
Qed.


(** X22 ([send_request]).  When the connection opens and the write
    succeeds, [send_request] returns the future of the request's
    promise: the promise of the entry already pending under the id when
    there is one, and a new promise otherwise.  Afterwards the entry of
    the id holds that promise and the deadline of the current context,
    the other entries are unchanged, the ready flag is up, the request
    has been written once and no promise has been resolved. *)
Theorem send_request_sent (dl : option Z) (req_id : Z) (request : bytes)
    (c1 c2 : C) st :
  sorted (pending_ st) →
  conn_connect (connection_ st) = (None, c1) →
  conn_send request c1 = (None, c2) →
  ∃ st',
    send_request dl req_id request st = (inr (promise_for req_id st), st')
    ∧ (∀ p, (req_id, p) ∈ pending_ st → promise_for req_id st = result p)
    ∧ (req_id ∉ keys (pending_ st) → promise_for req_id st = next_promise st)
    ∧ sorted (pending_ st')
    ∧ (req_id, {| deadline := dl; result := promise_for req_id st |})
        ∈ pending_ st'
    ∧ (∀ kv, kv.1 ≠ req_id → kv ∈ pending_ st ↔ kv ∈ pending_ st')
    ∧ ready_ st' = true
    ∧ connection_ st' = c2
    ∧ trace st' = trace st ++ [sent request].
Proof. apply send_request_run. Qed.

(** X23 ([send_request], [receive], [set_response]).  A request sent
    under an id that is not pending, followed by the packet of the
    response to that id, resolves the promise [send_request] returned
    with the bytes after the packet's header, and leaves the pending map
    as it was before the request. *)
Theorem request_response_round_trip (dl : option Z) (req_id : Z)
    (request response : bytes) (pos1 pos2 : nat) (c1 c2 : C) st :
  sorted (pending_ st) →
  req_id ∉ keys (pending_ st) →
  conn_connect (connection_ st) = (None, c1) →
  conn_send request c1 = (None, c2) →
  decode_message_type response = inr (RESPONSE, pos1) →
  decode_request_id (drop pos1 response) = inr (req_id, pos2) →
  ∃ p st1 st2,
    send_request dl req_id request st = (inr p, st1)
    ∧ receive_packet response st1 = (inr tt, st2)
    ∧ p = next_promise st
    ∧ pending_ st2 = pending_ st
    ∧ trace st2
      = trace st ++ [sent request;
                     set_value p (drop (pos1 + pos2) response)].
Proof.
  intros Hs Hout Hconn Hsend Htype Hid.
  destruct (register_pending_fields dl req_id st Hs)
    as (st1 & Hreg & Hs1 & Hin1 & Hfilter & Htr1 & Hc1 & _).
  assert (promise_for req_id st = next_promise st) as Hp.
  { unfold promise_for. by rewrite (proj2 (lookup_key_None _ _ Hs) Hout). }
  rewrite Hp in *.
  eexists _, _, _. split.
  { unfold send_request. unfold_M. rewrite Hreg, send_cases, Hc1, Hconn, Hsend.
    reflexivity. }
  split.
  { unfold receive_packet. rewrite Htype, Hid.
    apply (set_response_present req_id _
             {| deadline := dl; result := next_promise st |}); done. }
  cbn. split_and!; [done| |].
  - rewrite Hfilter. by apply filter_key_absent.
  - by rewrite Htr1, <- app_assoc.
Qed.

Lemma engine_wf_frame st st' :
  pending_ st' = pending_ st →
  resolved (trace st') = resolved (trace st) →
  next_promise st' = next_promise st →
  engine_wf st → engine_wf st'.
Proof. unfold engine_wf, pending_wf. by intros -> -> ->. Qed.

Lemma send_frame data st :
  ∃ r st', send data st = (r, st')
    ∧ pending_ st' = pending_ st
    ∧ resolved (trace st') = resolved (trace st)
    ∧ next_promise st' = next_promise st.
Proof.
  rewrite send_cases.
  destruct (conn_connect (connection_ st)) as [[e|] c1]; [by eexists _, _|].
  destruct (conn_send data c1) as [[e|] c2]; eexists _, _;
    (split; [done|]); cbn; rewrite resolved_app; simpl;
    by rewrite app_nil_r.
Qed.

Lemma cancel_request_frame req_id st :
  sorted (pending_ st) →
  ∃ st', cancel_request req_id st = (inr tt, st')
    ∧ pending_ st' = pending_ (exec (run_op (op_abandon_request req_id)) st)
    ∧ trace st' = trace (exec (run_op (op_abandon_request req_id)) st)
    ∧ next_promise st'
      = next_promise (exec (run_op (op_abandon_request req_id)) st).
Proof.
  intros Hs.
  destruct (run_op_frame (op_abandon_request req_id) st Hs)
    as (st1 & Hrun & _).
  unfold exec. rewrite Hrun. cbn [run_op] in Hrun.
  unfold cancel_request, cancelled_requests_maybe_put. unfold_M.
  rewrite Hrun. case_bool_decide; by eexists.
Qed.

Lemma receive_loop_wf packets closing st :
  engine_wf st → engine_wf (exec (receive_loop packets closing) st).
Proof.
  revert st. induction packets as [|response rest IH]; intros st Hwf; [done|].
  unfold exec in *. cbn [receive_loop]. unfold_M.
  destruct (receive_packet_cases response st)
    as [[e ->]|(req_id & payload & ->)]; [done|].
  pose proof (run_op_engine_wf (op_set_response req_id payload) st Hwf) as Hwf1.
  destruct Hwf as [[Hs _] _].
  destruct (run_op_frame (op_set_response req_id payload) st Hs)
    as (st1 & Hrun & _).
  unfold exec in Hwf1. rewrite Hrun in *. by apply IH.
Qed.

Lemma run_call_wf (c : call) st :
  engine_wf st → engine_wf (exec (run_call c) st).
Proof.
  intros Hwf. pose proof Hwf as [[Hs _] _].
  destruct c as [|dl req_id request|req_id|packets closing|which now];
    cbn [run_call].
  - unfold exec. unfold_M. rewrite new_request_id_step. simpl.
    by apply (engine_wf_frame st).
  - pose proof (register_pending_wf dl req_id st Hwf) as Hwf1.
    destruct (register_pending_fields dl req_id st Hs) as (st1 & Hreg & _).
    unfold exec in *. unfold send_request. unfold_M.
    rewrite Hreg in *. simpl in Hwf1.
    destruct (send_frame request st1) as (r & st2 & -> & Hp & Hr & Hn).
    pose proof (engine_wf_frame st1 st2 Hp Hr Hn Hwf1) as Hwf2.
    destruct r as [e|[]]; [|done].
    pose proof (run_op_engine_wf (op_abandon_request req_id) st2 Hwf2) as Hwf3.
    unfold exec in Hwf3. cbn [run_op] in Hwf3.
    by destruct (abandon_request req_id st2) as [[?|[]] ?].
  - pose proof (run_op_engine_wf (op_abandon_request req_id) st Hwf) as Hwf1.
    destruct (cancel_request_frame req_id st Hs) as (st2 & Hrun & Hp & Ht & Hn).
    unfold exec at 1. rewrite Hrun.
    apply (engine_wf_frame _ _ Hp); by rewrite ?Ht.
  - pose proof (receive_loop_wf packets closing st Hwf) as Hwf1.
    unfold exec in *. unfold receive, try_catch.
    destruct (receive_loop packets closing st) as [[e|[]] st1]; [|done].
    unfold receive_failed, disconnect. unfold_M.
    pose proof (run_op_engine_wf (op_broadcast_exception e)
                  (with_connection (conn_disconnect (connection_ st1))
                     (with_ready false st1))) as Hb.
    unfold exec in Hb. cbn [run_op] in Hb. simpl in Hwf1.
    destruct (broadcast_exception e _) as [[?|[]] ?] eqn:Hbr;
      apply Hb; by apply (engine_wf_frame st1).
  - destruct which; cbn [handle_selected].
    + unfold exec. unfold_M. by apply (engine_wf_frame st).
    + unfold exec. unfold_M.
      destruct (cancelled_requests_ st) as [|id q]; [done|].
      destruct (send_frame (cancel_frame id) (with_cancelled_requests q st))
        as (r & st1 & -> & Hp & Hr & Hn).
      destruct r as [e|[]]; by apply (engine_wf_frame st).
    + apply (run_op_engine_wf (op_gc now) st Hwf).
Qed.

Lemma run_calls_wf (cs : list call) st :
  engine_wf st → engine_wf (run_calls cs st).
Proof.
  revert st. induction cs as [|c cs IH]; intros st Hwf; [done|].
  simpl. by apply IH, run_call_wf.
Qed.

(** X24 (the calls on the engine).  Whatever calls are made on an
    engine, in whatever order ([new_request_id], [send_request],
    [cancel_request], turns of the receiver and of the handler), the
    pending map stays sorted by request id, the pending requests hold
    distinct promises none of which has been resolved, and no promise is
    resolved twice; and every call other than [send_request] returns
    without raising. *)
Theorem calls_keep_invariant (cs : list call) st :
  engine_wf st →
  engine_wf (run_calls cs st)
  ∧ sorted (pending_ (run_calls cs st))
  ∧ NoDup (promises (pending_ (run_calls cs st)))
  ∧ NoDup (resolved (trace (run_calls cs st)))
  ∧ (∀ p, p ∈ promises (pending_ (run_calls cs st)) →
          p ∉ resolved (trace (run_calls cs st)))
  ∧ (∀ c (s : client_connection C),
       engine_wf s →
       match c with
       | call_send_request _ _ _ => True
       | _ => (run_call c s).1 = inr tt
       end).
Proof.
  intros Hwf. pose proof (run_calls_wf cs st Hwf) as Hwf'.
  split; [done|]. destruct Hwf' as [[Hs Hnd] _].
  apply NoDup_app in Hnd as (Hp & Hdisj & Hr).
  split_and!; try done.
  intros c s [[Hss _] _].
  destruct c as [|dl req_id request|req_id|packets closing|which now];
    cbn [run_call]; [done|done| | |].
  - by destruct (cancel_request_frame req_id s Hss) as (s' & -> & _).
  - by destruct (receive_run packets closing s Hss) as (s' & -> & _).
  - destruct which; cbn [handle_selected]; [done| |by rewrite gc_filter].
    unfold_M. destruct (cancelled_requests_ s) as [|id q]; [done|].
    by destruct (send _ _) as [[?|[]] ?].
Qed.

Lemma register_pending_sequence dl req_id st :
  sequence_ (exec (register_pending dl req_id) st) = sequence_ st.
Proof.
  unfold exec, register_pending, ring_doorbell, new_deadline_maybe_put.
  unfold try_catch_kind. unfold_M.
  destruct (insert _ _) as [[it ins] m1].
  destruct ins, dl; simpl; try done; by case_bool_decide.
Qed.

Lemma send_sequence data st : sequence_ (exec (send data) st) = sequence_ st.
Proof.
  unfold exec. rewrite send_cases.
  destruct (conn_connect (connection_ st)) as [[e|] c1]; [done|].
  by destruct (conn_send data c1) as [[e|] c2].
Qed.

Lemma abandon_request_sequence req_id st :
  sequence_ (exec (abandon_request req_id) st) = sequence_ st.
Proof.
  unfold exec, abandon_request. unfold_M.
  case_bool_decide; [|done]. by destruct (pending_ st !! _).
Qed.

Lemma send_request_sequence dl req_id request st :
  sequence_ (exec (send_request dl req_id request) st) = sequence_ st.
Proof.
  pose proof (register_pending_sequence dl req_id st) as Hreg.
  unfold exec in *. unfold send_request. unfold_M.
  destruct (register_pending dl req_id st) as [[e|p] st1]; [done|].
  pose proof (send_sequence request st1) as Hsend. unfold exec in Hsend.
  destruct (send request st1) as [[e|[]] st2]; simpl in *; [|congruence].
  pose proof (abandon_request_sequence req_id st2) as Hab.
  unfold exec in Hab.
  destruct (abandon_request req_id st2) as [[?|[]] st3]; simpl in *;
    congruence.
Qed.

(** X25 ([remote_object::async_call]).  On an engine whose next request
    id is not pending, and over a connection that opens and writes,
    [async_call] returns that id together with the future of a new
    promise, held by no pending request and not resolved; it moves the
    counter on by one (modulo [2^32]), writes once the [REQUEST] header
    of the id followed by the body, and leaves the request pending with
    the earlier of the current context's deadline and the option's
    timeout counted from now. *)
Theorem async_call_sent {D : Type} `{Context.DynamicBase D}
    (request_timeout : option Z) (parent : Context.context D) (now : Z)
    (body : bytes) (c1 c2 : C) st :
  engine_wf st →
  sequence_ st ∉ keys (pending_ st) →
  let request := encode_message_type REQUEST
                   ++ encode_request_id (sequence_ st) ++ body in
  let dl := match request_timeout with
            | Some timeout =>
                Some (match Context.deadline parent with
                      | Some d => Z.min (now + timeout) d
                      | None => now + timeout
                      end)
            | None => Context.deadline parent
            end in
  conn_connect (connection_ st) = (None, c1) →
  conn_send request c1 = (None, c2) →
  ∃ st',
    async_call request_timeout parent now body st
    = (inr (next_promise st, sequence_ st), st')
    ∧ (next_promise st ∉ promises (pending_ st))
    ∧ (next_promise st ∉ resolved (trace st))
    ∧ sequence_ st' = (sequence_ st + 1) mod 2 ^ 32
    ∧ (sequence_ st, {| deadline := dl; result := next_promise st |})
        ∈ pending_ st'
    ∧ (∀ kv, kv.1 ≠ sequence_ st → kv ∈ pending_ st ↔ kv ∈ pending_ st')
    ∧ trace st' = trace st ++ [sent request].
Proof.
  intros [[Hs _] Hlt] Hout request dl Hconn Hsend.
  set (st0 := with_sequence ((sequence_ st + 1) mod 2 ^ 32) st).
  destruct (send_request_run dl (sequence_ st) request c1 c2 st0 Hs Hconn Hsend)
    as (st' & Hrun & _ & Hnew & _ & Hin & Hothers & _ & _ & Htr).
  rewrite (Hnew Hout) in *.
  assert (Context.deadline
            (match request_timeout with
             | Some timeout =>
                 Context.set_timeout timeout now
                   (Context.new_context parent false)
             | None => Context.new_context parent false
             end) = dl) as Hdl.
  { subst dl. destruct request_timeout as [timeout|]; simpl; [|done].
    by destruct (Context.deadline parent). }
  exists st'. split.
  { unfold async_call. unfold_M. rewrite new_request_id_step, Hdl.
    fold request st0. by rewrite Hrun. }
  apply Forall_app in Hlt as [Hlt1 Hlt2]. rewrite Forall_forall in Hlt1, Hlt2.
  split_and!; try done.
  - intros Hin'. specialize (Hlt1 _ Hin'). lia.
  - intros Hin'. specialize (Hlt2 _ Hin'). lia.
  - pose proof (send_request_sequence dl (sequence_ st) request st0) as Hseq.
    unfold exec in Hseq. by rewrite Hrun in Hseq.
Qed.

End client_engine_properties.

(** ** Awaitables: [timeout] and [polling] *)

Section awaitable_timeout_properties.
Import Awaitable.

(** X26 ([timeout], [polling]).  [timeout(d)] and [polling(d)] wait for
    no descriptor and for the duration [d] in whole milliseconds,
    truncated toward zero, and differ in the polling flag alone.  The
    duration is not clamped: one of a millisecond or more below zero
    gives a negative count, where [deadline] gives zero. *)
Theorem timeout_polling_truncate (ticks_per_ms d : Z) :
  0 < ticks_per_ms →
  let ms := Z.quot d ticks_per_ms in
  timeout ticks_per_ms d
  = {| fd_ := -1; for_write_ := false; timeout_ := ms; for_polling_ := false |}
  ∧ polling ticks_per_ms d
    = {| fd_ := -1; for_write_ := false; timeout_ := ms;
         for_polling_ := true |}
  ∧ Z.abs (d - ms * ticks_per_ms) < ticks_per_ms
  ∧ (0 ≤ d → 0 ≤ ms ∧ ms * ticks_per_ms ≤ d)
  ∧ (d ≤ 0 → ms ≤ 0 ∧ d ≤ ms * ticks_per_ms)
  ∧ (d ≤ - ticks_per_ms → timeout_ (timeout ticks_per_ms d) < 0).
Proof.
  intros Hpos ms.
  pose proof (Z.quot_rem' d ticks_per_ms) as Hqr.
  assert (ticks_per_ms ≠ 0) as Hne by lia.
  pose proof (Z.rem_bound_abs d ticks_per_ms Hne) as Hb.
  assert (d - ms * ticks_per_ms = Z.rem d ticks_per_ms) as Hrem
    by (subst ms; lia).
  split_and!; try done.
  - lia.
  - intros Hd. pose proof (Z.rem_nonneg d ticks_per_ms Hne Hd).
    assert (0 ≤ ms) by (by apply Z.quot_pos; lia). lia.
  - intros Hd. pose proof (Z.rem_nonpos d ticks_per_ms Hne Hd).
    assert (ms ≤ 0); [|lia].
    subst ms. apply Z.quot_le_upper_bound; lia.
  - intros Hd. simpl. unfold duration_cast_ms. fold ms.
    assert (ms ≤ -1); [|lia].
    subst ms. apply Z.quot_le_upper_bound; lia.
Qed.

End awaitable_timeout_properties.

Lemma negative_timeout_example :
  Awaitable.timeout 1000000 (-2500000)
  = {| Awaitable.fd_ := -1; Awaitable.for_write_ := false;
       Awaitable.timeout_ := -2; Awaitable.for_polling_ := false |}
  ∧ Awaitable.timeout_ (Awaitable.timeout 1000000 (-2500000)) < 0.
Proof.
  pose proof (timeout_polling_truncate 1000000 (-2500000) eq_refl)
    as (Ht & _ & _ & _ & _ & Hneg).
  split; [exact Ht|]. apply Hneg. lia.
Defined.

(** ** Runs of concrete engines: threads and calls *)

Section engine_samples.
Import FlatMap Errors Client ClientFacts Samples.

Lemma busy_gc_twice_example :
  let st' := exec (gc 200000000) (busy online) in
  (get_earliest_deadline st').1 = inr (Some 300)
  ∧ 200000000 ≤ 300 * 1000000
  ∧ gc 200000000 st' = (inr tt, st').
Proof.
  intros st'.
  destruct (gc_leaves_none_timed_out 200000000 200000000 (busy online))
    as (_ & _ & Hearliest & Hagain); [lia|].
  split_and!; [reflexivity| |exact Hagain].
  apply (Hearliest 300); [reflexivity|]. by vm_compute.
Defined.

Lemma busy_receive_example :
  ∃ st', receive [le_encode 1 1 ++ le_encode 4 6 ++ [Byte.x41]] eof
           (busy online) = (inr tt, st')
    ∧ ready_ st' = false
    ∧ pending_ st' = []
    ∧ resolved (trace st') ≡ₚ [0; 1; 2]%nat.
Proof.
  destruct (receive_resolves_all
              [le_encode 1 1 ++ le_encode 4 6 ++ [Byte.x41]] eof (busy online))
    as (st' & Hrun & Hready & _ & Hp & _ & Hres).
  - repeat constructor.
  - exists st'. split_and!; [exact Hrun|exact Hready|exact Hp|exact Hres].
Defined.

Lemma busy_bad_packet_example :
  receive [[Byte.x07]; le_encode 1 1 ++ le_encode 4 6] eof (busy online)
  = (inr tt,
     with_pending []
       (with_trace
          ((λ kv, set_exception (result kv.2)
                    (make data_mismatch "Received unknown message type"))
             <$> pending_ (busy online))
          (with_connection {| connected := false; script := [] |}
             (with_ready false (busy online))))).
Proof.
  rewrite (receive_bad_packet [Byte.x07] [le_encode 1 1 ++ le_encode 4 6] eof
             (make data_mismatch "Received unknown message type")
             (busy online)); [reflexivity|].
  right. left. exists (other_message_type 7), 1%nat.
  split; [reflexivity|]. split; [discriminate|reflexivity].
Defined.

Lemma busy_send_request_example :
  ∃ st', send_request (Some 50) 9 [Byte.x01] (busy online) = (inr 3%nat, st')
    ∧ (9, {| deadline := Some 50; result := 3%nat |}) ∈ pending_ st'
    ∧ ready_ st' = true
    ∧ trace st' = [sent [Byte.x01]].
Proof.
  destruct (send_request_sent (Some 50) 9 [Byte.x01] online online (busy online))
    as (st' & Hrun & _ & _ & _ & Hin & _ & Hready & _ & Htr).
  - repeat constructor.
  - reflexivity.
  - reflexivity.
  - exists st'. split_and!; [exact Hrun|exact Hin|exact Hready|exact Htr].
Defined.

Lemma busy_round_trip_example :
  let response := le_encode 1 1 ++ le_encode 4 9 ++ [Byte.x41; Byte.x42] in
  ∃ p st1 st2,
    send_request (Some 50) 9 [Byte.x01] (busy online) = (inr p, st1)
    ∧ receive_packet response st1 = (inr tt, st2)
    ∧ p = 3%nat
    ∧ pending_ st2 = pending_ (busy online)
    ∧ trace st2 = [sent [Byte.x01]; set_value p [Byte.x41; Byte.x42]].
Proof.
  intros response.
  apply (request_response_round_trip (Some 50) 9 [Byte.x01] response
           1 4 online online (busy online)).
  - repeat constructor.
  - intros Hin. unfold keys in Hin. simpl in Hin.
    rewrite !elem_of_cons in Hin.
    destruct Hin as [?|[?|[?|Hin]]]; try done. by apply elem_of_nil in Hin.
  - reflexivity.
  - reflexivity.
  - reflexivity.
  - reflexivity.
Defined.

Lemma new_engine_calls_example :
  let cs := [ call_new_request_id;
              call_send_request (Some 50) 0 [Byte.x01];
              call_send_request None 0 [Byte.x02];
              call_cancel_request 0;
              call_handle_selected cancelled_request 0;
              call_receive [le_encode 1 1 ++ le_encode 4 0] eof ] in
  engine_wf (run_calls cs (new_engine online))
  ∧ NoDup (resolved (trace (run_calls cs (new_engine online)))).
Proof.
  intros cs.
  destruct (calls_keep_invariant cs (new_engine online))
    as (Hwf & _ & _ & Hnd & _).
  - apply new_engine_wf.
  - split; [exact Hwf|exact Hnd].
Defined.

Lemma new_engine_async_call_example :
  ∃ st', async_call (Some 50) (Context.root (D:=tagged)) 1000 [Byte.x41]
           (new_engine online)
         = (inr (0%nat, 0), st')
    ∧ sequence_ st' = 1
    ∧ (0, {| deadline := Some 1050; result := 0%nat |}) ∈ pending_ st'
    ∧ trace st' = [sent (le_encode 1 0 ++ le_encode 4 0 ++ [Byte.x41])].
Proof.
  destruct (async_call_sent (Some 50) (Context.root (D:=tagged)) 1000
              [Byte.x41] online online (new_engine online))
    as (st' & Hrun & _ & _ & Hseq & Hin & _ & Htr).
  - apply new_engine_wf.
  - apply not_elem_of_nil.
  - reflexivity.
  - reflexivity.
  - exists st'. split_and!; [exact Hrun|exact Hseq|exact Hin|exact Htr].
Defined.

End engine_samples.

(** ** The handler's wait and [gc] *)

Section handler_properties.
Import FlatMap FlatMapFacts Errors Client ClientFacts.
Context {C : Type} `{Connection C} `{Codec} `{QueueCapacity} `{SystemClock}.
Implicit Types (st : client_connection C).

(** X27 ([handle_timeouts_and_cancellations], [gc], [deadline]).  With
    pending deadlines whose conversion to the clock's ticks does not
    wrap around: while the earliest of them is not past and less than
    one millisecond ahead, the wait the handler builds from it lasts
    zero milliseconds, and the [gc()] that follows removes nothing and
    resolves nothing, its comparison being strict: the handler goes
    round its loop without waiting until the clock has passed the
    deadline. *)
Theorem handler_spins_until_deadline (d now1 now2 : Z) st :
  0 < ticks_per_ms < 2 ^ 63 →
  Forall (λ kv, ∀ t, deadline kv.2 = Some t → fits_ticks t) (pending_ st) →
  (get_earliest_deadline st).1 = inr (Some d) →
  - 2 ^ 63 ≤ now1 →
  now1 ≤ now2 → now2 ≤ d * ticks_per_ms →
  d * ticks_per_ms < now1 + ticks_per_ms →
  Awaitable.timeout_ (Awaitable.deadline Awaitable.milli d now1) = 0
  ∧ handle_selected time_to_do_gc now2 st = (inr tt, st)
  ∧ (get_earliest_deadline (exec (handle_selected time_to_do_gc now2) st)).1
    = inr (Some d).
Proof.
  intros Hpos Hfits Hd Hmin Hnow Hnot_past Hclose.
  rewrite Forall_forall in Hfits.
  pose proof Hd as Hd'. injection Hd' as Hd'.
  destruct (earliest_foldl (pending_ st) None) as [_ Hs].
  destruct (Hs d Hd') as ([?|(kvd & Hind & Hkvd)] & _ & Hle); [done|].
  pose proof (Hfits kvd Hind d Hkvd) as Hfitd.
  assert (handle_selected time_to_do_gc now2 st = (inr tt, st)) as Hgc.
  { cbn [handle_selected]. rewrite gc_filter.
    assert (Forall (λ kv, ¬ timed_out now2 kv) (pending_ st)) as Hnone.
    { apply Forall_forall. intros kv Hin.
      unfold timed_out, deadline_before.
      destruct (deadline kv.2) as [t|] eqn:Ht; [|by intros []].
      specialize (Hle kv t Hin Ht).
      rewrite (to_ticks_fits t (Hfits kv Hin t Ht)).
      destruct (Z.ltb_spec (t * ticks_per_ms) now2) as [Hlt|Hge];
        [nia|by intros []]. }
    rewrite (filter_none _ _ Hnone), (filter_all _ _ Hnone).
    simpl. rewrite app_nil_r. by destruct st. }
  split_and!; [|done|by unfold exec; rewrite Hgc].
  unfold fits_ticks in Hfitd.
  rewrite deadline_milli_in_range by (unfold fits_ticks; lia).
  simpl. rewrite Z.quot_small by lia. done.
Qed.

End handler_properties.

Lemma busy_handler_spins_example :
  Awaitable.timeout_ (Awaitable.deadline Awaitable.milli 100 99500000) = 0
  ∧ Client.handle_selected Client.time_to_do_gc 99800000
      (Samples.busy Samples.online)
    = (inr tt, Samples.busy Samples.online).
Proof.
  destruct (handler_spins_until_deadline 100 99500000 99800000
              (Samples.busy Samples.online)) as (Hwait & Hgc & _).
  - by vm_compute.
  - repeat apply Forall_cons_2; try apply Forall_nil_2;
      intros t [= <-]; by vm_compute.
  - reflexivity.
  - lia.
  - lia.
  - unfold ticks_per_ms, Samples.nanoseconds. lia.
  - unfold ticks_per_ms, Samples.nanoseconds. lia.
  - split; [exact Hwait|exact Hgc].
Defined.

(** ** Resolved addresses: walking a list *)

Section address_properties.
Import Address.

Lemma distance_chain (h : store) (p : pointer) (l : list address) :
  chain h p l →
  ∀ fuel, (length l ≤ fuel)%nat →
    distance h fuel p nullptr = Some (length l)
    ∧ visit h fuel p nullptr = Some l.
Proof.
  induction 1 as [|p a l Hp Ha Hchain IH]; intros fuel Hfuel.
  - by destruct fuel.
  - destruct fuel as [|fuel]; [simpl in Hfuel; lia|].
    destruct (IH fuel) as [Hd Hv]; [simpl in Hfuel; lia|].
    cbn [distance visit]. unfold iterator_eq, iterator_ne.
    rewrite bool_decide_eq_false_2, bool_decide_eq_true_2 by done.
    unfold iterator_incr, iterator_deref. rewrite Ha. simpl.
    by rewrite Hd, Hv.
Qed.

(** X28 ([address_list::size], [address_list::empty], the iterators).
    On a list whose objects are linked by [ai_next] up to a null
    pointer, [size()] is the number of objects, [empty()] tells whether
    there is none, and walking from [begin()] to [end()] meets the
    objects in the order of the links. *)
Theorem address_list_walk (h : store) (l : address_list)
    (addresses : list address) (fuel : nat) :
  chain h l addresses →
  (length addresses ≤ fuel)%nat →
  size h fuel l = Some (length addresses)
  ∧ visit h fuel (begin_ l) (end_ l) = Some addresses
  ∧ (empty l = true ↔ addresses = []).
Proof.
  intros Hchain Hfuel.
  destruct (distance_chain h l addresses Hchain fuel Hfuel) as [Hd Hv].
  split_and!; [done|done|].
  unfold empty, iterator_eq, begin_, end_.
  destruct Hchain; [done|].
  by rewrite bool_decide_eq_false_2.
Qed.

(** X29 ([address::address], [address_list::size]).  An [address] built
    by one of its constructors is linked to itself, as its destructor
    asserts; it is not the head of a list that ends, and neither
    [size()] nor a walk from it to [end()] finishes, however many steps
    they take. *)
Theorem constructed_address_never_ends (h : store) (this : pointer)
    (a : address) (fuel : nat) :
  this ≠ nullptr →
  h !! this = Some a →
  (∃ n storage, a = address_default n this storage)
  ∨ (∃ storage other, a = address_copy this storage other)
  ∨ (∃ p other left, address_move this p other = Some (a, left)) →
  ai_next a = this
  ∧ size h fuel this = None
  ∧ visit h fuel (begin_ this) (end_ this) = None.
Proof.
  intros Hthis Ha Hbuilt.
  assert (ai_next a = this) as Hnext.
  { destruct Hbuilt as [(n & s & ->)|[(s & o & ->)|(p & o & left & Hm)]];
      [done|done|].
    unfold address_move in Hm. case_bool_decide; [|done]. by simplify_eq. }
  split; [done|]. unfold size, begin_, end_.
  induction fuel as [|fuel [IHd IHv]].
  - simpl. unfold iterator_eq, iterator_ne.
    by rewrite bool_decide_eq_false_2, bool_decide_eq_true_2.
  - cbn [distance visit]. unfold iterator_eq, iterator_ne.
    rewrite bool_decide_eq_false_2, bool_decide_eq_true_2 by done.
    unfold iterator_incr, iterator_deref. rewrite Ha. simpl.
    by rewrite Hnext, IHd, IHv.
Qed.

End address_properties.

Lemma two_addresses_example :
  let a := {| Address.ai_flags := 0; Address.ai_family := 2;
              Address.ai_socktype := 1; Address.ai_protocol := 6;
              Address.ai_addrlen := 16; Address.ai_addr := 4096;
              Address.ai_canonname := 0; Address.ai_next := 200 |} in
  let b := {| Address.ai_flags := 0; Address.ai_family := 10;
              Address.ai_socktype := 1; Address.ai_protocol := 6;
              Address.ai_addrlen := 28; Address.ai_addr := 8192;
              Address.ai_canonname := 0; Address.ai_next := 0 |} in
  let h : Address.store := <[100 := a]> (<[200 := b]> ∅) in
  Address.size h 5 100 = Some 2%nat
  ∧ Address.visit h 5 100 0 = Some [a; b].
Proof.
  intros a b h.
  destruct (address_list_walk h 100 [a; b] 5) as (Hsize & Hvisit & _).
  - apply Address.chain_cons; [done|reflexivity|].
    apply Address.chain_cons; [done|reflexivity|].
    apply Address.chain_nil.
  - simpl. lia.
  - split; [exact Hsize|exact Hvisit].
Defined.

Lemma lone_address_example :
  let a := Address.address_default 128 100 4096 in
  let h : Address.store := <[100 := a]> ∅ in
  Address.size h 1000 100 = None.
Proof.
  intros a h.
  destruct (constructed_address_never_ends h 100 a 1000) as (_ & Hsize & _).
  - done.
  - reflexivity.
  - left. by exists 128, 4096.
  - exact Hsize.
Defined.

(** ** Resolved addresses: printing *)

Section as_string_properties.
Import Address.

Lemma first_occurrence_split {A} (x : A) (a b c d : list A) :
  x ∉ a → x ∉ b → a ++ x :: c = b ++ x :: d → a = b ∧ c = d.
Proof.
  revert b. induction a as [|y a IH]; intros [|z b] Ha Hb Heq;
    simplify_eq/=.
  - done.
  - exfalso. apply Hb. by left.
  - exfalso. apply Ha. by left.
  - destruct (IH b) as [-> ->]; [| |done|done].
    + intros Hin. apply Ha. by right.
    + intros Hin. apply Hb. by right.
Qed.

Lemma last_occurrence_split {A} (x : A) (a b c d : list A) :
  x ∉ c → x ∉ d → a ++ x :: c = b ++ x :: d → a = b ∧ c = d.
Proof.
  intros Hc Hd Heq. apply (f_equal reverse) in Heq.
  rewrite !reverse_app, !reverse_cons, <- !app_assoc in Heq. simpl in Heq.
  apply first_occurrence_split in Heq as [Hcd Hab];
    [|by rewrite elem_of_reverse..].
  split; [by apply (inj reverse)|by apply (inj reverse)].
Qed.

Lemma list_ascii_app (s1 s2 : string) :
  Strings.String.list_ascii_of_string (s1 +:+ s2)
  = Strings.String.list_ascii_of_string s1 ++ Strings.String.list_ascii_of_string s2.
Proof. induction s1 as [|c s1 IH]; [done|]. simpl. by rewrite IH. Qed.

Lemma list_ascii_inj (s1 s2 : string) :
  Strings.String.list_ascii_of_string s1 = Strings.String.list_ascii_of_string s2 → s1 = s2.
Proof.
  intros Heq. rewrite <- (Strings.String.string_of_list_ascii_of_string s1).
  rewrite <- (Strings.String.string_of_list_ascii_of_string s2). by rewrite Heq.
Qed.

Lemma string_find_elem_of (c : Ascii.ascii) (s : string) :
  string_find c s ≠ None ↔ c ∈ Strings.String.list_ascii_of_string s.
Proof.
  induction s as [|c' s IH]; simpl.
  - split; [done|by intros ?%elem_of_nil].
  - destruct (decide (c' = c)) as [->|Hne].
    + split; [by left|done].
    + rewrite elem_of_cons, <- IH.
      destruct (string_find c s); simpl.
      * split; [by right|done].
      * split; [done|by intros [->|?]].
Qed.

Lemma as_string_text (host port s : string) :
  as_string 0 host port = returned s →
  ∃ pre,
    Strings.String.list_ascii_of_string s
    = pre ++ colon :: Strings.String.list_ascii_of_string port
    ∧ ((colon ∈ Strings.String.list_ascii_of_string host
        ∧ pre = Strings.String.list_ascii_of_string "["
                ++ Strings.String.list_ascii_of_string host
                ++ Strings.String.list_ascii_of_string "]")
       ∨ ((colon ∉ Strings.String.list_ascii_of_string host)
          ∧ pre = Strings.String.list_ascii_of_string host)).
Proof.
  unfold as_string.
  rewrite (bool_decide_eq_false_2 (0 ≠ 0)) by (by intros []).
  case_bool_decide as Hh; intros [= <-]; eexists; rewrite !list_ascii_app.
  - split; [|left; split;
               [exact (proj1 (string_find_elem_of _ _) Hh)|reflexivity]].
    by rewrite <- !app_assoc.
  - split; [|right; split; [|reflexivity]]; [done|].
    intros Hin. by apply string_find_elem_of in Hin.
Qed.

(** X30 ([address::as_string]).  When [getnameinfo] fails, [as_string]
    raises through [throw_io_error] with its result.  Otherwise it
    returns the host, in brackets when it holds a colon, then a colon
    and the port; as the port is numeric and holds no colon, two
    addresses print as the same string only when they have the same
    host and the same port. *)
Theorem as_string_unambiguous (res1 res2 : Z) (host1 port1 host2 port2 s
    : string) :
  string_find colon port1 = None →
  string_find colon port2 = None →
  as_string res1 host1 port1 = returned s →
  as_string res2 host2 port2 = returned s →
  res1 = 0 ∧ res2 = 0 ∧ host1 = host2 ∧ port1 = port2
  ∧ s = (if bool_decide (string_find colon host1 ≠ None)
         then "[" +:+ host1 +:+ "]:" +:+ port1
         else host1 +:+ ":" +:+ port1).
Proof.
  intros Hp1 Hp2 H1 H2.
  assert (∀ p, string_find colon p = None
               → colon ∉ Strings.String.list_ascii_of_string p) as Hfree.
  { intros p Hp Hin. apply string_find_elem_of in Hin. by apply Hin. }
  apply Hfree in Hp1, Hp2.
  destruct (decide (res1 = 0)) as [->|Hr1];
    [|by unfold as_string in H1; rewrite bool_decide_eq_true_2 in H1].
  destruct (decide (res2 = 0)) as [->|Hr2];
    [|by unfold as_string in H2; rewrite bool_decide_eq_true_2 in H2].
  split; [done|]. split; [done|].
  assert (host1 = host2 ∧ port1 = port2) as [<- <-].
  { destruct (as_string_text _ _ _ H1) as (pre1 & Hs1 & Hpre1).
    destruct (as_string_text _ _ _ H2) as (pre2 & Hs2 & Hpre2).
    rewrite Hs1 in Hs2.
    apply last_occurrence_split in Hs2 as [Hpre Hport]; [|done..].
    split; [|by apply list_ascii_inj].
    apply list_ascii_inj.
    destruct Hpre1 as [[Hin1 ->]|[Hout1 ->]], Hpre2 as [[Hin2 ->]|[Hout2 ->]].
    - simpl in Hpre. injection Hpre as Hpre. by apply app_inj_tail in Hpre as [? _].
    - exfalso. apply Hout2. rewrite <- Hpre.
      apply elem_of_app. right. apply elem_of_app. by left.
    - exfalso. apply Hout1. rewrite Hpre.
      apply elem_of_app. right. apply elem_of_app. by left.
    - done. }
  split; [done|]. split; [done|].
  unfold as_string in H1.
  rewrite (bool_decide_eq_false_2 (0 ≠ 0)) in H1 by (by intros []).
  by case_bool_decide; injection H1 as <-.
Qed.

End as_string_properties.

Lemma loopback_as_string_example :
  Address.as_string 0 "::1" "8080" = Address.returned "[::1]:8080"
  ∧ Address.as_string 0 "127.0.0.1" "8080" = Address.returned "127.0.0.1:8080".
Proof.
  assert (Address.as_string 0 "::1" "8080" = Address.returned "[::1]:8080")
    as Hv6 by reflexivity.
  split; [exact Hv6|].
  destruct (as_string_unambiguous 0 0 "127.0.0.1" "8080" "127.0.0.1" "8080"
              "127.0.0.1:8080") as (_ & _ & _ & _ & Hs);
    [reflexivity..|].
  by rewrite Hs.
Defined.
